(** * Ethena calculation engine: a shallow embedding and its properties

    The TypeScript utility modules of n8n-nodes-ethena (yieldUtils,
    deltaUtils, cooldownUtils, pointsUtils) hold the calculation functions
    of the node: functions over JavaScript [number]s, [bigint]s and
    strings.  This development embeds the functions the specification
    talks about and settles the specification's statements on them.

    Numbers.  A JavaScript [number] is modelled by [number]: the three
    special values NaN, +Infinity, -Infinity and the finite values, which
    are carried as rationals.  The special values follow IEEE 754 (0/0 is
    NaN, x/0 is an infinity, every comparison with NaN is false).  The
    finite values are read in two ways.

    - Exact.  The operators of [num_scope] compute on the rationals
      without rounding.  The functions embedded with them carry the
      statements on which rounding does not bear: those that comparisons,
      special values and whole numbers decide.

    - Rounded.  Module [Rounded] embeds the functions with every
      arithmetic result passed through a rounding function [rnd], as
      binary64 arithmetic does.  Its theorems hold for every [rnd] that
      [rounds_to_nearest], that is, with a relative error of at most
      2^-53; [round53], rounding to the nearest number of 53 significant
      bits with ties to even, is such a function and evaluates concrete
      calls.  The exponent range is not bounded: overflow, underflow and
      the sign of zero are outside the model.  The finite results of
      [Math.pow], which ECMAScript leaves to the implementation, are a
      parameter [pow], constrained where a theorem needs it.

    [bigint]s and whole-second timestamps are integers ([Z]).

    Environment.  The clock is an explicit argument of the functions that
    read it. *)

From Stdlib Require Import ZArith QArith Qround Qabs Qminmax Qpower.
From Stdlib Require Import List String Ascii Bool Lia Lqa Permutation.
From Stdlib Require Import DecimalString Setoid Morphisms.
From Stdlib Require PrimFloat FloatOps SpecFloat.
Import ListNotations.

Local Open Scope Q_scope.

(** ** JavaScript numbers *)

Inductive number : Type :=
| NaN
| PosInf
| NegInf
| Fin (q : Q).

Declare Scope num_scope.
Delimit Scope num_scope with num.
Bind Scope num_scope with number.

Definition of_Z (z : Z) : number := Fin (inject_Z z).
Definition of_nat (n : nat) : number := of_Z (Z.of_nat n).

Definition Qlt_bool (a b : Q) : bool := negb (Qle_bool b a).

Definition nneg (x : number) : number :=
  match x with
  | NaN => NaN
  | PosInf => NegInf
  | NegInf => PosInf
  | Fin q => Fin (- q)
  end.

Definition nadd (x y : number) : number :=
  match x, y with
  | NaN, _ | _, NaN => NaN
  | PosInf, NegInf | NegInf, PosInf => NaN
  | PosInf, _ | _, PosInf => PosInf
  | NegInf, _ | _, NegInf => NegInf
  | Fin a, Fin b => Fin (a + b)
  end.

Definition nsub (x y : number) : number := nadd x (nneg y).

(** An infinity of sign [s] ([true] is negative). *)
Definition inf_of (negative : bool) : number :=
  if negative then NegInf else PosInf.

Definition inf_times (negative : bool) (q : Q) : number :=
  match q ?= 0 with
  | Eq => NaN
  | Gt => inf_of negative
  | Lt => inf_of (negb negative)
  end.

Definition nmul (x y : number) : number :=
  match x, y with
  | NaN, _ | _, NaN => NaN
  | PosInf, PosInf | NegInf, NegInf => PosInf
  | PosInf, NegInf | NegInf, PosInf => NegInf
  | PosInf, Fin q | Fin q, PosInf => inf_times false q
  | NegInf, Fin q | Fin q, NegInf => inf_times true q
  | Fin a, Fin b => Fin (a * b)
  end.

Definition ndiv (x y : number) : number :=
  match x, y with
  | NaN, _ | _, NaN => NaN
  | (PosInf | NegInf), (PosInf | NegInf) => NaN
  | PosInf, Fin b => inf_of (Qlt_bool b 0)
  | NegInf, Fin b => inf_of (negb (Qlt_bool b 0))
  | Fin _, (PosInf | NegInf) => Fin 0
  | Fin a, Fin b =>
      if Qeq_bool b 0 then
        match a ?= 0 with
        | Eq => NaN
        | Gt => PosInf
        | Lt => NegInf
        end
      else Fin (a / b)
  end.

(** Relational operators: every comparison with NaN is false. *)
Definition nltb (x y : number) : bool :=
  match x, y with
  | NaN, _ | _, NaN => false
  | _, NegInf => false
  | NegInf, _ => true
  | PosInf, _ => false
  | Fin _, PosInf => true
  | Fin a, Fin b => Qlt_bool a b
  end.

Definition nleb (x y : number) : bool :=
  match x, y with
  | NaN, _ | _, NaN => false
  | NegInf, _ => true
  | _, PosInf => true
  | _, NegInf => false
  | PosInf, _ => false
  | Fin a, Fin b => Qle_bool a b
  end.

Definition ngtb (x y : number) : bool := nltb y x.
Definition ngeb (x y : number) : bool := nleb y x.

(** Strict equality [===] on numbers: NaN equals nothing. *)
Definition neqb (x y : number) : bool :=
  match x, y with
  | PosInf, PosInf | NegInf, NegInf => true
  | Fin a, Fin b => Qeq_bool a b
  | _, _ => false
  end.

Notation "x + y" := (nadd x y) : num_scope.
Notation "x - y" := (nsub x y) : num_scope.
Notation "x * y" := (nmul x y) : num_scope.
Notation "x / y" := (ndiv x y) : num_scope.
Notation "- x" := (nneg x) : num_scope.
Notation "x <? y" := (nltb x y) : num_scope.
Notation "x <=? y" := (nleb x y) : num_scope.
Notation "x >? y" := (ngtb x y) (at level 70) : num_scope.
Notation "x >=? y" := (ngeb x y) (at level 70) : num_scope.

(** [ToBoolean]: a number is falsy when it is NaN or zero. *)
Definition truthy (x : number) : bool :=
  match x with
  | NaN => false
  | PosInf | NegInf => true
  | Fin q => negb (Qeq_bool q 0)
  end.

(** [a || b] on numbers. *)
Definition or_else (x y : number) : number := if truthy x then x else y.

Definition Math_abs (x : number) : number :=
  match x with
  | NaN => NaN
  | PosInf | NegInf => PosInf
  | Fin q => Fin (Qabs q)
  end.

Definition Math_min (x y : number) : number :=
  match x, y with
  | NaN, _ | _, NaN => NaN
  | _, _ => if nleb x y then x else y
  end.

(** [Math.round] rounds half-way cases towards +Infinity. *)
Definition Math_round (x : number) : number :=
  match x with
  | Fin q => of_Z (Qfloor (q + (1 # 2)))
  | _ => x
  end.

Definition is_integral (q : Q) : bool := Qeq_bool (inject_Z (Qfloor q)) q.

(** [Math.pow], following the case list of ECMAScript's
    [Number::exponentiate].  A finite base raised to a whole exponent is
    exact.  For the remaining case the language only asks for an
    implementation-approximated value, so that value is a parameter,
    [real_pow]. *)
Definition Math_pow (real_pow : Q -> Q -> Q) (base exponent : number) : number :=
  match exponent with
  | NaN => NaN
  | Fin e =>
      if Qeq_bool e 0 then Fin 1
      else
        match base with
        | NaN => NaN
        | PosInf => if Qlt_bool 0 e then PosInf else Fin 0
        | NegInf =>
            if Qlt_bool 0 e
            then (if is_integral e && Z.odd (Qfloor e) then NegInf else PosInf)
            else Fin 0
        | Fin b =>
            if Qeq_bool b 0 then (if Qlt_bool 0 e then Fin 0 else PosInf)
            else if is_integral e then Fin (Qpower b (Qfloor e))
            else if Qlt_bool b 0 then NaN
            else Fin (real_pow b e)
        end
  | PosInf =>
      match base with
      | NaN => NaN
      | PosInf | NegInf => PosInf
      | Fin b =>
          match Qabs b ?= 1 with
          | Gt => PosInf
          | Eq => NaN
          | Lt => Fin 0
          end
      end
  | NegInf =>
      match base with
      | NaN => NaN
      | PosInf | NegInf => Fin 0
      | Fin b =>
          match Qabs b ?= 1 with
          | Gt => Fin 0
          | Eq => NaN
          | Lt => PosInf
          end
      end
  end.

(** Two numbers denote the same value: the finite ones up to the
    equality of fractions. *)
Definition num_eq (x y : number) : Prop :=
  match x, y with
  | NaN, NaN | PosInf, PosInf | NegInf, NegInf => True
  | Fin a, Fin b => a == b
  | _, _ => False
  end.

Infix "=n=" := num_eq (at level 70, no associativity).

(** ** Binary64 rounding *)

(** Half a unit in the last place of 1: 2^-53. *)
Definition unit_roundoff : Q := 1 # 9007199254740992.

(** What the theorems on rounded arithmetic ask of the rounding function:
    the result is within the relative error 2^-53 of its argument. *)
Definition rounds_to_nearest (rnd : Q -> Q) : Prop :=
  forall x, Qabs (rnd x - x) <= unit_roundoff * Qabs x.

(** The nearest whole number, ties to even. *)
Definition round_half_even (x : Q) : Z :=
  let f := Qfloor x in
  match Qcompare (x - inject_Z f) (1 # 2) with
  | Lt => f
  | Gt => (f + 1)%Z
  | Eq => if Z.even f then f else (f + 1)%Z
  end.

(** The exponent [e] of the last place of [x > 0] at 53 significant bits:
    [2^52 <= x / 2^e < 2^53]. *)
Definition ulp_exponent (x : Q) : Z :=
  let e0 := (Z.log2 (Qnum x) - Z.log2 (Zpos (Qden x)) - 53)%Z in
  if Qle_bool (inject_Z (2 ^ 53)) (x / Qpower 2 e0) then (e0 + 1)%Z else e0.

(** Rounding to the nearest number of 53 significant bits, ties to even:
    the rounding of binary64 within its exponent range. *)
Definition round53 (x : Q) : Q :=
  if Qeq_bool x 0 then 0
  else
    let a := Qabs x in
    let e := ulp_exponent a in
    let m := inject_Z (round_half_even (a / Qpower 2 e)) * Qpower 2 e in
    Qred (if Qlt_bool x 0 then - m else m).

(** The value of a hardware binary64 number; [None] for NaN and the
    infinities. *)
Definition Q_of_float (f : PrimFloat.float) : option Q :=
  match FloatOps.Prim2SF f with
  | SpecFloat.S754_zero _ => Some 0
  | SpecFloat.S754_finite s m e =>
      Some (Qred ((if s then -1 else 1) * inject_Z (Z.pos m) * Qpower 2 e))
  | _ => None
  end.

(** The binary64 number nearest to a whole number. *)
Definition float_of_Z (z : Z) : PrimFloat.float :=
  FloatOps.SF2Prim
    (SpecFloat.binary_normalize FloatOps.prec FloatOps.emax z 0 false).

(** A rational operation on two doubles, carried out by the hardware and by
    [round53]. *)
Definition agree (op : PrimFloat.float -> PrimFloat.float -> PrimFloat.float)
  (exact : Q -> Q -> Q) (x y : PrimFloat.float) : bool :=
  match Q_of_float x, Q_of_float y, Q_of_float (op x y) with
  | Some a, Some b, Some c => Qeq_bool (round53 (exact a b)) c
  | _, _, _ => false
  end.

Definition samples : list PrimFloat.float :=
  let f := float_of_Z in
  let q (a b : Z) := PrimFloat.div (f a) (f b) in
  [f 1; f 3; f 10; f 100; f 23; f 160; f 1437; q 1 10; q 1 3; q 2 3;
   q 1437 100; q 7 1000; f 999999999999999999; f 1000000000000000000;
   q 1 1000000000000000000; f (-5); q (-99) 100]%Z.

Definition all_pairs (test : PrimFloat.float -> PrimFloat.float -> bool) : bool :=
  forallb (fun x => forallb (test x) samples) samples.

(** ** Calls, arrays, objects and loops *)

(** A call either returns a value or throws. *)
Inductive completion (A : Type) : Type :=
| Normal (value : A)
| Throw (error : string).

Arguments Normal {A} value.
Arguments Throw {A} error.

(** Template-literal rendering of a whole number. *)
Definition string_of_Z (z : Z) : string := NilZero.string_of_int (Z.to_int z).

Definition default {A : Type} (d : A) (arg : option A) : A :=
  match arg with
  | Some a => a
  | None => d
  end.

(** [Array.prototype.sort] with a comparison function: a stable sort that
    puts [a] before [b] when [compare a b] is negative (a NaN result counts
    as zero).  Whatever the comparison function does, the result is a
    rearrangement of the array. *)
Section ArraySort.
Context {A : Type} (compare : A -> A -> number).

Fixpoint sort_insert (x : A) (sorted : list A) : list A :=
  match sorted with
  | [] => [x]
  | y :: rest =>
      if (compare y x <? Fin 0)%num then y :: sort_insert x rest
      else x :: y :: rest
  end.

Definition Array_sort (l : list A) : list A := fold_right sort_insert [] l.

End ArraySort.

(** An object used as a [Record<string, V>] and filled by assignment: its
    own entries in the order in which their keys were first assigned, which
    is the order [Object.values] and [Object.entries] follow for keys that
    are not canonical array indices. *)
Section Objects.
Context {V : Type}.

Fixpoint obj_get (o : list (string * V)) (key : string) : option V :=
  match o with
  | [] => None
  | (k, v) :: rest => if String.eqb k key then Some v else obj_get rest key
  end.

Fixpoint obj_set (o : list (string * V)) (key : string) (v : V)
  : list (string * V) :=
  match o with
  | [] => [(key, v)]
  | (k, old) :: rest =>
      if String.eqb k key then (k, v) :: rest
      else (k, old) :: obj_set rest key v
  end.

End Objects.

(** The names a plain object inherits from [Object.prototype]: reading one
    of them from an object that has no such key of its own yields the
    inherited member, a function or an object, which is truthy and not a
    number. *)
Definition Object_prototype_names : list string := [
  "constructor"; "__defineGetter__"; "__defineSetter__"; "hasOwnProperty";
  "__lookupGetter__"; "__lookupSetter__"; "isPrototypeOf";
  "propertyIsEnumerable"; "toString"; "valueOf"; "__proto__";
  "toLocaleString"
]%string.

Definition inherited (key : string) : bool :=
  existsb (String.eqb key) Object_prototype_names.

(** A [Date] is its time value, a whole number of milliseconds of at most
    8.64e15 in size, or the Invalid Date ([None]), whose [getTime()] is
    NaN. *)
Definition Date : Type := option Z.

(** [new Date(ms)] for a whole number [ms]. *)
Definition new_Date (ms : Z) : Date :=
  if (Z.abs ms <=? 8640000000000000)%Z then Some ms else None.

(** [for (let i = 0; i < bound; i++)] runs its body once for every natural
    number below [bound].  The counter is a [number]: at 2^53 the increment
    [i++] leaves it unchanged, so with a bound above 2^53, or [Infinity],
    the loop never ends ([None]). *)
Definition iterations (bound : number) : option nat :=
  match bound with
  | PosInf => None
  | Fin d =>
      if Qlt_bool (inject_Z (2 ^ 53)) d then None
      else Some (Z.to_nat (Qceiling d))
  | NaN | NegInf => Some O
  end.

(** ** pointsUtils.ts

    A [Date] is its [getTime()], a whole number of milliseconds. *)

Module PointsUtils.

Record MultiplierTiers : Type := {
  base : number;
  bronze : number;
  silver : number;
  gold : number;
  platinum : number;
  diamond : number
}.

Definition MULTIPLIER_TIERS : MultiplierTiers := {|
  base := Fin 1.0;
  bronze := Fin 1.25;
  silver := Fin 1.5;
  gold := Fin 2.0;
  platinum := Fin 3.0;
  diamond := Fin 5.0
|}.

Record Threshold : Type := {
  t_tier : string;
  t_sats : number;
  t_multiplier : number
}.

Record TierInfo : Type := {
  tier : string;
  multiplier : number;
  nextTier : option string;
  satsToNextTier : option number
}.

Definition thresholds : list Threshold := [
  {| t_tier := "diamond"; t_sats := Fin 1000000; t_multiplier := diamond MULTIPLIER_TIERS |};
  {| t_tier := "platinum"; t_sats := Fin 500000; t_multiplier := platinum MULTIPLIER_TIERS |};
  {| t_tier := "gold"; t_sats := Fin 100000; t_multiplier := gold MULTIPLIER_TIERS |};
  {| t_tier := "silver"; t_sats := Fin 25000; t_multiplier := silver MULTIPLIER_TIERS |};
  {| t_tier := "bronze"; t_sats := Fin 5000; t_multiplier := bronze MULTIPLIER_TIERS |};
  {| t_tier := "base"; t_sats := Fin 0; t_multiplier := base MULTIPLIER_TIERS |}
].

(** The loop over [thresholds]: [previous] is [thresholds[i - 1]], absent
    when [i = 0]; [rest] is [thresholds[i..]]. *)
Fixpoint tier_search (totalSats : number) (previous : option Threshold)
  (rest : list Threshold) : TierInfo :=
  match rest with
  | [] => {| tier := "base"; multiplier := Fin 1;
             nextTier := None; satsToNextTier := None |}
  | entry :: rest' =>
      if (totalSats >=? t_sats entry)%num then
        {| tier := t_tier entry;
           multiplier := t_multiplier entry;
           nextTier := option_map t_tier previous;
           satsToNextTier :=
             option_map (fun up => (t_sats up - totalSats)%num) previous |}
      else tier_search totalSats (Some entry) rest'
  end.

Definition getMultiplierTier (totalSats : number) : TierInfo :=
  tier_search totalSats None thresholds.

Definition calculatePercentile (userSats : number) (allUserSats : list number)
  : completion number :=
  let sorted := Array_sort (fun a b => (a - b)%num) allUserSats in
  let rank := List.length (filter (fun s => (s <? userSats)%num) sorted) in
  Normal ((of_nat rank / of_nat (List.length sorted)) * Fin 100)%num.

Record Projection : Type := {
  projectedSats : number;
  projectedTier : string;
  projectedMultiplier : number
}.

(** Strip the blanks at both ends of a string. *)
Fixpoint trim_start (s : string) : string :=
  match s with
  | String " " s' => trim_start s'
  | _ => s
  end.

Fixpoint trim_end (s : string) : string :=
  match s with
  | EmptyString => EmptyString
  | String c s' =>
      match c, trim_end s' with
      | " "%char, EmptyString => EmptyString
      | _, t => String c t
      end
  end.

Definition trim (s : string) : string := trim_end (trim_start s).

Record SeasonTime : Type := {
  days : Z;
  hours : Z;
  minutes : Z;
  formatted : string
}.

(** [Date_now] is the clock reading, in milliseconds, at the moment of the
    call; [endDate] is the end date's [getTime()]. *)
Definition getSeasonTimeRemaining (Date_now : Z) (endDate : Z) : SeasonTime :=
  let now := Date_now in
  let diff := (endDate - now)%Z in
  if (diff <=? 0)%Z then
    {| days := 0; hours := 0; minutes := 0; formatted := "Season Ended" |}
  else
    let d := (diff / (1000 * 60 * 60 * 24))%Z in
    let h := (Z.rem diff (1000 * 60 * 60 * 24) / (1000 * 60 * 60))%Z in
    let m := (Z.rem diff (1000 * 60 * 60) / (1000 * 60))%Z in
    let f0 := EmptyString in
    let f1 := if (d >? 0)%Z then (f0 ++ string_of_Z d ++ "d ")%string else f0 in
    let f2 := if ((h >? 0)%Z || (d >? 0)%Z)%bool
              then (f1 ++ string_of_Z h ++ "h ")%string else f1 in
    let f3 := (f2 ++ string_of_Z m ++ "m")%string in
    {| days := d; hours := h; minutes := m; formatted := trim f3 |}.

Inductive SatsActivity : Type :=
| HOLD_USDE
| STAKE_SUSDE
| PROVIDE_LIQUIDITY
| REFERRAL
| EARLY_ADOPTER
| DEFI_INTEGRATION
| GOVERNANCE
| SPECIAL_EVENT.

Definition BASE_EARNING_RATES (activity : SatsActivity) : number :=
  match activity with
  | HOLD_USDE => Fin 10
  | STAKE_SUSDE => Fin 20
  | PROVIDE_LIQUIDITY => Fin 30
  | REFERRAL => Fin 5
  | EARLY_ADOPTER => Fin 15
  | DEFI_INTEGRATION => Fin 25
  | GOVERNANCE => Fin 10
  | SPECIAL_EVENT => Fin 50
  end.

Record Activity : Type := {
  a_type : SatsActivity;
  a_amount : number;
  a_multiplier : option number
}.

Definition calculateDailyEarnings (activities : list Activity) : number :=
  fold_left
    (fun totalSats activity =>
       let baseRate := or_else (BASE_EARNING_RATES (a_type activity)) (Fin 0) in
       let multiplier :=
         match a_multiplier activity with
         | Some m => or_else m (Fin 1)
         | None => Fin 1
         end in
       let sats := (a_amount activity / Fin 1000 * baseRate * multiplier)%num in
       (totalSats + sats)%num)
    activities (Fin 0).

Definition calculateHoldingSats (usdeBalance days : number)
  (multiplier : option number) : number :=
  let multiplier := default (Fin 1) multiplier in
  let dailyRate := BASE_EARNING_RATES HOLD_USDE in
  (usdeBalance / Fin 1000 * dailyRate * days * multiplier)%num.

End PointsUtils.

(** ** cooldownUtils.ts

    Unix timestamps and durations are whole seconds, and the locked amount
    is a [bigint]: all of them are integers here.  Only [progress] is
    fractional.  A function that reads the clock takes the reading,
    [Date.now()] in milliseconds, as its first argument [Date_now]. *)

Module CooldownUtils.

Record CooldownStatus : Type := {
  isActive : bool;
  startTime : Z;
  endTime : Z;
  amount : Z;
  canWithdraw : bool;
  remainingSeconds : Z;
  remainingFormatted : string;
  progress : number
}.

(** [parts.join(' ')]. *)
Definition join_blank (parts : list string) : string := String.concat " " parts.

Definition formatDuration (seconds : Z) : string :=
  if (seconds <=? 0)%Z then "Ready"
  else
    let days := (seconds / 86400)%Z in
    let hours := (Z.rem seconds 86400 / 3600)%Z in
    let minutes := (Z.rem seconds 3600 / 60)%Z in
    let secs := Z.rem seconds 60 in
    let parts :=
      ((if (days >? 0)%Z then [(string_of_Z days ++ "d")%string] else []) ++
       (if (hours >? 0)%Z then [(string_of_Z hours ++ "h")%string] else []) ++
       (if (minutes >? 0)%Z then [(string_of_Z minutes ++ "m")%string] else []) ++
       (if ((secs >? 0)%Z && (days =? 0)%Z)%bool
        then [(string_of_Z secs ++ "s")%string] else []))%list in
    let joined := join_blank parts in
    if String.eqb joined EmptyString then "0s" else joined.

(** [currentTimestamp || Math.floor(Date.now() / 1000)]: an omitted
    timestamp, and also the timestamp 0, reads the clock. *)
Definition current_time (Date_now : Z) (currentTimestamp : option Z) : Z :=
  match currentTimestamp with
  | Some t => if (t =? 0)%Z then (Date_now / 1000)%Z else t
  | None => (Date_now / 1000)%Z
  end.

Definition calculateCooldownStatus (Date_now : Z)
  (cooldownStart cooldownEnd : Z) (cooldownAmount : Z)
  (currentTimestamp : option Z) : CooldownStatus :=
  let now := current_time Date_now currentTimestamp in
  let isActive := ((cooldownStart >? 0)%Z && (cooldownAmount >? 0)%Z)%bool in
  let canWithdraw := (isActive && (now >=? cooldownEnd)%Z)%bool in
  let remainingSeconds := Z.max 0 (cooldownEnd - now) in
  let totalDuration := (cooldownEnd - cooldownStart)%Z in
  let elapsed := (now - cooldownStart)%Z in
  let progress :=
    if (totalDuration >? 0)%Z
    then Math_min (Fin 100) ((of_Z elapsed / of_Z totalDuration) * Fin 100)%num
    else Fin 0 in
  {| isActive := isActive;
     startTime := cooldownStart;
     endTime := cooldownEnd;
     amount := cooldownAmount;
     canWithdraw := canWithdraw;
     remainingSeconds := remainingSeconds;
     remainingFormatted := formatDuration remainingSeconds;
     progress := (Math_round (progress * Fin 100) / Fin 100)%num |}.

Definition isCooldownComplete (Date_now : Z) (cooldownEnd : Z)
  (currentTimestamp : option Z) : bool :=
  let now := current_time Date_now currentTimestamp in
  (now >=? cooldownEnd)%Z.

Definition DEFAULT_COOLDOWN_DURATION : Z := 7 * 24 * 60 * 60.

Definition calculateCooldownEndDate (startTimestamp : Z)
  (durationSeconds : option Z) : Date :=
  let durationSeconds :=
    default DEFAULT_COOLDOWN_DURATION durationSeconds in
  new_Date ((startTimestamp + durationSeconds) * 1000).

Definition calculateOptimalCooldownStart (targetWithdrawDate : Date)
  (cooldownDuration : option Z) : Date :=
  let cooldownDuration :=
    default DEFAULT_COOLDOWN_DURATION cooldownDuration in
  match targetWithdrawDate with
  | None => None
  | Some getTime =>
      let targetTimestamp := (getTime / 1000)%Z in
      let startTimestamp := (targetTimestamp - cooldownDuration)%Z in
      new_Date (startTimestamp * 1000)
  end.

Record Validation : Type := {
  isValid : bool;
  error : option string;
  maxAmount : Z
}.

Definition validateCooldownAmount
  (requestedAmount availableBalance existingCooldownAmount : Z) : Validation :=
  let availableForCooldown := (availableBalance - existingCooldownAmount)%Z in
  if (requestedAmount <=? 0)%Z then
    {| isValid := false;
       error := Some "Amount must be greater than 0"%string;
       maxAmount := availableForCooldown |}
  else if (requestedAmount >? availableForCooldown)%Z then
    {| isValid := false;
       error := Some ("Insufficient balance. Maximum available: "
                      ++ string_of_Z availableForCooldown)%string;
       maxAmount := availableForCooldown |}
  else
    {| isValid := true;
       error := None;
       maxAmount := availableForCooldown |}.

End CooldownUtils.

(** ** yieldUtils.ts

    The functions that call [Math.pow] take the approximation [real_pow]
    that [Math_pow] is built on. *)

Module YieldUtils.

Record Earnings : Type := {
  finalAmount : number;
  earnings : number;
  dailyEarnings : number
}.

Section Pow.
Variable real_pow : Q -> Q -> Q.

Definition aprToApy (apr : number) (compoundingPeriods : option number) : number :=
  let compoundingPeriods := default (Fin 365) compoundingPeriods in
  (Math_pow real_pow (Fin 1 + apr / compoundingPeriods) compoundingPeriods
   - Fin 1)%num.

(** The body holds no [throw]: every call returns its record. *)
Definition calculateEarnings (principal apy days : number)
  (compounding : option bool) : completion Earnings :=
  let finalAmount :=
    if default true compounding then
      let dailyRate :=
        (Math_pow real_pow (Fin 1 + apy) (Fin 1 / Fin 365) - Fin 1)%num in
      (principal * Math_pow real_pow (Fin 1 + dailyRate) days)%num
    else
      let dailyRate := (apy / Fin 365)%num in
      (principal * (Fin 1 + dailyRate * days))%num in
  let earnings := (finalAmount - principal)%num in
  let dailyEarnings := (earnings / days)%num in
  Normal {| finalAmount := finalAmount;
            earnings := earnings;
            dailyEarnings := dailyEarnings |}.

Definition calculateRateBasedApy (startRate endRate periodDays : number)
  : number :=
  if (neqb startRate (Fin 0) || neqb periodDays (Fin 0))%bool then Fin 0
  else
    let periodReturn := ((endRate - startRate) / startRate)%num in
    let dailyReturn := (periodReturn / periodDays)%num in
    aprToApy (dailyReturn * Fin 365)%num None.

Record Period : Type := {
  period_days : number;
  period_apy : number
}.

Definition projectFutureValue (principal : number)
  (projectedYields : list Period) : number :=
  fold_left
    (fun currentValue period =>
       let dailyRate :=
         (Math_pow real_pow (Fin 1 + period_apy period) (Fin 1 / Fin 365)
          - Fin 1)%num in
       (currentValue * Math_pow real_pow (Fin 1 + dailyRate) (period_days period))%num)
    projectedYields principal.

End Pow.

Record YieldSource : Type := {
  source_name : string;
  source_apy : number;
  source_weight : number
}.

Record YieldPoint : Type := {
  timestamp : number;
  yield : number
}.

End YieldUtils.

(** ** deltaUtils.ts

    The delta-neutral utilities, which the tests import as
    [utils/deltaUtils]; their text is in [EthenaTrigger.node.ts]. *)

Module DeltaUtils.

Definition calculateLiquidationPrice (entryPrice leverage : number)
  (isShort : bool) (maintenanceMargin : option number) : number :=
  let maintenanceMargin := default (Fin 0.005) maintenanceMargin in
  let marginRatio := (Fin 1 / leverage)%num in
  if isShort then
    (entryPrice * (Fin 1 + marginRatio - maintenanceMargin))%num
  else
    (entryPrice * (Fin 1 - marginRatio + maintenanceMargin))%num.

Record Position : Type := {
  exchange : string;
  value : number
}.

Definition isDeltaNeutral (delta : number) (tolerance : option number) : bool :=
  let tolerance := default (Fin 0.01) tolerance in
  (Math_abs delta <=? tolerance)%num.

Inductive RebalanceAction : Type :=
| increase_short
| decrease_short
| none.

Record Rebalance : Type := {
  action : RebalanceAction;
  amount : number;
  newPerpValue : number
}.

Definition calculateRebalanceAmount (spotValue perpValue : number)
  (targetDelta : option number) : Rebalance :=
  let targetDelta := default (Fin 0) targetDelta in
  let targetPerpValue := (spotValue * (targetDelta - Fin 1))%num in
  let rebalanceAmount := (targetPerpValue - perpValue)%num in
  if (Math_abs rebalanceAmount <? spotValue * Fin 0.001)%num then
    {| action := none; amount := Fin 0; newPerpValue := perpValue |}
  else
    {| action := if (rebalanceAmount <? Fin 0)%num
                 then increase_short else decrease_short;
       amount := Math_abs rebalanceAmount;
       newPerpValue := targetPerpValue |}.

Record Pnl : Type := {
  pnl : number;
  pnlPercent : number
}.

Definition estimateSlippage (size liquidity : number)
  (baseSlippage : option number) : number :=
  let baseSlippage := default (Fin 0.001) baseSlippage in
  if neqb liquidity (Fin 0) then Fin 1
  else
    let impact := (size / liquidity * Fin 0.1)%num in
    (baseSlippage + impact)%num.

Record ExchangeInfo : Type := {
  id : string;
  liquidity : number;
  fundingRate : number;
  maxPosition : number
}.

Record Allocation : Type := {
  allocation_exchange : string;
  allocation : number;
  allocation_percent : number
}.

(** The loop of [calculateOptimalAllocation]; the allocations are
    returned in the order in which they are pushed. *)
Fixpoint allocate (totalSize totalLiquidity : number)
  (exchanges : list ExchangeInfo) (remaining : number) : list Allocation :=
  match exchanges with
  | [] => []
  | exchange :: rest =>
      let optimalAlloc := (liquidity exchange / totalLiquidity * totalSize)%num in
      let allocation :=
        Math_min (Math_min optimalAlloc (maxPosition exchange)) remaining in
      let remaining := (remaining - allocation)%num in
      {| allocation_exchange := id exchange;
         allocation := allocation;
         allocation_percent := (allocation / totalSize * Fin 100)%num |}
      :: allocate totalSize totalLiquidity rest remaining
  end.

Definition calculateOptimalAllocation (totalSize : number)
  (exchanges : list ExchangeInfo) : list Allocation :=
  let totalLiquidity :=
    fold_left (fun sum e => (sum + liquidity e)%num) exchanges (Fin 0) in
  allocate totalSize totalLiquidity exchanges totalSize.

Record RebalanceAdvice : Type := {
  shouldRebalance : bool;
  reason : string
}.

(** [toFixed] is [Number.prototype.toFixed], which the reason quotes the
    delta with. *)
Definition needsRebalance (toFixed : number -> nat -> string)
  (currentDelta : number) (rebalanceThreshold : option number)
  (timeSinceLastRebalance : option number)
  (maxRebalanceInterval : option number) : RebalanceAdvice :=
  let rebalanceThreshold := default (Fin 0.02) rebalanceThreshold in
  let maxRebalanceInterval := default (Fin 86400) maxRebalanceInterval in
  if (Math_abs currentDelta >? rebalanceThreshold)%num then
    {| shouldRebalance := true;
       reason := ("Delta exposure " ++ toFixed (currentDelta * Fin 100)%num 2%nat
                  ++ "% exceeds threshold")%string |}
  else if
    match timeSinceLastRebalance with
    | Some t => (truthy t && (t >? maxRebalanceInterval)%num)%bool
    | None => false
    end
  then
    {| shouldRebalance := true;
       reason := "Maximum time since last rebalance exceeded" |}
  else
    {| shouldRebalance := false;
       reason := "Position within acceptable parameters" |}.

Definition calculateFundingPayment (positionSize fundingRate : number)
  (isShort : bool) : number :=
  if isShort then (positionSize * fundingRate)%num
  else (- positionSize * fundingRate)%num.

Inductive Side : Type :=
| long
| short.

Record OpenPosition : Type := {
  pos_exchange : string;
  pos_symbol : string;
  pos_size : number;
  pos_side : Side;
  pos_entryPrice : number;
  pos_currentPrice : number;
  pos_leverage : number
}.

Record Aggregate : Type := {
  totalLong : number;
  totalShort : number;
  netPosition : number;
  weightedEntryPrice : number;
  aggregatePnl : number
}.

(** The five running sums of [aggregatePositions]. *)
Record Totals : Type := {
  sum_long : number;
  sum_short : number;
  sum_weightedEntry : number;
  sum_size : number;
  sum_pnl : number
}.

End DeltaUtils.

(** ** The functions under binary64 rounding

    The same functions with every arithmetic result rounded: [x [+] y] is
    the rounded sum, and so on.  Comparisons, [Math.abs], [Math.min],
    [Math.round] and negation are exact in binary64 and are shared with
    the exact reading, as are the records the functions return. *)

Module Rounded.

Section Arithmetic.
Variable rnd : Q -> Q.

(** A result as binary64 stores it. *)
Definition round (x : number) : number :=
  match x with
  | Fin q => Fin (rnd q)
  | _ => x
  end.

Definition add (x y : number) : number := round (x + y)%num.
Definition sub (x y : number) : number := round (x - y)%num.
Definition mul (x y : number) : number := round (x * y)%num.
Definition div (x y : number) : number := round (x / y)%num.

(** [Number(b)] for a [bigint]: the nearest double, and an infinity from
    2^1024 - 2^970 on, the midpoint above the largest double. *)
Definition Number_of_bigint (b : Z) : number :=
  if (2 ^ 1024 - 2 ^ 970 <=? Z.abs b)%Z then inf_of (b <? 0)%Z
  else Fin (rnd (inject_Z b)).

End Arithmetic.

(** [Math.pow], following the case list of ECMAScript's
    [Number::exponentiate].  Where both operands are finite and non-zero
    the language asks for an implementation-approximated value: that value
    is [pow base exponent], whole exponents included. *)
Definition Math_pow (pow : Q -> Q -> Q) (base exponent : number) : number :=
  match exponent with
  | NaN => NaN
  | Fin e =>
      if Qeq_bool e 0 then Fin 1
      else
        match base with
        | NaN => NaN
        | PosInf => if Qlt_bool 0 e then PosInf else Fin 0
        | NegInf =>
            if Qlt_bool 0 e
            then (if is_integral e && Z.odd (Qfloor e) then NegInf else PosInf)
            else Fin 0
        | Fin b =>
            if Qeq_bool b 0 then (if Qlt_bool 0 e then Fin 0 else PosInf)
            else if Qlt_bool b 0 && negb (is_integral e) then NaN
            else Fin (pow b e)
        end
  | PosInf =>
      match base with
      | NaN => NaN
      | PosInf | NegInf => PosInf
      | Fin b =>
          match Qabs b ?= 1 with
          | Gt => PosInf
          | Eq => NaN
          | Lt => Fin 0
          end
      end
  | NegInf =>
      match base with
      | NaN => NaN
      | PosInf | NegInf => Fin 0
      | Fin b =>
          match Qabs b ?= 1 with
          | Gt => Fin 0
          | Eq => NaN
          | Lt => PosInf
          end
      end
  end.

Module PointsUtils.
Section Rounding.
Variable rnd : Q -> Q.
Local Notation "x [+] y" := (add rnd x y) (at level 50, left associativity).
Local Notation "x [-] y" := (sub rnd x y) (at level 50, left associativity).
Local Notation "x [*] y" := (mul rnd x y) (at level 40, left associativity).
Local Notation "x [/] y" := (div rnd x y) (at level 40, left associativity).

(** The body of the compounding loop, run [n] times. *)
Fixpoint compound (dailyEarningRate : number) (n : nat) (sats : number) : number :=
  match n with
  | O => sats
  | S n' =>
      compound dailyEarningRate n'
        (sats [+] dailyEarningRate
                  [*] PointsUtils.multiplier (PointsUtils.getMultiplierTier sats))
  end.

(** [None] when the loop does not terminate. *)
Definition projectSatsEarnings (currentBalance dailyEarningRate days : number)
  (includeCompounding : option bool) : option PointsUtils.Projection :=
  let finish (sats : number) :=
    let tierInfo := PointsUtils.getMultiplierTier sats in
    {| PointsUtils.projectedSats := sats;
       PointsUtils.projectedTier := PointsUtils.tier tierInfo;
       PointsUtils.projectedMultiplier := PointsUtils.multiplier tierInfo |} in
  if default false includeCompounding then
    option_map (fun n => finish (compound dailyEarningRate n currentBalance))
      (iterations days)
  else Some (finish (currentBalance [+] dailyEarningRate [*] days)).

Definition estimateEnaRewards (userSats totalSeasonSats rewardsPool : number)
  : number :=
  if neqb totalSeasonSats (Fin 0) then Fin 0
  else mul rnd (div rnd userSats totalSeasonSats) rewardsPool.

End Rounding.
End PointsUtils.

Module CooldownUtils.

(** An element of the array handed to [batchCooldownStatus]. *)
Record Cooldown : Type := {
  cooldown_user : string;
  cooldown_startTime : Z;
  cooldown_endTime : Z;
  cooldown_amount : Z
}.

Section Rounding.
Variable rnd : Q -> Q.
Local Notation "x [+] y" := (add rnd x y) (at level 50, left associativity).
Local Notation "x [-] y" := (sub rnd x y) (at level 50, left associativity).
Local Notation "x [*] y" := (mul rnd x y) (at level 40, left associativity).
Local Notation "x [/] y" := (div rnd x y) (at level 40, left associativity).

Definition calculateCooldownStatus (Date_now : Z)
  (cooldownStart cooldownEnd : Z) (cooldownAmount : Z)
  (currentTimestamp : option Z) : CooldownUtils.CooldownStatus :=
  let now := CooldownUtils.current_time Date_now currentTimestamp in
  let isActive := ((cooldownStart >? 0)%Z && (cooldownAmount >? 0)%Z)%bool in
  let canWithdraw := (isActive && (now >=? cooldownEnd)%Z)%bool in
  let remainingSeconds := Z.max 0 (cooldownEnd - now) in
  let totalDuration := (cooldownEnd - cooldownStart)%Z in
  let elapsed := (now - cooldownStart)%Z in
  let progress :=
    if (totalDuration >? 0)%Z
    then Math_min (Fin 100) (of_Z elapsed [/] of_Z totalDuration [*] Fin 100)
    else Fin 0 in
  {| CooldownUtils.isActive := isActive;
     CooldownUtils.startTime := cooldownStart;
     CooldownUtils.endTime := cooldownEnd;
     CooldownUtils.amount := cooldownAmount;
     CooldownUtils.canWithdraw := canWithdraw;
     CooldownUtils.remainingSeconds := remainingSeconds;
     CooldownUtils.remainingFormatted := CooldownUtils.formatDuration remainingSeconds;
     CooldownUtils.progress := Math_round (progress [*] Fin 100) [/] Fin 100 |}.

(** Every element of the batch reads the clock for itself: [Date_now i] is
    the reading taken by the call for element [i].  [results.set] on a
    [Map] keeps the place of a key that is already there. *)
Fixpoint batch_loop (Date_now : nat -> Z) (i : nat) (cooldowns : list Cooldown)
  (results : list (string * CooldownUtils.CooldownStatus))
  : list (string * CooldownUtils.CooldownStatus) :=
  match cooldowns with
  | [] => results
  | cooldown :: rest =>
      batch_loop Date_now (S i) rest
        (obj_set results (cooldown_user cooldown)
           (calculateCooldownStatus (Date_now i)
              (cooldown_startTime cooldown) (cooldown_endTime cooldown)
              (cooldown_amount cooldown) None))
  end.

Definition batchCooldownStatus (Date_now : nat -> Z) (cooldowns : list Cooldown)
  : list (string * CooldownUtils.CooldownStatus) :=
  batch_loop Date_now 0 cooldowns [].

End Rounding.
End CooldownUtils.

Module YieldUtils.
Section Rounding.
Variable rnd : Q -> Q.
Variable pow : Q -> Q -> Q.
Local Notation "x [+] y" := (add rnd x y) (at level 50, left associativity).
Local Notation "x [-] y" := (sub rnd x y) (at level 50, left associativity).
Local Notation "x [*] y" := (mul rnd x y) (at level 40, left associativity).
Local Notation "x [/] y" := (div rnd x y) (at level 40, left associativity).

Definition aprToApy (apr : number) (compoundingPeriods : option number) : number :=
  let compoundingPeriods := default (Fin 365) compoundingPeriods in
  Math_pow pow (Fin 1 [+] apr [/] compoundingPeriods) compoundingPeriods [-] Fin 1.

Definition apyToApr (apy : number) (compoundingPeriods : option number) : number :=
  let compoundingPeriods := default (Fin 365) compoundingPeriods in
  compoundingPeriods
  [*] (Math_pow pow (Fin 1 [+] apy) (Fin 1 [/] compoundingPeriods) [-] Fin 1).

(** [Number(totalAssets) / Number(totalSupply)] on [bigint]s. *)
Definition calculateExchangeRate (totalAssets totalSupply : Z) : number :=
  if (totalSupply =? 0)%Z then Fin 1
  else div rnd (Number_of_bigint rnd totalAssets) (Number_of_bigint rnd totalSupply).

Definition calculateBlendedYield (sources : list YieldUtils.YieldSource) : number :=
  fold_left
    (fun total source =>
       add rnd total
         (mul rnd (YieldUtils.source_apy source)
            (YieldUtils.source_weight source)))
    sources (Fin 0).

Definition calculateNetYield (grossYield feeRate : number) : number :=
  grossYield [*] (Fin 1 [-] feeRate).

(** The loop of [calculateTWAY] from index [i] on: [previous] is
    [yieldHistory[i - 1]] and [rest] is [yieldHistory[i..]]. *)
Fixpoint tway_loop (previous : YieldUtils.YieldPoint) (rest : list YieldUtils.YieldPoint)
  (totalWeightedYield totalTime : number) : number * number :=
  match rest with
  | [] => (totalWeightedYield, totalTime)
  | current :: rest' =>
      let timeDiff := YieldUtils.timestamp current [-] YieldUtils.timestamp previous in
      let avgYield := (YieldUtils.yield current [+] YieldUtils.yield previous) [/] Fin 2 in
      tway_loop current rest'
        (totalWeightedYield [+] avgYield [*] timeDiff)
        (totalTime [+] timeDiff)
  end.

Definition calculateTWAY (yieldHistory : list YieldUtils.YieldPoint) : number :=
  match yieldHistory with
  | [] => Fin 0
  | [only] => YieldUtils.yield only
  | first :: rest =>
      let (totalWeightedYield, totalTime) := tway_loop first rest (Fin 0) (Fin 0) in
      if (totalTime >? Fin 0)%num then totalWeightedYield [/] totalTime
      else Fin 0
  end.

End Rounding.
End YieldUtils.

Module DeltaUtils.

(** What a property of [distribution] holds: a number, or, once a member
    inherited from [Object.prototype] has been read and added to, a text
    that does not read as a number. *)
Inductive Entry : Type :=
| Num (n : number)
| Text.

(** The entry where a number is expected. *)
Definition entry_number (v : Entry) : number :=
  match v with
  | Num n => n
  | Text => NaN
  end.

Definition Distribution : Type := list (string * Entry).

Record Exposure : Type := {
  largest_exchange : string;
  percent : Entry
}.

Record CounterpartyRisk : Type := {
  distribution : Distribution;
  concentration : number;
  largestExposure : Exposure
}.

Section Rounding.
Variable rnd : Q -> Q.
Variable pow : Q -> Q -> Q.
Local Notation "x [+] y" := (add rnd x y) (at level 50, left associativity).
Local Notation "x [-] y" := (sub rnd x y) (at level 50, left associativity).
Local Notation "x [*] y" := (mul rnd x y) (at level 40, left associativity).
Local Notation "x [/] y" := (div rnd x y) (at level 40, left associativity).

(** [(distribution[pos.exchange] || 0) + percent]: an inherited member is
    truthy, and adding a number to it concatenates texts. *)
Definition add_percent (distribution : Distribution) (key : string)
  (percent : number) : Entry :=
  match obj_get distribution key with
  | Some (Num v) => Num (or_else v (Fin 0) [+] percent)
  | Some Text => Text
  | None => if inherited key then Text else Num (Fin 0 [+] percent)
  end.

(** [distribution[key] = v]: assigning a text to [__proto__] changes
    nothing. *)
Definition assign_key (distribution : Distribution) (key : string) (v : Entry)
  : Distribution :=
  if String.eqb key "__proto__" then distribution
  else obj_set distribution key v.

Definition calculateCounterpartyRisk (positions : list DeltaUtils.Position)
  : CounterpartyRisk :=
  let total :=
    fold_left (fun sum p => sum [+] Math_abs (DeltaUtils.value p))
      positions (Fin 0) in
  let distribution :=
    fold_left
      (fun (distribution : Distribution) pos =>
         let percent :=
           if (total >? Fin 0)%num
           then Math_abs (DeltaUtils.value pos) [/] total [*] Fin 100
           else Fin 0 in
         assign_key distribution (DeltaUtils.exchange pos)
           (add_percent distribution (DeltaUtils.exchange pos) percent))
      positions [] in
  let concentration :=
    fold_left
      (fun sum p =>
         sum [+] Math_pow pow (entry_number p [/] Fin 100) (Fin 2))
      (map snd distribution) (Fin 0) in
  let largestExchange :=
    hd_error
      (Array_sort
         (fun a b => entry_number (snd b) [-] entry_number (snd a))
         distribution) in
  {| distribution := distribution;
     concentration := concentration;
     largestExposure :=
       {| largest_exchange :=
            match largestExchange with
            | Some (k, _) => k
            | None => EmptyString
            end;
          percent :=
            match largestExchange with
            | Some (_, Num v) => Num (or_else v (Fin 0))
            | Some (_, Text) => Text
            | None => Num (Fin 0)
            end |} |}.

Definition calculateDelta (spotValue perpValue : number) : number :=
  if neqb spotValue (Fin 0) then Fin 0
  else (spotValue [+] perpValue) [/] spotValue.

Definition calculateHedgeRatio (shortPosition spotPosition : number) : number :=
  if neqb spotPosition (Fin 0) then Fin 0
  else shortPosition [/] spotPosition.

Definition calculatePositionPnl (entryPrice currentPrice size : number)
  (isShort : bool) : DeltaUtils.Pnl :=
  let priceDiff := currentPrice [-] entryPrice in
  let pnl := if isShort then (- priceDiff)%num [*] size
             else priceDiff [*] size in
  let pnlPercent := pnl [/] (entryPrice [*] size) [*] Fin 100 in
  {| DeltaUtils.pnl := pnl; DeltaUtils.pnlPercent := pnlPercent |}.

Definition aggregate_step (acc : DeltaUtils.Totals)
  (pos : DeltaUtils.OpenPosition) : DeltaUtils.Totals :=
  let value := DeltaUtils.pos_size pos [*] DeltaUtils.pos_currentPrice pos in
  let pnl :=
    calculatePositionPnl (DeltaUtils.pos_entryPrice pos)
      (DeltaUtils.pos_currentPrice pos) (DeltaUtils.pos_size pos)
      (match DeltaUtils.pos_side pos with
       | DeltaUtils.short => true
       | DeltaUtils.long => false
       end) in
  {| DeltaUtils.sum_long :=
       match DeltaUtils.pos_side pos with
       | DeltaUtils.long => DeltaUtils.sum_long acc [+] value
       | DeltaUtils.short => DeltaUtils.sum_long acc
       end;
     DeltaUtils.sum_short :=
       match DeltaUtils.pos_side pos with
       | DeltaUtils.long => DeltaUtils.sum_short acc
       | DeltaUtils.short => DeltaUtils.sum_short acc [+] value
       end;
     DeltaUtils.sum_weightedEntry :=
       DeltaUtils.sum_weightedEntry acc
       [+] DeltaUtils.pos_entryPrice pos [*] DeltaUtils.pos_size pos;
     DeltaUtils.sum_size := DeltaUtils.sum_size acc [+] DeltaUtils.pos_size pos;
     DeltaUtils.sum_pnl := DeltaUtils.sum_pnl acc [+] DeltaUtils.pnl pnl |}.

Definition aggregatePositions (positions : list DeltaUtils.OpenPosition)
  : DeltaUtils.Aggregate :=
  let acc :=
    fold_left aggregate_step positions
      {| DeltaUtils.sum_long := Fin 0; DeltaUtils.sum_short := Fin 0;
         DeltaUtils.sum_weightedEntry := Fin 0; DeltaUtils.sum_size := Fin 0;
         DeltaUtils.sum_pnl := Fin 0 |} in
  {| DeltaUtils.totalLong := DeltaUtils.sum_long acc;
     DeltaUtils.totalShort := DeltaUtils.sum_short acc;
     DeltaUtils.netPosition := DeltaUtils.sum_long acc [-] DeltaUtils.sum_short acc;
     DeltaUtils.weightedEntryPrice :=
       if (DeltaUtils.sum_size acc >? Fin 0)%num
       then DeltaUtils.sum_weightedEntry acc [/] DeltaUtils.sum_size acc
       else Fin 0;
     DeltaUtils.aggregatePnl := DeltaUtils.sum_pnl acc |}.

End Rounding.
End DeltaUtils.

End Rounded.

(** * Notions of the specification

    The words of the specification, written down independently of the
    code, and the finite-value view of the computations that the proofs
    work on. *)

(** ** Tier table *)

(** The table in the order and with the figures of the specification:
    tier, threshold, multiplier, highest tier first. *)
Definition spec_tier_table : list (string * Q * Q) := [
  ("diamond"%string, 1000000, 5.0);
  ("platinum"%string, 500000, 3.0);
  ("gold"%string, 100000, 2.0);
  ("silver"%string, 25000, 1.5);
  ("bronze"%string, 5000, 1.25);
  ("base"%string, 0, 1.0)
].

(** The first entry whose threshold the balance meets or exceeds. *)
Definition first_met (totalSats : number) : option (string * Q * Q) :=
  find (fun entry => (totalSats >=? Fin (snd (fst entry)))%num) spec_tier_table.

(** The tier one rank up; none above diamond. *)
Definition one_rank_up (name : string) : option string :=
  if String.eqb name "base" then Some "bronze"%string
  else if String.eqb name "bronze" then Some "silver"%string
  else if String.eqb name "silver" then Some "gold"%string
  else if String.eqb name "gold" then Some "platinum"%string
  else if String.eqb name "platinum" then Some "diamond"%string
  else None.

(** The threshold the table gives for a tier. *)
Definition spec_threshold (name : string) : Q :=
  match find (fun entry => String.eqb (fst (fst entry)) name) spec_tier_table with
  | Some (_, threshold, _) => threshold
  | None => 0
  end.

(** What the specification promises of the record [r] returned for the
    balance [totalSats]. *)
Definition tier_lookup_spec (totalSats : number) (r : PointsUtils.TierInfo) : Prop :=
  exists name threshold mult,
    first_met totalSats = Some (name, threshold, mult) /\
    PointsUtils.tier r = name /\
    PointsUtils.multiplier r = Fin mult /\
    PointsUtils.nextTier r = one_rank_up name /\
    PointsUtils.satsToNextTier r =
      option_map (fun up => (Fin (spec_threshold up) - totalSats)%num)
        (one_rank_up name) /\
    (PointsUtils.nextTier r = None <-> name = "diamond"%string) /\
    (PointsUtils.satsToNextTier r = None <-> name = "diamond"%string).

(** ** Percentile *)

(** How many entries of the population lie strictly below [v]; an entry
    equal to [v] is not counted. *)
Definition strictly_below (v : number) (population : list number) : nat :=
  List.length (filter (fun s => (s <? v)%num) population).

(** ** Liquidation price *)

(** The distance between the liquidation price and the entry price. *)
Definition liquidation_distance (entryPrice leverage : number) (isShort : bool)
  (maintenanceMargin : option number) : number :=
  Math_abs (DeltaUtils.calculateLiquidationPrice entryPrice leverage isShort
              maintenanceMargin - entryPrice)%num.

(** ** Cooldown progress *)

Definition clamp (x lo hi : Q) : Q := Qmax lo (Qmin hi x).

(** The percentage of the window that has elapsed, clamped to 0..100. *)
Definition clamped_progress (cooldownStart cooldownEnd now : Z) : Q :=
  clamp (inject_Z (now - cooldownStart) / inject_Z (cooldownEnd - cooldownStart)
         * 100) 0 100.

(** Rounding to two decimals, as [Math.round(x * 100) / 100] does it. *)
Definition round2 (x : Q) : Q := inject_Z (Qfloor (x * 100 + (1 # 2))) / 100.

(** ** Counterparty concentration *)

Definition Qsum (l : list Q) : Q := fold_right Qplus 0 l.

(** The sum of [w] over the positions held on exchange [k]; a position is
    a pair of an exchange and a finite value. *)
Definition per_key (w : Q -> Q) (k : string) (l : list (string * Q)) : Q :=
  Qsum (map (fun p => if String.eqb (fst p) k then w (snd p) else 0) l).

(** The distinct exchanges of a list of positions. *)
Definition exchanges (l : list (string * Q)) : list string :=
  nodup string_dec (map fst l).

(** The total absolute exposure, summed as the source sums it. *)
Definition total_exposure (l : list (string * Q)) : Q :=
  fold_left (fun sum p => sum + Qabs (snd p)) l 0.

(** The absolute exposure held on exchange [k], and its fraction of the
    total. *)
Definition exposure_on (k : string) (l : list (string * Q)) : Q :=
  per_key Qabs k l.

Definition share (k : string) (l : list (string * Q)) : Q :=
  exposure_on k l / total_exposure l.

(** The Herfindahl-Hirschman index on fractional shares. *)
Definition squared_shares (l : list (string * Q)) : Q :=
  Qsum (map (fun k => share k l * share k l) (exchanges l)).

(** The positions handed to [calculateCounterpartyRisk]. *)
Definition positions_of (l : list (string * Q)) : list DeltaUtils.Position :=
  map (fun p => {| DeltaUtils.exchange := fst p;
                   DeltaUtils.value := Fin (snd p) |}) l.

(** The percentage one position adds to its exchange, and the value
    [distribution[key] || 0] found there before. *)
Definition percent_of (total v : Q) : Q := Qabs v / total * 100.

Definition keep_nonzero (current : option Q) : Q :=
  match current with
  | Some v => if negb (Qeq_bool v 0) then v else 0
  | None => 0
  end.

(** ** Rounding allowances *)

(** [shrink k] is [(1 - 2^-53)^k], the factor by which [k] roundings can
    lower a non-negative value. *)
Fixpoint shrink (k : nat) : Q :=
  match k with
  | O => 1
  | S k' => (1 - unit_roundoff) * shrink k'
  end.

(** [x] is the value [X] up to [k] roundings: each of the two is at least
    the other lowered [k] times. *)
Definition within (k : nat) (x X : Q) : Prop :=
  X * shrink k <= x /\ x * shrink k <= X.

(** The allowance the theorems state for [n] roundings, [1 - n * 2^-53]: a
    computed [x >= 0] that is the exact [X] up to [n] roundings has
    [X * rounding_slack n <= x] and [x * rounding_slack n <= X]. *)
Definition rounding_slack (roundings : nat) : Q :=
  1 - inject_Z (Z.of_nat roundings) * unit_roundoff.

(** ** Accuracy of [Math.pow] *)

(** One unit in the last place of 1, as a relative error. *)
Definition ulp_one : Q := 2 * unit_roundoff.

(** [Math.pow(b, n)] for the whole number [n] is within one unit in the
    last place of [b^n]. *)
Definition power_accurate (pow : Q -> Q -> Q) (b : Q) (n : positive) : Prop :=
  Qabs (pow b (inject_Z (Z.pos n)) - Qpower_positive b n)
  <= ulp_one * Qpower_positive b n.

(** [Math.pow(c, e)], computed for the n-th root of [c], is a positive
    number whose n-th power is [c] up to [n + 4] units in the last place. *)
Definition root_accurate (pow : Q -> Q -> Q) (c e : Q) (n : positive) : Prop :=
  0 < pow c e /\
  Qabs (Qpower_positive (pow c e) n - c)
  <= (inject_Z (Z.pos n) + 4) * ulp_one * c.

(** [Math.pow(x, 2)] is within one unit in the last place of the square. *)
Definition squares_accurate (pow : Q -> Q -> Q) : Prop :=
  forall x, 0 < x -> Qabs (pow x 2 - x * x) <= ulp_one * (x * x).

(** Every result of [Math.pow] is a double. *)
Definition returns_doubles (pow : Q -> Q -> Q) : Prop :=
  forall x y, exists q, pow x y = round53 q.

(** The arguments of the two [Math.pow] calls of the round trip. *)
Definition compounding_base (rnd : Q -> Q) (apr N : Q) : Q :=
  rnd (1 + rnd (apr / N)).

Definition root_radicand (rnd : Q -> Q) (pow : Q -> Q -> Q) (apr N : Q) : Q :=
  rnd (1 + rnd (pow (compounding_base rnd apr N) N - 1)).

(** A [Math.pow] that returns doubles: the correctly rounded power for a
    whole exponent and, for any other exponent, the base of the monthly
    compounding of 10%, the twelfth root it is asked for below. *)
Definition sample_pow (x e : Q) : Q :=
  if is_integral e then round53 (Qpower x (Qfloor e))
  else compounding_base round53 (1 # 10) 12.

(** ** The rounded computation of the concentration, on finite values *)

(** No exchange carries a name that a plain object inherits. *)
Definition ordinary_names (l : list (string * Q)) : Prop :=
  forall p, In p l -> inherited (fst p) = false.

Definition entry_of_fraction (entry : string * Q) : string * Rounded.DeltaUtils.Entry :=
  (fst entry, Rounded.DeltaUtils.Num (Fin (snd entry))).

Section RoundedRisk.
Variable rnd : Q -> Q.
Variable pow : Q -> Q -> Q.

Definition percent_rounded (total v : Q) : Q := rnd (rnd (Qabs v / total) * 100).

Definition assign_rounded (total : Q) (d : list (string * Q)) (p : string * Q)
  : list (string * Q) :=
  obj_set d (fst p)
    (rnd (keep_nonzero (obj_get d (fst p)) + percent_rounded total (snd p))).

Definition square_rounded (x : Q) : Q := if Qeq_bool x 0 then 0 else pow x 2.

End RoundedRisk.

(** After the positions [seen], the rounded distribution [d] holds one
    entry per exchange seen: that exchange's percentages added up, within
    [first + length seen] roundings. *)
Definition tallies_within (first : nat) (T : Q) (d seen : list (string * Q)) : Prop :=
  NoDup (map fst d) /\
  (forall k, In k (map fst d) <-> In k (map fst seen)) /\
  (forall k q, obj_get d k = Some q ->
     within (first + List.length seen) q (per_key (percent_of T) k seen)).

(** ** Inputs of the batch *)

(** A cooldown of the batch: user, start, end and amount. *)
Definition cooldown_of (c : string * Z * Z * Z)
  : Rounded.CooldownUtils.Cooldown :=
  {| Rounded.CooldownUtils.cooldown_user := fst (fst (fst c));
     Rounded.CooldownUtils.cooldown_startTime := snd (fst (fst c));
     Rounded.CooldownUtils.cooldown_endTime := snd (fst c);
     Rounded.CooldownUtils.cooldown_amount := snd c |}.

(** ** Finite inputs of the further properties *)

(** An exchange with finite liquidity, funding rate and position cap. *)
Definition exchange_of (e : string * Q * Q * Q) : DeltaUtils.ExchangeInfo :=
  {| DeltaUtils.id := fst (fst (fst e));
     DeltaUtils.liquidity := Fin (snd (fst (fst e)));
     DeltaUtils.fundingRate := Fin (snd (fst e));
     DeltaUtils.maxPosition := Fin (snd e) |}.

Definition liquidity_of (e : string * Q * Q * Q) : Q := snd (fst (fst e)).

Definition cap_of (e : string * Q * Q * Q) : Q := snd e.

(** An open position with finite size, entry price and current price. *)
Definition open_position_of (p : DeltaUtils.Side * Q * Q * Q)
  : DeltaUtils.OpenPosition :=
  {| DeltaUtils.pos_exchange := "binance";
     DeltaUtils.pos_symbol := "ETH";
     DeltaUtils.pos_size := Fin (snd (fst (fst p)));
     DeltaUtils.pos_side := fst (fst (fst p));
     DeltaUtils.pos_entryPrice := Fin (snd (fst p));
     DeltaUtils.pos_currentPrice := Fin (snd p);
     DeltaUtils.pos_leverage := Fin 1 |}.

Definition size_of (p : DeltaUtils.Side * Q * Q * Q) : Q := snd (fst (fst p)).

Definition entry_of (p : DeltaUtils.Side * Q * Q * Q) : Q := snd (fst p).

(** A yield source with a finite yield and weight. *)
Definition source_of (s : Q * Q) : YieldUtils.YieldSource :=
  {| YieldUtils.source_name := "source";
     YieldUtils.source_apy := Fin (fst s);
     YieldUtils.source_weight := Fin (snd s) |}.

(** A point of a yield history with a finite time and yield. *)
Definition point_of (p : Q * Q) : YieldUtils.YieldPoint :=
  {| YieldUtils.timestamp := Fin (fst p); YieldUtils.yield := Fin (snd p) |}.

(** The timestamps never step back. *)
Fixpoint ascending (previous : Q) (times : list Q) : bool :=
  match times with
  | [] => true
  | t :: rest => Qle_bool previous t && ascending t rest
  end.

(** The lengths of the intervals between consecutive timestamps. *)
Fixpoint gaps (previous : Q) (times : list Q) : list Q :=
  match times with
  | [] => []
  | t :: rest => (t - previous) :: gaps t rest
  end.

(** * Properties *)

(** ** Facts about the number model *)

Lemma Qle_bool_false_iff (a b : Q) : Qle_bool a b = false <-> b < a.
Proof.
  split; intro H.
  - apply Qnot_le_lt. intro Hle. apply Qle_bool_iff in Hle. congruence.
  - destruct (Qle_bool a b) eqn:E; [|reflexivity].
    apply Qle_bool_iff in E. exfalso. apply (Qlt_not_le _ _ H E).
Qed.

Lemma Qlt_bool_iff (a b : Q) : Qlt_bool a b = true <-> a < b.
Proof.
  unfold Qlt_bool. rewrite negb_true_iff. apply Qle_bool_false_iff.
Qed.

Lemma Qeq_bool_false_iff (a b : Q) : Qeq_bool a b = false <-> ~ a == b.
Proof.
  split; intro H.
  - intro E. apply Qeq_bool_iff in E. congruence.
  - destruct (Qeq_bool a b) eqn:E; [|reflexivity].
    apply Qeq_bool_iff in E. contradiction.
Qed.

Lemma Qcompare_zero_eq (a : Q) : a == 0 -> (a ?= 0) = Eq.
Proof. intro H. now apply Qeq_alt. Qed.

Lemma Qcompare_zero_gt (a : Q) : 0 < a -> (a ?= 0) = Gt.
Proof. intro H. now apply Qgt_alt. Qed.

#[export] Instance num_eq_Equivalence : Equivalence num_eq.
Proof.
  split.
  - intros [ | | |a]; simpl; auto. reflexivity.
  - intros [ | | |a] [ | | |b]; simpl; auto. intro H. now symmetry.
  - intros [ | | |a] [ | | |b] [ | | |c]; simpl; auto; try contradiction.
    intros H1 H2. now rewrite H1.
Qed.

Lemma ndiv_fin (a b : Q) : ~ b == 0 -> (Fin a / Fin b)%num = Fin (a / b).
Proof.
  intro H. unfold ndiv. apply Qeq_bool_false_iff in H. now rewrite H.
Qed.

Lemma inject_nat_pos (n : nat) : (0 < n)%nat -> 0 < inject_Z (Z.of_nat n).
Proof.
  intro H. change 0 with (inject_Z 0). rewrite <- Zlt_Qlt. lia.
Qed.

Lemma Qpower_positive_succ (a : Q) (n : positive) :
  Qpower_positive a (Pos.succ n) == Qpower_positive a n * a.
Proof.
  rewrite <- Pos.add_1_r, Qpower_plus_positive. reflexivity.
Qed.

(** Bernoulli's inequality. *)
Lemma Qpower_positive_bernoulli (x : Q) (n : positive) :
  -1 <= x -> 1 + inject_Z (Z.pos n) * x <= Qpower_positive (1 + x) n.
Proof.
  intro Hx. induction n as [|n IH] using Pos.peano_ind.
  - cbn [Qpower_positive pow_pos]. change (inject_Z 1) with 1. lra.
  - rewrite Qpower_positive_succ, Pos2Z.inj_succ, <- Z.add_1_r, inject_Z_plus.
    change (inject_Z 1) with 1.
    set (k := inject_Z (Z.pos n)) in *.
    assert (Hk : 0 <= k) by (subst k; change 0 with (inject_Z 0);
                            rewrite <- Zle_Qle; lia).
    assert (Hstep : (1 + k * x) * (1 + x) <= Qpower_positive (1 + x) n * (1 + x))
      by (apply Qmult_le_compat_r; [exact IH|lra]).
    assert (Hsq : 0 <= k * (x * x)) by (apply Qmult_le_0_compat; [exact Hk|nra]).
    setoid_replace ((1 + k * x) * (1 + x))
      with (1 + (k + 1) * x + k * (x * x)) in Hstep by ring.
    lra.
Qed.

Lemma Qpower_positive_mono (a b : Q) (n : positive) :
  0 <= a -> a <= b -> Qpower_positive a n <= Qpower_positive b n.
Proof.
  intros Ha Hab. induction n as [|n IH] using Pos.peano_ind.
  - exact Hab.
  - rewrite !Qpower_positive_succ.
    apply Qmult_le_compat_nonneg; split; try assumption.
    now apply Qpower_pos_positive.
Qed.

(** ** Sorting rearranges *)

Section ArraySortFacts.
Context {A : Type} (compare : A -> A -> number).

Lemma sort_insert_perm (x : A) (l : list A) :
  Permutation (sort_insert compare x l) (x :: l).
Proof.
  induction l as [|y l IH]; simpl.
  - reflexivity.
  - destruct (compare y x <? Fin 0)%num.
    + rewrite IH. apply perm_swap.
    + reflexivity.
Qed.

Lemma Array_sort_perm (l : list A) : Permutation (Array_sort compare l) l.
Proof.
  induction l as [|x l IH]; simpl.
  - constructor.
  - rewrite sort_insert_perm. now constructor.
Qed.

Lemma Array_sort_length (l : list A) :
  List.length (Array_sort compare l) = List.length l.
Proof. apply Permutation_length, Array_sort_perm. Qed.

Lemma filter_perm_length (f : A -> bool) (l l' : list A) :
  Permutation l l' -> List.length (filter f l) = List.length (filter f l').
Proof.
  induction 1 as [|x l l' _ IH|x y l|l l' l'' _ IH1 _ IH2]; simpl.
  - reflexivity.
  - destruct (f x); simpl; congruence.
  - destruct (f x), (f y); reflexivity.
  - congruence.
Qed.

End ArraySortFacts.

(** ** Rewards engine: tier lookup *)

(** C5.  For every balance [totalSats >= 0], [getMultiplierTier] returns the
    first entry of the descending table diamond 1,000,000 (5.0), platinum
    500,000 (3.0), gold 100,000 (2.0), silver 25,000 (1.5), bronze 5,000
    (1.25), base 0 (1.0) whose threshold the balance meets or exceeds;
    [nextTier] is the tier one rank up and [satsToNextTier] is that tier's
    threshold minus the balance, and both are absent exactly for diamond.
    In particular 100000 is gold and 4000 is 1000 short of the next tier. *)
Theorem getMultiplierTier_first_met :
  (forall totalSats : number,
     (totalSats >=? Fin 0)%num = true ->
     tier_lookup_spec totalSats (PointsUtils.getMultiplierTier totalSats)) /\
  PointsUtils.tier (PointsUtils.getMultiplierTier (Fin 100000)) = "gold"%string /\
  PointsUtils.satsToNextTier (PointsUtils.getMultiplierTier (Fin 4000))
    = Some (Fin 1000).
Proof.
  split; [|split; reflexivity].
  intros totalSats Hnonneg.
  unfold tier_lookup_spec, first_met, PointsUtils.getMultiplierTier.
  cbn [PointsUtils.tier_search PointsUtils.thresholds find spec_tier_table
       PointsUtils.t_sats fst snd].
  repeat
    match goal with
    | |- context [(totalSats >=? Fin ?q)%num] =>
        destruct (totalSats >=? Fin q)%num eqn:?
    end;
    try congruence;
    do 3 eexists; (split; [reflexivity|]);
    cbn; repeat split; intros; try reflexivity; try discriminate.
Qed.

Lemma getMultiplierTier_first_met_witness :
  (Fin 250000 >=? Fin 0)%num = true /\
  tier_lookup_spec (Fin 250000) (PointsUtils.getMultiplierTier (Fin 250000)).
Proof.
  split.
  - reflexivity.
  - apply (proj1 getMultiplierTier_first_met). reflexivity.
Defined.

(** ** Rewards engine: percentile *)

Lemma calculatePercentile_unfold (userSats : number) (allUserSats : list number) :
  PointsUtils.calculatePercentile userSats allUserSats =
  Normal ((of_nat (strictly_below userSats allUserSats)
           / of_nat (List.length allUserSats)) * Fin 100)%num.
Proof.
  unfold PointsUtils.calculatePercentile, strictly_below.
  rewrite Array_sort_length.
  rewrite (filter_perm_length _ _ _ (Array_sort_perm _ allUserSats)).
  reflexivity.
Qed.

(** C6.  For a non-empty population, [calculatePercentile] returns the
    number of entries strictly less than the value, divided by the size of
    the population, times 100; entries equal to the value are not counted.
    In particular 350 among 100..500 is at 60 and 50 among 100, 200, 300 is
    at 0. *)
Theorem calculatePercentile_strict_rank :
  (forall (userSats : number) (allUserSats : list number),
     allUserSats <> [] ->
     PointsUtils.calculatePercentile userSats allUserSats =
     Normal (Fin (inject_Z (Z.of_nat (strictly_below userSats allUserSats))
                  / inject_Z (Z.of_nat (List.length allUserSats)) * 100))) /\
  (exists p,
     PointsUtils.calculatePercentile (Fin 350)
       [Fin 100; Fin 200; Fin 300; Fin 400; Fin 500] = Normal p /\
     p =n= Fin 60) /\
  (exists p,
     PointsUtils.calculatePercentile (Fin 50) [Fin 100; Fin 200; Fin 300]
       = Normal p /\
     p =n= Fin 0).
Proof.
  split; [|split].
  - intros userSats allUserSats Hne.
    rewrite calculatePercentile_unfold.
    unfold of_nat, of_Z.
    rewrite ndiv_fin; [reflexivity|].
    intro H.
    assert (Hpos : 0 < inject_Z (Z.of_nat (List.length allUserSats))).
    { apply inject_nat_pos. destruct allUserSats; [congruence|simpl; lia]. }
    rewrite H in Hpos. now apply Qlt_irrefl in Hpos.
  - eexists. split; [vm_compute; reflexivity|]. reflexivity.
  - eexists. split; [vm_compute; reflexivity|]. reflexivity.
Qed.

Lemma calculatePercentile_strict_rank_witness :
  [Fin 100; Fin 300; Fin 300] <> [] /\
  PointsUtils.calculatePercentile (Fin 300) [Fin 100; Fin 300; Fin 300] =
  Normal (Fin (inject_Z (Z.of_nat
                 (strictly_below (Fin 300) [Fin 100; Fin 300; Fin 300]))
               / inject_Z (Z.of_nat (List.length [Fin 100; Fin 300; Fin 300]))
               * 100)).
Proof.
  split.
  - discriminate.
  - apply (proj1 calculatePercentile_strict_rank). discriminate.
Defined.

(** C9.  On the empty population [calculatePercentile] divides 0 by 0: for
    every value the call returns, without raising, the value NaN. *)
Theorem calculatePercentile_empty_NaN :
  forall userSats : number,
    PointsUtils.calculatePercentile userSats [] = Normal NaN.
Proof. intro userSats. reflexivity. Qed.

(** ** Yield converter: earnings over zero days *)

Lemma nmul_NaN_r (x : number) : (x * NaN)%num = NaN.
Proof. now destruct x. Qed.

Lemma zero_days_quotient (principal : number) (x : Q) :
  x == 1 -> ((principal * Fin x - principal) / Fin 0)%num = NaN.
Proof.
  intro Hx. destruct principal as [ | | |p]; cbn.
  - reflexivity.
  - unfold inf_times. rewrite Qcompare_zero_gt by (rewrite Hx; reflexivity).
    reflexivity.
  - unfold inf_times. rewrite Qcompare_zero_gt by (rewrite Hx; reflexivity).
    reflexivity.
  - rewrite Qcompare_zero_eq; [reflexivity|]. rewrite Hx. ring.
Qed.

Lemma simple_growth_zero_days (apy : number) :
  (Fin 1 + apy / Fin 365 * Fin 0)%num = NaN \/
  exists x, (Fin 1 + apy / Fin 365 * Fin 0)%num = Fin x /\ x == 1.
Proof.
  destruct apy as [ | | |a]; cbn; auto.
  right. eexists. split; [reflexivity|]. field.
Qed.

(** C2 (amended).  With [days = 0] [calculateEarnings] raises nothing: for
    every principal, rate and compounding flag the call returns its record,
    and the [dailyEarnings] of that record is NaN, the outcome of the
    unguarded division by [days].  For a finite principal and rate the
    record carries the principal as [finalAmount] and zero [earnings]. *)
Theorem calculateEarnings_zero_days :
  (forall (real_pow : Q -> Q -> Q) (principal apy : number)
          (compounding : option bool),
     exists r,
       YieldUtils.calculateEarnings real_pow principal apy (Fin 0) compounding
         = Normal r /\
       YieldUtils.dailyEarnings r = NaN) /\
  (forall (real_pow : Q -> Q -> Q) (principal apy : Q)
          (compounding : option bool),
     exists r,
       YieldUtils.calculateEarnings real_pow (Fin principal) (Fin apy) (Fin 0)
         compounding = Normal r /\
       YieldUtils.finalAmount r =n= Fin principal /\
       YieldUtils.earnings r =n= Fin 0).
Proof.
  split.
  - intros real_pow principal apy compounding.
    eexists. split; [reflexivity|]. cbn [YieldUtils.dailyEarnings].
    destruct (default true compounding).
    + change (Math_pow real_pow ?b (Fin 0)) with (Fin 1).
      now apply zero_days_quotient.
    + destruct (simple_growth_zero_days apy) as [E|[x [E Hx]]]; rewrite E.
      * rewrite nmul_NaN_r. reflexivity.
      * now apply zero_days_quotient.
  - intros real_pow principal apy compounding.
    eexists. split; [reflexivity|].
    cbn [YieldUtils.finalAmount YieldUtils.earnings].
    destruct (default true compounding); cbn; split; field.
Qed.

(** C2 (as stated) fails: the call made by the node's "Calculate Earnings"
    operation with [days = 0] returns a record, whatever [Math.pow]
    approximates, and its [dailyEarnings] is NaN. *)
Lemma calculateEarnings_zero_days_returns_NaN :
  exists r,
    (forall real_pow : Q -> Q -> Q,
       YieldUtils.calculateEarnings real_pow (Fin 1000) (Fin 0.10) (Fin 0)
         (Some true) = Normal r) /\
    (forall error : string, Normal r <> Throw error) /\
    YieldUtils.dailyEarnings r = NaN.
Proof.
  exists {| YieldUtils.finalAmount := Fin (1000 * 1);
            YieldUtils.earnings := Fin (1000 * 1 + - 1000);
            YieldUtils.dailyEarnings := NaN |}.
  split; [|split].
  - intro real_pow. reflexivity.
  - intros error H. discriminate H.
  - reflexivity.
Qed.

(** ** Delta-neutral analyzer: liquidation price *)

Lemma abs_closer (m a1 a2 : Q) :
  a2 < a1 -> (Qabs (m - a2) < Qabs (m - a1) <-> m < (a1 + a2) / 2).
Proof.
  intro H. change ((a1 + a2) / 2) with ((a1 + a2) * (1 # 2)).
  apply (Qabs_case (m - a2)); intro H2;
    apply (Qabs_case (m - a1)); intro H1; split; intro G; lra.
Qed.

Lemma scaled_abs_lt (e x y : Q) :
  0 < e -> (Qabs (e * x) < Qabs (e * y) <-> Qabs x < Qabs y).
Proof.
  intro He.
  rewrite !Qabs_Qmult, (Qabs_pos e) by now apply Qlt_le_weak.
  now apply Qmult_lt_l.
Qed.

Lemma inverse_leverage_lt (l1 l2 : Q) : 1 < l1 -> l1 < l2 -> 1 / l2 < 1 / l1.
Proof.
  intros H1 H2.
  assert (P1 : 0 < l1) by lra. assert (P2 : 0 < l2) by lra.
  unfold Qdiv. rewrite !Qmult_1_l. now apply -> Qinv_lt_contravar.
Qed.

Lemma calculateLiquidationPrice_default_margin
  (entryPrice leverage : number) (isShort : bool) :
  DeltaUtils.calculateLiquidationPrice entryPrice leverage isShort None =
  DeltaUtils.calculateLiquidationPrice entryPrice leverage isShort
    (Some (Fin 0.005)).
Proof. reflexivity. Qed.

(** C4 (amended).  For finite inputs and a non-zero leverage
    [calculateLiquidationPrice] returns entry * (1 - 1/leverage + margin) for
    a long and entry * (1 + 1/leverage - margin) for a short.  For
    [entryPrice > 0] and leverages [L2 > L1 > 1] the price at the higher
    leverage is strictly closer to the entry price exactly when the
    maintenance margin is below (1/L1 + 1/L2)/2; in particular it is closer
    whenever the maintenance margin is at most 1/L2. *)
Theorem calculateLiquidationPrice_closer :
  (forall entry leverage margin : Q,
     ~ leverage == 0 ->
     DeltaUtils.calculateLiquidationPrice (Fin entry) (Fin leverage) false
       (Some (Fin margin)) = Fin (entry * (1 - 1 / leverage + margin)) /\
     DeltaUtils.calculateLiquidationPrice (Fin entry) (Fin leverage) true
       (Some (Fin margin)) = Fin (entry * (1 + 1 / leverage - margin))) /\
  (forall (entry margin L1 L2 : Q) (isShort : bool),
     0 < entry -> 1 < L1 -> L1 < L2 ->
     ((liquidation_distance (Fin entry) (Fin L2) isShort (Some (Fin margin))
       <? liquidation_distance (Fin entry) (Fin L1) isShort (Some (Fin margin)))%num
      = true
      <-> margin < (1 / L1 + 1 / L2) / 2) /\
     (margin <= 1 / L2 ->
      (liquidation_distance (Fin entry) (Fin L2) isShort (Some (Fin margin))
       <? liquidation_distance (Fin entry) (Fin L1) isShort (Some (Fin margin)))%num
      = true)).
Proof.
  assert (Hformula : forall entry leverage margin : Q,
     ~ leverage == 0 ->
     DeltaUtils.calculateLiquidationPrice (Fin entry) (Fin leverage) false
       (Some (Fin margin)) = Fin (entry * (1 - 1 / leverage + margin)) /\
     DeltaUtils.calculateLiquidationPrice (Fin entry) (Fin leverage) true
       (Some (Fin margin)) = Fin (entry * (1 + 1 / leverage - margin))).
  { intros entry leverage margin Hl.
    unfold DeltaUtils.calculateLiquidationPrice. cbn [default].
    rewrite ndiv_fin by assumption. split; reflexivity. }
  split; [exact Hformula|].
  intros entry margin L1 L2 isShort He H1 H2.
  assert (Hinv : 1 / L2 < 1 / L1) by now apply inverse_leverage_lt.
  assert (N1 : ~ L1 == 0) by lra. assert (N2 : ~ L2 == 0) by lra.
  assert (Hiff :
    (liquidation_distance (Fin entry) (Fin L2) isShort (Some (Fin margin))
       <? liquidation_distance (Fin entry) (Fin L1) isShort (Some (Fin margin)))%num
      = true
      <-> margin < (1 / L1 + 1 / L2) / 2).
  { unfold liquidation_distance.
    destruct (Hformula entry L1 margin N1) as [Elong1 Eshort1].
    destruct (Hformula entry L2 margin N2) as [Elong2 Eshort2].
    destruct isShort.
    - rewrite Eshort1, Eshort2. cbn [nsub nadd nneg Math_abs nltb].
      rewrite Qlt_bool_iff.
      setoid_replace (entry * (1 + 1 / L2 - margin) + - entry)
        with (entry * - (margin - 1 / L2)) by ring.
      setoid_replace (entry * (1 + 1 / L1 - margin) + - entry)
        with (entry * - (margin - 1 / L1)) by ring.
      rewrite scaled_abs_lt by assumption. rewrite !Qabs_opp.
      now apply abs_closer.
    - rewrite Elong1, Elong2. cbn [nsub nadd nneg Math_abs nltb].
      rewrite Qlt_bool_iff.
      setoid_replace (entry * (1 - 1 / L2 + margin) + - entry)
        with (entry * (margin - 1 / L2)) by ring.
      setoid_replace (entry * (1 - 1 / L1 + margin) + - entry)
        with (entry * (margin - 1 / L1)) by ring.
      rewrite scaled_abs_lt by assumption.
      now apply abs_closer. }
  split; [exact Hiff|].
  intro Hm. apply Hiff.
  change ((1 / L1 + 1 / L2) / 2) with ((1 / L1 + 1 / L2) * (1 # 2)). lra.
Qed.

Lemma calculateLiquidationPrice_closer_witness :
  DeltaUtils.calculateLiquidationPrice (Fin 100) (Fin 10) false
    (Some (Fin 0.005)) = Fin (100 * (1 - 1 / 10 + 0.005)) /\
  (liquidation_distance (Fin 100) (Fin 10) false (Some (Fin 0.005))
   <? liquidation_distance (Fin 100) (Fin 5) false (Some (Fin 0.005)))%num
  = true.
Proof.
  split.
  - apply (proj1 calculateLiquidationPrice_closer 100 10 0.005). discriminate.
  - apply (proj2 (proj2 calculateLiquidationPrice_closer 100 0.005 5 10 false
                    eq_refl eq_refl eq_refl)).
    vm_compute. discriminate.
Defined.

(** C4 (as stated) fails, already with the default maintenance margin of
    0.005: for an entry price of 100 the long liquidation price is 100, the
    entry price itself, at leverage 200, and 100.25 at leverage 400, away
    from the entry price. *)
Lemma calculateLiquidationPrice_not_closer :
  (Fin 100 >? Fin 0)%num = true /\
  (Fin 400 >? Fin 200)%num = true /\
  (Fin 200 >? Fin 1)%num = true /\
  DeltaUtils.calculateLiquidationPrice (Fin 100) (Fin 200) false None
    =n= Fin 100 /\
  DeltaUtils.calculateLiquidationPrice (Fin 100) (Fin 400) false None
    =n= Fin 100.25 /\
  (liquidation_distance (Fin 100) (Fin 400) false None
   <? liquidation_distance (Fin 100) (Fin 200) false None)%num
  = false.
Proof. repeat split. Qed.

(** * Properties under binary64 rounding *)

(** ** Rounding to nearest *)

Lemma unit_roundoff_range : 0 < unit_roundoff /\ unit_roundoff < 1.
Proof. split; reflexivity. Qed.

Lemma round_half_even_near (x : Q) :
  Qabs (inject_Z (round_half_even x) - x) <= 1 # 2.
Proof.
  unfold round_half_even.
  pose proof (Qfloor_le x) as Hlo. pose proof (Qlt_floor x) as Hhi.
  rewrite inject_Z_plus in Hhi. change (inject_Z 1) with 1 in Hhi.
  apply Qabs_Qle_condition.
  destruct (Qcompare (x - inject_Z (Qfloor x)) (1 # 2)) eqn:E.
  - apply Qeq_alt in E. destruct (Z.even (Qfloor x));
      rewrite ?inject_Z_plus; change (inject_Z 1) with 1; lra.
  - apply Qlt_alt in E. lra.
  - apply Qgt_alt in E. rewrite inject_Z_plus. change (inject_Z 1) with 1. lra.
Qed.

Lemma Qpower_2_pos (e : Z) : 0 < Qpower 2 e.
Proof. apply Qpower_0_lt. reflexivity. Qed.

Lemma inject_Z_pow2 (n : Z) : (0 <= n)%Z -> inject_Z (2 ^ n) == Qpower 2 n.
Proof.
  intro H. exact (Zpower_Qpower 2 n H).
Qed.

Lemma ulp_exponent_spec (a : Q) :
  0 < a -> Qpower 2 52 * Qpower 2 (ulp_exponent a) <= a.
Proof.
  intro Ha. destruct a as [n d]. unfold ulp_exponent. cbn [Qnum Qden].
  assert (Hn : (0 < n)%Z).
  { unfold Qlt in Ha. simpl in Ha. lia. }
  set (p := Z.log2 n). set (q := Z.log2 (Z.pos d)).
  assert (Hp : (2 ^ p <= n)%Z) by (apply Z.log2_spec; exact Hn).
  assert (Hq : (Z.pos d < 2 ^ (Z.succ q))%Z) by (apply Z.log2_spec; lia).
  assert (Hp0 : (0 <= p)%Z) by apply Z.log2_nonneg.
  assert (Hq0 : (0 <= q)%Z) by apply Z.log2_nonneg.
  set (e0 := (p - q - 53)%Z).
  assert (Hne : ~ 2 == 0) by discriminate.
  (* n # d > 2^(p - q - 1) *)
  assert (Hlow : Qpower 2 (p - q - 1) <= n # d).
  { replace (p - q - 1)%Z with (p + - (Z.succ q))%Z by lia.
    rewrite Qpower_plus by exact Hne. rewrite Qpower_opp.
    rewrite <- !inject_Z_pow2 by lia.
    assert (Hd : 0 < inject_Z (2 ^ Z.succ q)).
    { change 0 with (inject_Z 0). rewrite <- Zlt_Qlt. lia. }
    apply Qle_shift_div_r; [exact Hd|].
    unfold Qle, Qmult, inject_Z. cbn [Qnum Qden].
    assert (0 < 2 ^ p)%Z by (apply Z.pow_pos_nonneg; lia).
    nia. }
  assert (Hsplit : Qpower 2 (p - q - 1) == Qpower 2 52 * Qpower 2 e0).
  { rewrite <- Qpower_plus by exact Hne. subst e0.
    replace (52 + (p - q - 53))%Z with (p - q - 1)%Z by lia. reflexivity. }
  destruct (Qle_bool (inject_Z (2 ^ 53)) ((n # d) / Qpower 2 e0)) eqn:E.
  - apply Qle_bool_iff in E.
    rewrite Qpower_plus by exact Hne.
    pose proof (Qpower_2_pos e0) as He0.
    assert (H53 : inject_Z (2 ^ 53) * Qpower 2 e0 <= n # d).
    { apply (Qmult_le_compat_r _ _ (Qpower 2 e0)) in E; [|lra].
      setoid_replace ((n # d) / Qpower 2 e0 * Qpower 2 e0) with (n # d) in E
        by (field; lra).
      exact E. }
    change (inject_Z (2 ^ 53)) with (Qpower 2 52 * Qpower 2 1) in H53.
    lra.
  - rewrite <- Hsplit. exact Hlow.
Qed.

Lemma ulp_exponent_upper (a : Q) :
  0 < a -> a < Qpower 2 53 * Qpower 2 (ulp_exponent a).
Proof.
  intro Ha. destruct a as [n d]. unfold ulp_exponent. cbn [Qnum Qden].
  assert (Hn : (0 < n)%Z).
  { unfold Qlt in Ha. simpl in Ha. lia. }
  set (p := Z.log2 n). set (q := Z.log2 (Z.pos d)).
  assert (Hp : (n < 2 ^ Z.succ p)%Z) by (apply Z.log2_spec; exact Hn).
  assert (Hq : (2 ^ q <= Z.pos d)%Z) by (apply Z.log2_spec; lia).
  assert (Hp0 : (0 <= p)%Z) by apply Z.log2_nonneg.
  assert (Hq0 : (0 <= q)%Z) by apply Z.log2_nonneg.
  set (e0 := (p - q - 53)%Z).
  assert (Hne : ~ 2 == 0) by discriminate.
  assert (Hup : n # d < Qpower 2 (p - q + 1)).
  { replace (p - q + 1)%Z with (Z.succ p + - q)%Z by lia.
    rewrite Qpower_plus by exact Hne. rewrite Qpower_opp.
    rewrite <- !inject_Z_pow2 by lia.
    assert (Hd : 0 < inject_Z (2 ^ q)).
    { change 0 with (inject_Z 0). rewrite <- Zlt_Qlt.
      apply Z.pow_pos_nonneg; lia. }
    apply Qlt_shift_div_l; [exact Hd|].
    unfold Qlt, Qmult, inject_Z. cbn [Qnum Qden].
    assert (0 < 2 ^ q)%Z by (apply Z.pow_pos_nonneg; lia).
    nia. }
  assert (Hsplit : Qpower 2 (p - q + 1) == Qpower 2 53 * Qpower 2 (e0 + 1)).
  { rewrite <- Qpower_plus by exact Hne. subst e0.
    replace (53 + (p - q - 53 + 1))%Z with (p - q + 1)%Z by lia. reflexivity. }
  destruct (Qle_bool (inject_Z (2 ^ 53)) ((n # d) / Qpower 2 e0)) eqn:E.
  - rewrite <- Hsplit. exact Hup.
  - apply Qle_bool_false_iff in E.
    pose proof (Qpower_2_pos e0) as He0.
    apply (Qmult_lt_compat_r _ _ (Qpower 2 e0)) in E; [|exact He0].
    setoid_replace ((n # d) / Qpower 2 e0 * Qpower 2 e0) with (n # d) in E
      by (field; lra).
    exact E.
Qed.

Lemma round_half_even_range (x : Q) (lo hi : Z) :
  inject_Z lo <= x -> x < inject_Z hi ->
  (lo <= round_half_even x <= hi)%Z.
Proof.
  intros Hlo Hhi.
  pose proof (Qfloor_le x) as H1. pose proof (Qlt_floor x) as H2.
  assert (Hf : (lo <= Qfloor x < hi)%Z).
  { split.
    - rewrite Zle_Qle. 
      assert (H : (Qfloor (inject_Z lo) <= Qfloor x)%Z) by now apply Qfloor_resp_le.
      rewrite Qfloor_Z in H. rewrite <- Zle_Qle. exact H.
    - rewrite Zlt_Qlt. lra. }
  unfold round_half_even.
  destruct (Qcompare (x - inject_Z (Qfloor x)) (1 # 2));
    [destruct (Z.even (Qfloor x))|..]; lia.
Qed.

Lemma round53_near (x : Q) : Qabs (round53 x - x) <= unit_roundoff * Qabs x.
Proof.
  unfold round53. destruct (Qeq_bool x 0) eqn:E0.
  - apply Qeq_bool_iff in E0. rewrite E0. discriminate.
  - apply Qeq_bool_false_iff in E0.
    assert (Ha : 0 < Qabs x).
    { destruct (Qlt_le_dec 0 (Qabs x)) as [H|H]; [exact H|].
      exfalso. apply E0. apply Qabs_Qle_condition in H. lra. }
    set (a := Qabs x) in *. set (e := ulp_exponent a).
    pose proof (ulp_exponent_spec a Ha) as He. fold e in He.
    pose proof (Qpower_2_pos e) as Hpe.
    pose proof (round_half_even_near (a / Qpower 2 e)) as Hm.
    set (m := inject_Z (round_half_even (a / Qpower 2 e))) in *.
    assert (Hdist : Qabs (m * Qpower 2 e - a) <= (1 # 2) * Qpower 2 e).
    { setoid_replace (m * Qpower 2 e - a)
        with ((m - a / Qpower 2 e) * Qpower 2 e) by (field; lra).
      rewrite Qabs_Qmult, (Qabs_pos (Qpower 2 e)) by lra.
      apply Qmult_le_compat_r; [exact Hm|lra]. }
    assert (Hu : (1 # 2) * Qpower 2 e <= unit_roundoff * a).
    { change (Qpower 2 52) with (inject_Z (2 ^ 52)) in He.
      unfold unit_roundoff.
      change (inject_Z (2 ^ 52)) with (4503599627370496 # 1) in He.
      lra. }
    rewrite Qred_correct.
    destruct (Qlt_bool x 0) eqn:Es.
    + apply Qlt_bool_iff in Es.
      assert (Ex : x == - a) by (subst a; rewrite Qabs_neg by lra; ring).
      setoid_replace (- (m * Qpower 2 e) - x) with (- (m * Qpower 2 e - a))
        by (rewrite Ex; ring).
      rewrite Qabs_opp. lra.
    + assert (Es' : ~ x < 0) by (intro H; apply Qlt_bool_iff in H; congruence).
      assert (Ex : x == a) by (subst a; rewrite Qabs_pos; [reflexivity|lra]).
      setoid_replace (m * Qpower 2 e - x) with (m * Qpower 2 e - a)
        by (rewrite Ex; ring).
      lra.
Qed.

(** [round53] rounds to nearest. *)
Lemma round53_rounds_to_nearest : rounds_to_nearest round53.
Proof. exact round53_near. Qed.

(** A double next to 1: it is 1 or at least 2^-53 away. *)
Lemma round53_gap_at_one (q : Q) :
  round53 q == 1 \/ unit_roundoff <= Qabs (round53 q - 1).
Proof.
  unfold round53. destruct (Qeq_bool q 0) eqn:E0.
  - right. vm_compute. discriminate.
  - apply Qeq_bool_false_iff in E0.
    assert (Ha : 0 < Qabs q).
    { destruct (Qlt_le_dec 0 (Qabs q)) as [H|H]; [exact H|].
      exfalso. apply E0. apply Qabs_Qle_condition in H. lra. }
    set (a := Qabs q) in *. set (e := ulp_exponent a).
    pose proof (ulp_exponent_spec a Ha) as Hlo. fold e in Hlo.
    pose proof (ulp_exponent_upper a Ha) as Hhi. fold e in Hhi.
    pose proof (Qpower_2_pos e) as Hpe.
    assert (Hm : (2 ^ 52 <= round_half_even (a / Qpower 2 e) <= 2 ^ 53)%Z).
    { apply round_half_even_range.
      - apply Qle_shift_div_l; [exact Hpe|]. exact Hlo.
      - apply Qlt_shift_div_r; [exact Hpe|]. exact Hhi. }
    set (m := round_half_even (a / Qpower 2 e)) in *.
    rewrite Qred_correct. clearbody m e.
    assert (Hv0 : 0 < inject_Z m * Qpower 2 e).
    { apply Qmult_lt_0_compat; [|exact Hpe].
      change 0 with (inject_Z 0). rewrite <- Zlt_Qlt. lia. }
    destruct (Qlt_bool q 0).
    + right. apply Qle_trans with 1; [discriminate|].
      rewrite Qabs_neg by lra. lra.
    + assert (Hne : ~ 2 == 0) by discriminate.
      assert (Hcases : (-52 <= e)%Z \/ e = (-53)%Z \/ (e <= -54)%Z) by lia.
      destruct Hcases as [He|[He|He]].
      * (* a multiple of 2^-52 *)
        assert (Ee : Qpower 2 e == inject_Z (2 ^ (e + 52)) * (1 # 2 ^ 52)).
        { rewrite inject_Z_pow2 by lia. rewrite Qpower_plus by exact Hne.
          change (Qpower 2 52) with (4503599627370496 # 1).
          change (1 # 2 ^ 52) with (1 # 4503599627370496). ring. }
        set (K := (m * 2 ^ (e + 52) - 2 ^ 52)%Z).
        assert (EK : inject_Z m * Qpower 2 e - 1 == inject_Z K * (1 # 2 ^ 52)).
        { rewrite Ee. subst K. unfold Z.sub. rewrite inject_Z_plus, inject_Z_opp, inject_Z_mult.
          change (inject_Z (2 ^ 52)) with (4503599627370496 # 1).
          change (1 # 2 ^ 52) with (1 # 4503599627370496). ring. }
        destruct (Z.eq_dec K 0) as [EK0|NK0].
        -- left. rewrite EK0 in EK. change (inject_Z 0) with 0 in EK.
           rewrite Qmult_0_l in EK. lra.
        -- right. rewrite EK, Qabs_Qmult.
           assert (1 <= Qabs (inject_Z K)).
           { change (Qabs (inject_Z K)) with (inject_Z (Z.abs K)).
             change 1 with (inject_Z 1). rewrite <- Zle_Qle. lia. }
           change (Qabs (1 # 2 ^ 52)) with (1 # 4503599627370496).
           unfold unit_roundoff. lra.
      * subst e. set (K := (m - 2 ^ 53)%Z).
        assert (EK : inject_Z m * Qpower 2 (-53) - 1 == inject_Z K * (1 # 2 ^ 53)).
        { subst K. unfold Z.sub. rewrite inject_Z_plus, inject_Z_opp.
          change (inject_Z (2 ^ 53)) with (9007199254740992 # 1).
          change (Qpower 2 (-53)) with (1 # 9007199254740992).
          change (1 # 2 ^ 53) with (1 # 9007199254740992). ring. }
        change (Qpower 2 (-53)) with (1 # 9007199254740992) in *.
        destruct (Z.eq_dec K 0) as [EK0|NK0].
        -- left. rewrite EK0 in EK. change (inject_Z 0) with 0 in EK.
           rewrite Qmult_0_l in EK. lra.
        -- right. rewrite EK, Qabs_Qmult.
           assert (1 <= Qabs (inject_Z K)).
           { change (Qabs (inject_Z K)) with (inject_Z (Z.abs K)).
             change 1 with (inject_Z 1). rewrite <- Zle_Qle. lia. }
           change (Qabs (1 # 2 ^ 53)) with (1 # 9007199254740992).
           unfold unit_roundoff. lra.
      * right.
        assert (Hpow : Qpower 2 e <= Qpower 2 (-54))
          by (apply Qpower_le_compat_l; [exact He|discriminate]).
        change (Qpower 2 (-54)) with (1 # 18014398509481984) in Hpow.
        assert (Hmq : inject_Z m <= inject_Z (2 ^ 53)) by (rewrite <- Zle_Qle; lia).
        change (inject_Z (2 ^ 53)) with (9007199254740992 # 1) in Hmq.
        assert (Hv : inject_Z m * Qpower 2 e <= (9007199254740992 # 1) * (1 # 18014398509481984)).
        { apply Qmult_le_compat_nonneg; split; try lra.
          change 0 with (inject_Z 0). rewrite <- Zle_Qle. lia. }
        rewrite Qabs_neg by lra. unfold unit_roundoff. lra.
Qed.

Lemma abs_lower (x y : Q) : Qabs x - Qabs (x - y) <= Qabs y.
Proof.
  pose proof (Qabs_triangle (x - y) y) as H.
  setoid_replace (x - y + y) with x in H by ring.
  rewrite Qplus_comm in H. lra.
Qed.

Lemma rnd53_magnitude (z : Q) :
  (1 - unit_roundoff) * Qabs z <= Qabs (round53 z).
Proof.
  pose proof (round53_near z) as H.
  pose proof (abs_lower z (round53 z)) as H1.
  rewrite <- (Qabs_opp (z - round53 z)) in H1.
  setoid_replace (- (z - round53 z)) with (round53 z - z) in H1 by ring.
  lra.
Qed.

(** On the sample operands, which include the inputs of the evaluations
    below, [round53] of the exact sum, difference, product and quotient is
    what the hardware's binary64 operation returns. *)
Lemma round53_agrees_with_binary64 :
  all_pairs (agree PrimFloat.add Qplus) = true /\
  all_pairs (agree PrimFloat.sub Qminus) = true /\
  all_pairs (agree PrimFloat.mul Qmult) = true /\
  all_pairs (agree PrimFloat.div Qdiv) = true.
Proof. repeat split; vm_compute; reflexivity. Qed.

Section RoundingFacts.
Variable rnd : Q -> Q.
Hypothesis rnd_ok : rounds_to_nearest rnd.

Lemma rnd_bounds (x : Q) :
  0 <= x -> x * (1 - unit_roundoff) <= rnd x /\ rnd x <= x * (1 + unit_roundoff).
Proof.
  intro Hx. pose proof (rnd_ok x) as H.
  rewrite (Qabs_pos x) in H by exact Hx.
  apply Qabs_Qle_condition in H. split; lra.
Qed.

Lemma rnd_nonneg (x : Q) : 0 <= x -> 0 <= rnd x.
Proof.
  intro Hx. destruct (rnd_bounds x Hx) as [H _].
  destruct unit_roundoff_range as [_ Hu].
  assert (0 <= x * (1 - unit_roundoff)) by (apply Qmult_le_0_compat; lra).
  lra.
Qed.

End RoundingFacts.

(** ** Rewards engine: projected earnings *)

Lemma multiplier_at_least_one (sats : number) :
  exists m,
    PointsUtils.multiplier (PointsUtils.getMultiplierTier sats) = Fin m /\
    1 <= m.
Proof.
  unfold PointsUtils.getMultiplierTier.
  cbn [PointsUtils.tier_search PointsUtils.thresholds PointsUtils.t_sats].
  repeat
    match goal with
    | |- context [(sats >=? Fin ?q)%num] => destruct (sats >=? Fin q)%num
    end;
    eexists; (split; [reflexivity|]); discriminate.
Qed.

Section Compounding.
Variable rnd : Q -> Q.
Hypothesis rnd_ok : rounds_to_nearest rnd.

Lemma compound_last (rate : number) (n : nat) (sats : number) :
  Rounded.PointsUtils.compound rnd rate (S n) sats =
  (let before := Rounded.PointsUtils.compound rnd rate n sats in
   Rounded.add rnd before
     (Rounded.mul rnd rate
        (PointsUtils.multiplier (PointsUtils.getMultiplierTier before)))).
Proof.
  revert sats. induction n as [|n IH]; intro sats.
  - reflexivity.
  - change (Rounded.PointsUtils.compound rnd rate (S (S n)) sats)
      with (Rounded.PointsUtils.compound rnd rate (S n)
              (Rounded.add rnd sats
                 (Rounded.mul rnd rate
                    (PointsUtils.multiplier (PointsUtils.getMultiplierTier sats))))).
    rewrite IH. reflexivity.
Qed.

Lemma compound_rounded_lower (rate sats : Q) (n : nat) :
  0 <= rate -> 0 <= sats ->
  exists total,
    Rounded.PointsUtils.compound rnd (Fin rate) n (Fin sats) = Fin total /\
    0 <= total /\
    (sats + inject_Z (Z.of_nat n) * rate)
      * (1 - (inject_Z (Z.of_nat n) + 1) * unit_roundoff) <= total.
Proof.
  intros Hrate Hsats.
  destruct unit_roundoff_range as [Hu0 Hu1].
  induction n as [|n IH].
  - exists sats. split; [reflexivity|]. split; [exact Hsats|].
    change (inject_Z (Z.of_nat 0)) with 0.
    assert (0 <= sats * unit_roundoff) by (apply Qmult_le_0_compat; lra).
    lra.
  - destruct IH as [before [Eb [Hb0 Hb]]].
    rewrite compound_last. cbv zeta. rewrite Eb.
    destruct (multiplier_at_least_one (Fin before)) as [m [Em Hm]].
    rewrite Em. unfold Rounded.add, Rounded.mul. cbn [nmul nadd Rounded.round].
    eexists. split; [reflexivity|].
    assert (Hrm : 0 <= rate * m) by (apply Qmult_le_0_compat; lra).
    destruct (rnd_bounds rnd rnd_ok (rate * m) Hrm) as [Hp _].
    pose proof (rnd_nonneg rnd rnd_ok (rate * m) Hrm) as Hp0.
    assert (Hsum : 0 <= before + rnd (rate * m)) by lra.
    destruct (rnd_bounds rnd rnd_ok _ Hsum) as [Hs _].
    split; [now apply (rnd_nonneg rnd rnd_ok)|].
    rewrite Nat2Z.inj_succ, <- Z.add_1_r, inject_Z_plus.
    change (inject_Z 1) with 1.
    assert (Hk : 0 <= inject_Z (Z.of_nat n))
      by (change 0 with (inject_Z 0); rewrite <- Zle_Qle; lia).
    set (k := inject_Z (Z.of_nat n)) in *.
    set (u := unit_roundoff) in *.
    set (t := rnd (rate * m)) in *.
    assert (Ht : rate * (1 - u) <= t).
    { assert (rate * (1 - u) <= rate * m * (1 - u)).
      { setoid_replace (rate * m * (1 - u)) with (rate * (1 - u) * m) by ring.
        assert (0 <= rate * (1 - u)) by (apply Qmult_le_0_compat; lra).
        nra. }
      lra. }
    eapply Qle_trans; [|exact Hs].
    assert (Hkr : 0 <= k * rate) by (apply Qmult_le_0_compat; lra).
    set (A := sats + k * rate) in *.
    assert (HA : 0 <= A) by (subst A; lra).
    assert (H1 : (A * (1 - (k + 1) * u) + rate * (1 - u)) * (1 - u)
                 <= (before + t) * (1 - u)).
    { apply Qmult_le_compat_r; lra. }
    eapply Qle_trans; [|exact H1].
    setoid_replace (sats + (k + 1) * rate) with (A + rate) by (subst A; ring).
    assert (HAu : 0 <= A * ((k + 1) * u * u)).
    { apply Qmult_le_0_compat; [exact HA|].
      apply Qmult_le_0_compat; [|lra]. apply Qmult_le_0_compat; lra. }
    assert (Hru : 0 <= rate * (k * u + u * u)).
    { apply Qmult_le_0_compat; [exact Hrate|].
      assert (0 <= k * u) by (apply Qmult_le_0_compat; lra).
      assert (0 <= u * u) by (apply Qmult_le_0_compat; lra). lra. }
    setoid_replace ((A * (1 - (k + 1) * u) + rate * (1 - u)) * (1 - u))
      with ((A + rate) * (1 - (k + 1 + 1) * u)
            + A * ((k + 1) * u * u) + rate * (k * u + u * u)) by ring.
    lra.
Qed.

End Compounding.

Lemma iterations_bounded (days : Q) :
  0 <= days -> days <= inject_Z (2 ^ 53) ->
  exists n, iterations (Fin days) = Some n /\
            inject_Z (Z.of_nat n) = inject_Z (Qceiling days) /\
            days <= inject_Z (Z.of_nat n).
Proof.
  intros H0 H53. unfold iterations.
  assert (E : Qlt_bool (inject_Z (2 ^ 53)) days = false).
  { destruct (Qlt_bool (inject_Z (2 ^ 53)) days) eqn:E; [|reflexivity].
    apply Qlt_bool_iff in E. lra. }
  rewrite E. eexists. split; [reflexivity|].
  assert (Hc : (0 <= Qceiling days)%Z).
  { change 0%Z with (Qceiling 0). now apply Qceiling_resp_le. }
  rewrite Z2Nat.id by assumption. split; [reflexivity|apply Qle_ceiling].
Qed.




(** ** Cooldown: progress *)

Section Progress.
Variable rnd : Q -> Q.
Hypothesis rnd_ok : rounds_to_nearest rnd.

Lemma rnd_zero (x : Q) : x == 0 -> rnd x == 0.
Proof.
  intro E. pose proof (rnd_ok x) as H.
  assert (Ea : Qabs x == 0) by (rewrite E; reflexivity).
  apply Qabs_Qle_condition in H.
  assert (unit_roundoff * Qabs x == 0) by (rewrite Ea; ring). lra.
Qed.

Lemma Qfloor_half_zero (x : Q) : x == 0 -> Qfloor (x + (1 # 2)) = 0%Z.
Proof.
  intro E. rewrite (Qfloor_comp (x + (1 # 2)) (1 # 2)); [reflexivity|].
  rewrite E. reflexivity.
Qed.

Lemma min_band (X p lo hi : Q) :
  0 <= X -> 0 <= lo -> lo <= 1 -> 1 <= hi ->
  X * lo <= p -> p <= X * hi ->
  Qmin 100 X * lo <= Qmin 100 p /\ Qmin 100 p <= Qmin 100 X * hi.
Proof.
  intros HX Hlo Hlo1 Hhi Hl Hh.
  destruct (Qlt_le_dec X 100) as [HX100|HX100];
  destruct (Qlt_le_dec p 100) as [Hp100|Hp100].
  - rewrite (Q.min_r 100 X), (Q.min_r 100 p) by lra. split; assumption.
  - rewrite (Q.min_r 100 X) by lra. rewrite (Q.min_l 100 p) by lra.
    split; [|lra].
    assert (X * lo <= X * 1)
      by (rewrite !(Qmult_comm X); apply Qmult_le_compat_r; lra).
    lra.
  - rewrite (Q.min_l 100 X) by lra. rewrite (Q.min_r 100 p) by lra.
    split; [|].
    + assert (100 * lo <= X * lo) by (apply Qmult_le_compat_r; lra). lra.
    + assert (X * 1 <= X * hi) by (rewrite !(Qmult_comm X); apply Qmult_le_compat_r; lra).
      assert (100 * 1 <= 100 * hi) by lra. lra.
  - rewrite (Q.min_l 100 X), (Q.min_l 100 p) by lra. split; lra.
Qed.

(** C3 (amended).  Let [now] be the supplied timestamp or, when it is
    omitted or 0, the clock in whole seconds.  For a window of duration
    [end - start <= 0] the progress is 0.  For a window of positive
    duration that [now] has entered, the progress is the double nearest to
    a whole number of hundredths between 0 and 100, and that number is the
    clamped percentage clamp((now - start) / (end - start) x 100, 0, 100)
    up to half a hundredth and a rounding allowance of 1e-12. *)
Theorem calculateCooldownStatus_progress_rounded :
  forall (Date_now cooldownStart cooldownEnd cooldownAmount : Z)
         (currentTimestamp : option Z),
    let now := CooldownUtils.current_time Date_now currentTimestamp in
    let status :=
      Rounded.CooldownUtils.calculateCooldownStatus rnd Date_now cooldownStart
        cooldownEnd cooldownAmount currentTimestamp in
    ((cooldownEnd - cooldownStart <= 0)%Z ->
     CooldownUtils.progress status =n= Fin 0) /\
    ((0 < cooldownEnd - cooldownStart)%Z -> (cooldownStart <= now)%Z ->
     exists hundredths : Z,
       CooldownUtils.progress status = Fin (rnd (inject_Z hundredths / 100)) /\
       (0 <= hundredths <= 10000)%Z /\
       Qabs (inject_Z hundredths / 100
             - clamped_progress cooldownStart cooldownEnd now)
       <= (1 # 200) + (1 # 1000000000000)).
Proof.
  intros Date_now cooldownStart cooldownEnd cooldownAmount currentTimestamp
         now status.
  subst status. unfold Rounded.CooldownUtils.calculateCooldownStatus.
  cbn [CooldownUtils.progress]. fold now.
  destruct unit_roundoff_range as [Hu0 Hu1].
  split.
  - intro Hle.
    destruct (Z.gtb_spec (cooldownEnd - cooldownStart) 0) as [Hgt|_]; [lia|].
    unfold Rounded.mul, Rounded.div. cbn [nmul Rounded.round Math_round].
    rewrite Qfloor_half_zero by (apply rnd_zero; reflexivity).
    unfold of_Z. rewrite ndiv_fin by discriminate. cbn [Rounded.round num_eq].
    apply rnd_zero. reflexivity.
  - intros Hpos Hnow.
    destruct (Z.gtb_spec (cooldownEnd - cooldownStart) 0) as [_|Hle]; [|lia].
    unfold of_Z, Rounded.div at 2, Rounded.mul at 2.
    rewrite ndiv_fin.
    2:{ intro E. unfold Qeq in E. simpl in E. lia. }
    cbn [nmul Rounded.round].
    assert (Hd : 0 < inject_Z (cooldownEnd - cooldownStart))
      by (change 0 with (inject_Z 0); now rewrite <- Zlt_Qlt).
    assert (He : 0 <= inject_Z (now - cooldownStart))
      by (change 0 with (inject_Z 0); rewrite <- Zle_Qle; lia).
    assert (Hx : 0 <= inject_Z (now - cooldownStart)
                      / inject_Z (cooldownEnd - cooldownStart)).
    { apply Qle_shift_div_l; [exact Hd|]. now rewrite Qmult_0_l. }
    unfold clamped_progress, clamp.
    set (x := inject_Z (now - cooldownStart)
              / inject_Z (cooldownEnd - cooldownStart)) in *.
    set (u := unit_roundoff) in *.
    destruct (rnd_bounds rnd rnd_ok x Hx) as [Hs1l Hs1h]. fold u in Hs1l, Hs1h.
    pose proof (rnd_nonneg rnd rnd_ok x Hx) as Hs10.
    set (s1 := rnd x) in *.
    assert (Hs100 : 0 <= s1 * 100) by lra.
    destruct (rnd_bounds rnd rnd_ok _ Hs100) as [Hp1l Hp1h]. fold u in Hp1l, Hp1h.
    pose proof (rnd_nonneg rnd rnd_ok _ Hs100) as Hp10.
    set (p1 := rnd (s1 * 100)) in *.
    assert (HX : 0 <= x * 100) by lra.
    assert (Hxu : 0 <= x * u) by (apply Qmult_le_0_compat; lra).
    assert (Hxuu : 0 <= x * u * u) by (apply Qmult_le_0_compat; lra).
    assert (Hband1 : x * 100 * (1 - 2 * u) <= p1 /\ p1 <= x * 100 * (1 + 3 * u)).
    { split.
      - assert (x * (1 - u) * 100 * (1 - u) <= s1 * 100 * (1 - u))
          by (apply Qmult_le_compat_r; lra).
        setoid_replace (x * (1 - u) * 100 * (1 - u))
          with (x * 100 * (1 - 2 * u) + 100 * (x * u * u)) in H by ring.
        lra.
      - assert (s1 * 100 * (1 + u) <= x * (1 + u) * 100 * (1 + u))
          by (apply Qmult_le_compat_r; lra).
        setoid_replace (x * (1 + u) * 100 * (1 + u))
          with (x * 100 * (1 + 3 * u) - 100 * (x * u) * (1 - u)) in H by ring.
        assert (0 <= 100 * (x * u) * (1 - u)) by (apply Qmult_le_0_compat; lra).
        lra. }
    destruct Hband1 as [Hb1l Hb1h].
    destruct (min_band (x * 100) p1 (1 - 2 * u) (1 + 3 * u) HX
                ltac:(unfold u, unit_roundoff; lra) ltac:(lra) ltac:(lra) Hb1l Hb1h)
      as [Hpl Hph].
    assert (Emin : Math_min (Fin 100) (Fin p1) = Fin (Qmin 100 p1)).
    { unfold Math_min, nleb, Qmin, GenericMinMax.gmin.
      destruct (Qle_bool 100 p1) eqn:E.
      - apply Qle_bool_iff in E.
        destruct (Qcompare_spec 100 p1) as [H|H|H]; try reflexivity. lra.
      - apply Qle_bool_false_iff in E.
        destruct (Qcompare_spec 100 p1) as [H|H|H]; try reflexivity; lra. }
    rewrite Emin. unfold Rounded.mul, Rounded.div.
    cbn [nmul Rounded.round Math_round].
    unfold of_Z. rewrite ndiv_fin by discriminate. cbn [Rounded.round].
    assert (HE0 : 0 <= Qmin 100 (x * 100))
      by (apply Q.min_glb; [discriminate|exact HX]).
    assert (HE100 : Qmin 100 (x * 100) <= 100) by apply Q.le_min_l.
    set (E := Qmin 100 (x * 100)) in *.
    assert (Hp0 : 0 <= Qmin 100 p1) by (apply Q.min_glb; [discriminate|exact Hp10]).
    assert (Hp100 : Qmin 100 p1 <= 100) by apply Q.le_min_l.
    set (p := Qmin 100 p1) in *.
    assert (Hq0' : 0 <= p * 100) by lra.
    destruct (rnd_bounds rnd rnd_ok _ Hq0') as [Hql Hqh]. fold u in Hql, Hqh.
    pose proof (rnd_nonneg rnd rnd_ok _ Hq0') as Hq0.
    set (q := rnd (p * 100)) in *.
    pose proof (Qfloor_le (q + (1 # 2))) as Hfl.
    pose proof (Qlt_floor (q + (1 # 2))) as Hfh.
    rewrite inject_Z_plus in Hfh. change (inject_Z 1) with 1 in Hfh.
    set (k := Qfloor (q + (1 # 2))) in *.
    exists k. split; [reflexivity|].
    assert (HEu : 0 <= E * u) by (apply Qmult_le_0_compat; lra).
    assert (Hpu : 0 <= p * u) by (apply Qmult_le_0_compat; lra).
    assert (Hqlow : E * 100 - 30000 * u <= q).
    { setoid_replace (p * 100 * (1 - u)) with (p * 100 - 100 * (p * u)) in Hql by ring.
      setoid_replace (E * (1 - 2 * u)) with (E - 2 * (E * u)) in Hpl by ring.
      assert (p * u <= 100 * u) by (apply Qmult_le_compat_r; lra).
      assert (E * u <= 100 * u) by (apply Qmult_le_compat_r; lra).
      lra. }
    assert (Hqhigh : q <= E * 100 + 40100 * u).
    { setoid_replace (p * 100 * (1 + u)) with (p * 100 + 100 * (p * u)) in Hqh by ring.
      setoid_replace (E * (1 + 3 * u)) with (E + 3 * (E * u)) in Hph by ring.
      assert (p * u <= 100 * u) by (apply Qmult_le_compat_r; lra).
      assert (E * u <= 100 * u) by (apply Qmult_le_compat_r; lra).
      lra. }
    assert (Hu : 40100 * u <= 1 # 10000000000) by (unfold u, unit_roundoff; lra).
    split.
    + split.
      * assert (Hk : -1 < inject_Z k) by lra.
        change (-1) with (inject_Z (-1)) in Hk. rewrite <- Zlt_Qlt in Hk. lia.
      * assert (Hk : inject_Z k < inject_Z 10001).
        { change (inject_Z 10001) with 10001. lra. }
        rewrite <- Zlt_Qlt in Hk. lia.
    + fold E. rewrite (Q.max_r 0 E) by exact HE0.
      apply Qabs_Qle_condition.
      change (inject_Z k / 100) with (inject_Z k * (1 # 100)).
      split; lra.
Qed.

End Progress.

(** With nothing rounded, the rounded status is the exact one. *)
Lemma round_exact (x : number) : Rounded.round (fun q => q) x = x.
Proof. now destruct x. Qed.

Lemma calculateCooldownStatus_exact_reading
  (Date_now cooldownStart cooldownEnd cooldownAmount : Z)
  (currentTimestamp : option Z) :
  Rounded.CooldownUtils.calculateCooldownStatus (fun q => q) Date_now
    cooldownStart cooldownEnd cooldownAmount currentTimestamp
  = CooldownUtils.calculateCooldownStatus Date_now cooldownStart cooldownEnd
      cooldownAmount currentTimestamp.
Proof.
  unfold Rounded.CooldownUtils.calculateCooldownStatus,
    CooldownUtils.calculateCooldownStatus, Rounded.mul, Rounded.div.
  now rewrite !round_exact.
Qed.

Lemma calculateCooldownStatus_progress_rounded_witness :
  CooldownUtils.progress
    (Rounded.CooldownUtils.calculateCooldownStatus round53 1700000000000 4000 4000 1
       (Some 2000%Z))
  =n= Fin 0 /\
  exists hundredths : Z,
    CooldownUtils.progress
      (Rounded.CooldownUtils.calculateCooldownStatus round53 1700000000000 1000 1160
         1 (Some 1023%Z))
    = Fin (round53 (inject_Z hundredths / 100)) /\
    (0 <= hundredths <= 10000)%Z /\
    Qabs (inject_Z hundredths / 100 - clamped_progress 1000 1160 1023)
    <= (1 # 200) + (1 # 1000000000000).
Proof.
  split.
  - apply (proj1 (calculateCooldownStatus_progress_rounded round53
                    round53_rounds_to_nearest 1700000000000 4000 4000 1
                    (Some 2000%Z))).
    discriminate.
  - apply (proj2 (calculateCooldownStatus_progress_rounded round53
                    round53_rounds_to_nearest 1700000000000 1000 1160 1
                    (Some 1023%Z))).
    + reflexivity.
    + discriminate.
Defined.

(** C3 (as stated) fails in four ways.  Half-way through a three-second
    window the field is 33.33, not 100/3.  After 23 of 160 seconds the
    clamped percentage is 14.375 and the field is 14.37: the product the
    code rounds is the double just below 1437.5.  For a reversed window,
    from 2000 back to 1000, the field is 0 where the formula gives 50.
    And 500 seconds before a window that runs from 1000 to 2000 the field
    is -50 where the clamp gives 0: only the upper bound is applied. *)
Lemma calculateCooldownStatus_progress_not_clamp :
  (CooldownUtils.progress
     (Rounded.CooldownUtils.calculateCooldownStatus round53 0 1 4 1 (Some 2%Z))
   = Fin (round53 33.33) /\
   ~ round53 33.33 == clamped_progress 1 4 2) /\
  (CooldownUtils.progress
     (Rounded.CooldownUtils.calculateCooldownStatus round53 0 1000 1160 1
        (Some 1023%Z))
   = Fin (round53 14.37) /\
   clamped_progress 1000 1160 1023 == 14.375) /\
  (CooldownUtils.progress
     (Rounded.CooldownUtils.calculateCooldownStatus round53 0 2000 1000 1
        (Some 1500%Z))
   = Fin 0 /\
   clamped_progress 2000 1000 1500 == 50) /\
  (CooldownUtils.progress
     (Rounded.CooldownUtils.calculateCooldownStatus round53 0 1000 2000 1
        (Some 500%Z))
   = Fin (-50) /\
   clamped_progress 1000 2000 500 == 0).
Proof.
  repeat split; try (vm_compute; reflexivity).
  intro H. vm_compute in H. discriminate H.
Qed.

(** ** Determinism and the clock *)

Lemma batch_loop_seconds (rnd : Q -> Q) (clock1 clock2 : nat -> Z)
  (cooldowns : list Rounded.CooldownUtils.Cooldown) :
  (forall i, (clock1 i / 1000 = clock2 i / 1000)%Z) ->
  forall i results,
    Rounded.CooldownUtils.batch_loop rnd clock1 i cooldowns results
    = Rounded.CooldownUtils.batch_loop rnd clock2 i cooldowns results.
Proof.
  intro H. induction cooldowns as [|c rest IH]; intros i results.
  - reflexivity.
  - cbn [Rounded.CooldownUtils.batch_loop]. rewrite IH. do 2 f_equal.
    unfold Rounded.CooldownUtils.calculateCooldownStatus, CooldownUtils.current_time.
    now rewrite H.
Qed.

(** C8 (amended).  What the clock-reading functions return is fixed by
    their arguments and the clock, for every rounding.  With a whole,
    non-zero [currentTimestamp], [calculateCooldownStatus] and
    [isCooldownComplete] do not depend on the clock.  With the timestamp
    omitted or 0 they return what the timestamp
    [Math.floor(Date.now() / 1000)] gives.  [batchCooldownStatus], which
    passes no timestamp, returns the same map whenever the clock readings
    of its calls agree in their whole seconds.  [getSeasonTimeRemaining],
    which has no time parameter, depends on the clock and the end date
    only through the time left. *)
Theorem timestamp_or_clock :
  forall rnd : Q -> Q,
    (forall (clock1 clock2 cooldownStart cooldownEnd cooldownAmount t : Z),
       t <> 0%Z ->
       Rounded.CooldownUtils.calculateCooldownStatus rnd clock1 cooldownStart
         cooldownEnd cooldownAmount (Some t) =
       Rounded.CooldownUtils.calculateCooldownStatus rnd clock2 cooldownStart
         cooldownEnd cooldownAmount (Some t) /\
       CooldownUtils.isCooldownComplete clock1 cooldownEnd (Some t) =
       CooldownUtils.isCooldownComplete clock2 cooldownEnd (Some t)) /\
    (forall (clock other cooldownStart cooldownEnd cooldownAmount : Z)
            (currentTimestamp : option Z),
       currentTimestamp = None \/ currentTimestamp = Some 0%Z ->
       (clock / 1000 <> 0)%Z ->
       Rounded.CooldownUtils.calculateCooldownStatus rnd clock cooldownStart
         cooldownEnd cooldownAmount currentTimestamp =
       Rounded.CooldownUtils.calculateCooldownStatus rnd other cooldownStart
         cooldownEnd cooldownAmount (Some (clock / 1000)%Z) /\
       CooldownUtils.isCooldownComplete clock cooldownEnd currentTimestamp =
       CooldownUtils.isCooldownComplete other cooldownEnd
         (Some (clock / 1000)%Z)) /\
    (forall (clock1 clock2 : nat -> Z) (cooldowns : list Rounded.CooldownUtils.Cooldown),
       (forall i, (clock1 i / 1000 = clock2 i / 1000)%Z) ->
       Rounded.CooldownUtils.batchCooldownStatus rnd clock1 cooldowns =
       Rounded.CooldownUtils.batchCooldownStatus rnd clock2 cooldowns) /\
    (forall clock1 clock2 endDate1 endDate2 : Z,
       (endDate1 - clock1 = endDate2 - clock2)%Z ->
       PointsUtils.getSeasonTimeRemaining clock1 endDate1 =
       PointsUtils.getSeasonTimeRemaining clock2 endDate2).
Proof.
  intro rnd. split; [|split; [|split]].
  - intros clock1 clock2 cooldownStart cooldownEnd cooldownAmount t Ht.
    unfold Rounded.CooldownUtils.calculateCooldownStatus,
      CooldownUtils.isCooldownComplete, CooldownUtils.current_time.
    apply Z.eqb_neq in Ht. rewrite Ht. split; reflexivity.
  - intros clock other cooldownStart cooldownEnd cooldownAmount ts Hts Hsec.
    unfold Rounded.CooldownUtils.calculateCooldownStatus,
      CooldownUtils.isCooldownComplete, CooldownUtils.current_time.
    apply Z.eqb_neq in Hsec. rewrite Hsec.
    destruct Hts as [-> | ->]; cbn [Z.eqb]; split; reflexivity.
  - intros clock1 clock2 cooldowns H. unfold Rounded.CooldownUtils.batchCooldownStatus.
    now apply batch_loop_seconds.
  - intros clock1 clock2 endDate1 endDate2 H.
    unfold PointsUtils.getSeasonTimeRemaining. now rewrite H.
Qed.

Lemma timestamp_or_clock_witness :
  (Rounded.CooldownUtils.calculateCooldownStatus round53 1500000 1000 2000 1
     (Some 1200%Z) =
   Rounded.CooldownUtils.calculateCooldownStatus round53 2500000 1000 2000 1
     (Some 1200%Z) /\
   CooldownUtils.isCooldownComplete 1500000 2000 (Some 1200%Z) =
   CooldownUtils.isCooldownComplete 2500000 2000 (Some 1200%Z)) /\
  (Rounded.CooldownUtils.calculateCooldownStatus round53 1500999 1000 2000 1
     None =
   Rounded.CooldownUtils.calculateCooldownStatus round53 2500000 1000 2000 1
     (Some (1500999 / 1000)%Z) /\
   CooldownUtils.isCooldownComplete 1500999 2000 None =
   CooldownUtils.isCooldownComplete 2500000 2000 (Some (1500999 / 1000)%Z)) /\
  (let batch :=
     map cooldown_of
       [("alice"%string, 1000, 2000, 1); ("bob"%string, 1200, 1800, 5)]%Z in
   Rounded.CooldownUtils.batchCooldownStatus round53
     (fun i => 1500000 + Z.min (Z.of_nat i) 999)%Z batch =
   Rounded.CooldownUtils.batchCooldownStatus round53 (fun _ => 1500999%Z)
     batch) /\
  PointsUtils.getSeasonTimeRemaining 0 120000 =
  PointsUtils.getSeasonTimeRemaining 60000 180000.
Proof.
  split; [|split; [|split]].
  - apply (proj1 (timestamp_or_clock round53)). discriminate.
  - apply (proj1 (proj2 (timestamp_or_clock round53))).
    + now left.
    + discriminate.
  - apply (proj1 (proj2 (proj2 (timestamp_or_clock round53)))).
    intro i. cbv beta. change (1500999 / 1000)%Z with 1500%Z.
    symmetry. apply Z.div_unique with (r := (Z.min (Z.of_nat i) 999)%Z); lia.
  - apply (proj2 (proj2 (proj2 (timestamp_or_clock round53)))). reflexivity.
Defined.

(** C8 (as stated) fails: with the timestamp omitted, the same arguments
    give different results at different clock readings, for
    [calculateCooldownStatus] under every rounding and for
    [isCooldownComplete], and so does [getSeasonTimeRemaining], which has
    no time parameter at all. *)
Lemma omitted_timestamp_reads_clock :
  (forall rnd : Q -> Q,
     CooldownUtils.remainingSeconds
       (Rounded.CooldownUtils.calculateCooldownStatus rnd 1500000 1000 2000 1
          None)
     = 500%Z /\
     CooldownUtils.remainingSeconds
       (Rounded.CooldownUtils.calculateCooldownStatus rnd 1600000 1000 2000 1
          None)
     = 400%Z /\
     Rounded.CooldownUtils.calculateCooldownStatus rnd 1500000 1000 2000 1 None
     <> Rounded.CooldownUtils.calculateCooldownStatus rnd 1600000 1000 2000 1
          None) /\
  CooldownUtils.isCooldownComplete 1500000 1550 None = false /\
  CooldownUtils.isCooldownComplete 1600000 1550 None = true /\
  PointsUtils.getSeasonTimeRemaining 0 120000 <>
  PointsUtils.getSeasonTimeRemaining 60000 120000.
Proof.
  split; [intro rnd|]; repeat split.
  - intro H. apply (f_equal CooldownUtils.remainingSeconds) in H.
    vm_compute in H. discriminate H.
  - intro H. apply (f_equal PointsUtils.minutes) in H.
    vm_compute in H. discriminate H.
Qed.

(** ** Yield converter: the round trip between APR and APY *)

Lemma root_near_one (rho zeta : Q) (n : positive) :
  0 < rho -> 0 <= zeta -> zeta <= 1 # 2 ->
  Qabs (Qpower_positive rho n - 1) <= zeta ->
  Qabs (inject_Z (Z.pos n) * (rho - 1)) <= 2 * zeta.
Proof.
  intros Hrho Hz0 Hz H. apply Qabs_Qle_condition in H.
  set (N := inject_Z (Z.pos n)).
  assert (HN : 0 < N) by reflexivity.
  apply Qabs_Qle_condition. split.
  - (* lower *)
    destruct (Qlt_le_dec rho 1) as [Hlt|Hge].
    + set (t := 1 - rho).
      assert (Ht : 0 < t) by (subst t; lra).
      assert (Ht1 : -1 <= t) by lra.
      pose proof (Qpower_positive_bernoulli t n Ht1) as Hb. fold N in Hb.
      assert (Hprod : Qpower_positive rho n * Qpower_positive (1 + t) n <= 1).
      { rewrite <- Qmult_power_positive.
        apply Qle_trans with (Qpower_positive 1 n);
          [|rewrite Qpower_positive_1; apply Qle_refl].
        apply Qpower_positive_mono.
        - apply Qmult_le_0_compat; lra.
        - subst t. setoid_replace (rho * (1 + (1 - rho))) with (1 - (1 - rho) * (1 - rho)) by ring.
          assert (0 <= (1 - rho) * (1 - rho)) by (apply Qmult_le_0_compat; lra). lra. }
      assert (Hpow : 1 - zeta <= Qpower_positive rho n) by lra.
      assert (Hchain : (1 - zeta) * (1 + N * t) <= 1).
      { eapply Qle_trans; [|exact Hprod].
        eapply Qle_trans.
        - apply Qmult_le_compat_r; [exact Hpow|].
          assert (0 <= N * t) by (apply Qmult_le_0_compat; lra). lra.
        - rewrite !(Qmult_comm (Qpower_positive rho n)).
          apply Qmult_le_compat_r; [exact Hb|].
          apply Qpower_pos_positive. lra. }
      assert (HNt : 0 <= N * t) by (apply Qmult_le_0_compat; lra).
      assert (HzNt : zeta * (N * t) <= (1 # 2) * (N * t))
        by (apply Qmult_le_compat_r; lra).
      setoid_replace ((1 - zeta) * (1 + N * t)) with (1 - zeta + N * t - zeta * (N * t))
        in Hchain by ring.
      setoid_replace (N * (rho - 1)) with (- (N * t)) by (subst t; ring).
      lra.
    + assert (0 <= N * (rho - 1)) by (apply Qmult_le_0_compat; lra). lra.
  - assert (Hr1 : -1 <= rho - 1) by lra.
    pose proof (Qpower_positive_bernoulli (rho - 1) n Hr1) as Hb.
    fold N in Hb.
    setoid_replace (1 + (rho - 1)) with rho in Hb by ring.
    lra.
Qed.

Section RoundTrip.
Variable rnd : Q -> Q.
Hypothesis rnd_ok : rounds_to_nearest rnd.
Variable pow : Q -> Q -> Q.

Lemma rnd_error (z K : Q) :
  Qabs z <= K ->
  - (unit_roundoff * K) <= rnd z - z /\ rnd z - z <= unit_roundoff * K.
Proof.
  intro HK. pose proof (rnd_ok z) as H.
  assert (Hu : unit_roundoff * Qabs z <= unit_roundoff * K).
  { rewrite !(Qmult_comm unit_roundoff). apply Qmult_le_compat_r; [exact HK|].
    discriminate. }
  apply Qabs_Qle_condition in H. split; lra.
Qed.

Lemma add_fin (a b : Q) : Rounded.add rnd (Fin a) (Fin b) = Fin (rnd (a + b)).
Proof. reflexivity. Qed.

Lemma sub_fin (a b : Q) : Rounded.sub rnd (Fin a) (Fin b) = Fin (rnd (a - b)).
Proof. reflexivity. Qed.

Lemma mul_fin (a b : Q) : Rounded.mul rnd (Fin a) (Fin b) = Fin (rnd (a * b)).
Proof. reflexivity. Qed.

Lemma div_fin (a b : Q) :
  ~ b == 0 -> Rounded.div rnd (Fin a) (Fin b) = Fin (rnd (a / b)).
Proof. intro H. unfold Rounded.div. now rewrite ndiv_fin. Qed.

Lemma Math_pow_positive_base (b e : Q) :
  0 < b -> ~ e == 0 -> Rounded.Math_pow pow (Fin b) (Fin e) = Fin (pow b e).
Proof.
  intros Hb He. unfold Rounded.Math_pow.
  apply Qeq_bool_false_iff in He. rewrite He.
  assert (Eb : Qeq_bool b 0 = false) by (apply Qeq_bool_false_iff; lra).
  assert (Lb : Qlt_bool b 0 = false).
  { destruct (Qlt_bool b 0) eqn:E; [|reflexivity]. apply Qlt_bool_iff in E. lra. }
  now rewrite Eb, Lb.
Qed.

Lemma round_trip_value (apr N : Q) :
  0 < N ->
  let b := rnd (1 + rnd (apr / N)) in
  let c := rnd (1 + rnd (pow b N - 1)) in
  let e := rnd (1 / N) in
  0 < b -> 0 < c -> 0 < e ->
  Rounded.YieldUtils.apyToApr rnd pow
    (Rounded.YieldUtils.aprToApy rnd pow (Fin apr) (Some (Fin N))) (Some (Fin N))
  = Fin (rnd (N * rnd (pow c e - 1))).
Proof.
  intros HN b c e Hb Hc He.
  assert (HN0 : ~ N == 0) by lra.
  unfold Rounded.YieldUtils.apyToApr, Rounded.YieldUtils.aprToApy.
  cbn [default].
  rewrite !div_fin by exact HN0. rewrite add_fin. fold b.
  rewrite (Math_pow_positive_base b N Hb HN0).
  rewrite sub_fin, add_fin. fold c. fold e.
  rewrite (Math_pow_positive_base c e Hc) by lra.
  rewrite sub_fin, mul_fin. reflexivity.
Qed.

Lemma Qabs_bound (z lo hi K : Q) :
  lo <= z -> z <= hi -> - K <= lo -> hi <= K -> Qabs z <= K.
Proof. intros. apply Qabs_Qle_condition. split; lra. Qed.

Lemma product_bound (a w A W : Q) :
  Qabs a <= A -> Qabs w <= W -> Qabs (a * w) <= A * W.
Proof.
  intros Ha Hw. rewrite Qabs_Qmult.
  apply Qmult_le_compat_nonneg; split; try apply Qabs_nonneg; assumption.
Qed.

Lemma cancel_factor_le (x k B : Q) : 0 < B -> x * B <= k * B -> x <= k.
Proof. intros HB H. now apply (Qmult_le_r x k B HB). Qed.

Lemma round_trip_error (n : positive) (apr : Q) :
  n = 12%positive \/ n = 365%positive ->
  - (99 # 100) <= apr -> apr <= 5 ->
  let N := inject_Z (Z.pos n) in
  let b := rnd (1 + rnd (apr / N)) in
  let c := rnd (1 + rnd (pow b N - 1)) in
  let e := rnd (1 / N) in
  power_accurate pow b n ->
  root_accurate pow c e n ->
  0 < b /\ 0 < c /\ 0 < e /\
  Qabs (rnd (N * rnd (pow c e - 1)) - apr) <= 1 # 1000000000000.
Proof.
  intros Hn Hlo Hhi N b c e Hpow [HP2 Hroot].
  unfold power_accurate in Hpow. fold N in Hpow, Hroot.
  apply Qabs_Qle_condition in Hpow. apply Qabs_Qle_condition in Hroot.
  unfold ulp_one, unit_roundoff in Hpow, Hroot.
  assert (HN : N == 12 \/ N == 365)
    by (destruct Hn as [-> | ->]; [left|right]; reflexivity).
  assert (HN12 : 12 <= N) by (destruct HN as [E|E]; rewrite E; discriminate).
  assert (HN365 : N <= 365) by (destruct HN as [E|E]; rewrite E; discriminate).
  (* the periodic rate *)
  assert (Ha0 : - (83 # 1000) <= apr / N /\ apr / N <= 42 # 100).
  { destruct HN as [E|E]; rewrite E.
    - change (apr / 12) with (apr * (1 # 12)). split; lra.
    - change (apr / 365) with (apr * (1 # 365)). split; lra. }
  assert (HNa0 : N * (apr / N) == apr) by (field; lra).
  set (a0 := apr / N) in *.
  destruct (rnd_error a0 (42 # 100)) as [Hx1l Hx1h];
    [apply Qabs_Qle_condition; split; lra|].
  unfold unit_roundoff in Hx1l, Hx1h.
  set (x1 := rnd a0) in *.
  destruct (rnd_error (1 + x1) (143 # 100)) as [Hbl Hbh];
    [apply Qabs_Qle_condition; split; lra|].
  unfold unit_roundoff in Hbl, Hbh.
  change (rnd (1 + x1)) with b in Hbl, Hbh.
  assert (Hb0 : 0 < b) by lra.
  assert (Hb144 : Qabs b <= 144 # 100) by (apply Qabs_Qle_condition; split; lra).
  (* N (b - 1) is apr up to 676 roundings *)
  assert (HNb : Qabs (N * (b - 1) - apr) <= 676 * (1 # 9007199254740992)).
  { setoid_replace (N * (b - 1) - apr)
      with (N * ((x1 - a0) + (b - (1 + x1)))) by (rewrite <- HNa0; ring).
    eapply Qle_trans.
    - apply (product_bound N _ 365 ((185 # 100) * (1 # 9007199254740992))).
      + apply Qabs_Qle_condition; split; lra.
      + apply Qabs_Qle_condition; split; lra.
    - discriminate. }
  apply Qabs_Qle_condition in HNb.
  (* the compounded value is bounded away from zero *)
  assert (HB : 1 + N * (b - 1) <= Qpower_positive b n).
  { assert (Hb1 : -1 <= b - 1) by lra.
    pose proof (Qpower_positive_bernoulli (b - 1) n Hb1) as H. fold N in H.
    setoid_replace (1 + (b - 1)) with b in H by ring. exact H. }
  set (B := Qpower_positive b n) in *.
  assert (HB0 : 99 # 10000 <= B) by lra.
  set (P1 := pow b N) in *.
  destruct (rnd_error (P1 - 1) (P1 + 1)) as [Hyl Hyh];
    [apply Qabs_Qle_condition; split; lra|].
  unfold unit_roundoff in Hyl, Hyh.
  set (y := rnd (P1 - 1)) in *.
  destruct (rnd_error (1 + y) (P1 + (P1 + 1))) as [Hcl Hch];
    [apply Qabs_Qle_condition; split; lra|].
  unfold unit_roundoff in Hcl, Hch.
  change (rnd (1 + y)) with c in Hcl, Hch.
  assert (HcB : - (208 * (1 # 9007199254740992) * B) <= c - B /\
                c - B <= 208 * (1 # 9007199254740992) * B) by (split; lra).
  destruct HcB as [HcBl HcBh].
  assert (Hc0 : 0 < c) by lra.
  (* the root *)
  set (P2 := pow c e) in *.
  set (Q2 := Qpower_positive P2 n) in *.
  assert (HQ2 : - (950 * (1 # 9007199254740992) * B) <= Q2 - B /\
                Q2 - B <= 950 * (1 # 9007199254740992) * B).
  { assert (Hk : (N + 4) * (2 * (1 # 9007199254740992)) * c
                 <= 738 * (1 # 9007199254740992) * c).
    { apply Qmult_le_compat_r; lra. }
    split; lra. }
  destruct HQ2 as [HQ2l HQ2h].
  set (rho := P2 / b).
  assert (Hrho0 : 0 < rho).
  { subst rho. apply Qlt_shift_div_l; [exact Hb0|]. now rewrite Qmult_0_l. }
  assert (HR : Qpower_positive rho n * B == Q2).
  { unfold rho, Q2, Qdiv.
    rewrite Qmult_power_positive, Qinv_power_positive. fold B. field. lra. }
  assert (HR1 : Qabs (Qpower_positive rho n - 1) <= 950 * (1 # 9007199254740992)).
  { apply Qabs_Qle_condition. split.
    - apply (cancel_factor_le _ _ B); [lra|].
      setoid_replace ((Qpower_positive rho n - 1) * B) with (Q2 - B)
        by (rewrite <- HR; ring).
      lra.
    - apply (cancel_factor_le _ _ B); [lra|].
      setoid_replace ((Qpower_positive rho n - 1) * B) with (Q2 - B)
        by (rewrite <- HR; ring).
      lra. }
  assert (Hz0 : 0 <= 950 * (1 # 9007199254740992)) by lra.
  assert (Hz1 : 950 * (1 # 9007199254740992) <= 1 # 2) by lra.
  pose proof (root_near_one rho _ n Hrho0 Hz0 Hz1 HR1) as Hw.
  fold N in Hw.
  set (w := N * (rho - 1)) in *.
  assert (Hbw : Qabs (b * w) <= (144 # 100) * (2 * (950 * (1 # 9007199254740992))))
    by (apply product_bound; assumption).
  apply Qabs_Qle_condition in Hbw.
  assert (HP2eq : N * (P2 - 1) == N * (b - 1) + b * w).
  { subst w rho. field. lra. }
  (* the last two roundings *)
  assert (HP2small : Qabs (P2 - 1) <= 42 # 100).
  { assert (HNP : - (9911 # 10000) <= N * (P2 - 1) /\ N * (P2 - 1) <= 5001 # 1000)
      by (rewrite HP2eq; split; lra).
    destruct HNP as [HNPl HNPh].
    apply Qabs_Qle_condition. split.
    - apply (cancel_factor_le _ _ N); [lra|].
      assert (- (42 # 100) * N <= - (42 # 100) * 12).
      { setoid_replace (- (42 # 100) * N) with (- ((42 # 100) * N)) by ring.
        setoid_replace (- (42 # 100) * 12) with (- ((42 # 100) * 12)) by ring.
        lra. }
      rewrite (Qmult_comm (P2 - 1)) . lra.
    - apply (cancel_factor_le _ _ N); [lra|].
      rewrite (Qmult_comm (P2 - 1)). lra. }
  destruct (rnd_error (P2 - 1) (42 # 100) HP2small) as [Hdl Hdh].
  unfold unit_roundoff in Hdl, Hdh.
  set (d := rnd (P2 - 1)) in *.
  assert (HNd : Qabs (N * (d - (P2 - 1))) <= 365 * ((42 # 100) * (1 # 9007199254740992))).
  { apply product_bound; apply Qabs_Qle_condition; split; lra. }
  apply Qabs_Qle_condition in HNd.
  assert (ENd : N * d == N * (d - (P2 - 1)) + N * (P2 - 1)) by ring.
  destruct (rnd_error (N * d) (501 # 100)) as [Hrl Hrh].
  { apply Qabs_Qle_condition. rewrite ENd, HP2eq. split; lra. }
  unfold unit_roundoff in Hrl, Hrh.
  split; [exact Hb0|]. split; [exact Hc0|]. split.
  - destruct (rnd_error (1 / N) 1) as [Hel _].
    { apply Qabs_Qle_condition. split.
      - assert (0 <= 1 / N) by (apply Qle_shift_div_l; lra). lra.
      - apply Qle_shift_div_r; lra. }
    unfold unit_roundoff in Hel. fold e in Hel.
    assert (1 # 365 <= 1 / N).
    { apply Qle_shift_div_l; [lra|].
      setoid_replace ((1 # 365) * N) with (N * (1 # 365)) by ring. lra. }
    lra.
  - apply Qabs_Qle_condition.
    set (r := rnd (N * d)) in *.
    rewrite ENd, HP2eq in Hrl, Hrh.
    split; lra.
Qed.

End RoundTrip.

(** C1 (amended).  For [apr] in [-0.99, 5] and 12 or 365 periods, on an
    engine whose [Math.pow] is accurate in the two calls of the round trip
    (the whole power within one unit in the last place, the root within
    [n + 4] units once raised back), [apyToApr (aprToApy apr n) n] is a
    finite number within 1e-12 of [apr], and so within the relative
    tolerance 1e-6 whenever [|apr| >= 1e-6]. *)
Theorem apyToApr_aprToApy_round_trip :
  forall (rnd : Q -> Q) (pow : Q -> Q -> Q),
    rounds_to_nearest rnd ->
    forall (n : positive) (apr : Q),
      n = 12%positive \/ n = 365%positive ->
      - (99 # 100) <= apr -> apr <= 5 ->
      let N := inject_Z (Z.pos n) in
      power_accurate pow (compounding_base rnd apr N) n ->
      root_accurate pow (root_radicand rnd pow apr N) (rnd (1 / N)) n ->
      exists r,
        Rounded.YieldUtils.apyToApr rnd pow
          (Rounded.YieldUtils.aprToApy rnd pow (Fin apr) (Some (Fin N)))
          (Some (Fin N)) = Fin r /\
        Qabs (r - apr) <= 1 # 1000000000000 /\
        (1 # 1000000 <= Qabs apr ->
         Qabs (r - apr) <= (1 # 1000000) * Qabs apr).
Proof.
  intros rnd pow Hrnd n apr Hn Hlo Hhi N Hpow Hroot.
  destruct (round_trip_error rnd Hrnd pow n apr Hn Hlo Hhi Hpow Hroot)
    as [Hb [Hc [He Herr]]].
  fold N in Hb, Hc, He, Herr.
  eexists. split; [|split].
  - apply (round_trip_value rnd pow apr N); [reflexivity|assumption..].
  - exact Herr.
  - intro Hsmall. eapply Qle_trans; [exact Herr|]. lra.
Qed.

Lemma apyToApr_aprToApy_round_trip_witness :
  returns_doubles sample_pow /\
  exists r,
    Rounded.YieldUtils.apyToApr round53 sample_pow
      (Rounded.YieldUtils.aprToApy round53 sample_pow (Fin (1 # 10))
         (Some (Fin 12)))
      (Some (Fin 12)) = Fin r /\
    Qabs (r - (1 # 10)) <= 1 # 1000000000000 /\
    (1 # 1000000 <= Qabs (1 # 10) ->
     Qabs (r - (1 # 10)) <= (1 # 1000000) * Qabs (1 # 10)).
Proof.
  split.
  - intros x y. unfold sample_pow, compounding_base.
    destruct (is_integral y); eexists; reflexivity.
  - apply (apyToApr_aprToApy_round_trip round53 sample_pow
             round53_rounds_to_nearest 12 (1 # 10)).
    + now left.
    + discriminate.
    + discriminate.
    + vm_compute. discriminate.
    + split; vm_compute; [reflexivity|discriminate].
Defined.

Lemma Math_pow_finite_cases (pow : Q -> Q -> Q) (c e : Q) :
  Rounded.Math_pow pow (Fin c) (Fin e) = Fin 1 \/
  Rounded.Math_pow pow (Fin c) (Fin e) = Fin 0 \/
  Rounded.Math_pow pow (Fin c) (Fin e) = PosInf \/
  Rounded.Math_pow pow (Fin c) (Fin e) = NaN \/
  Rounded.Math_pow pow (Fin c) (Fin e) = Fin (pow c e).
Proof.
  unfold Rounded.Math_pow.
  destruct (Qeq_bool e 0); [now left|].
  destruct (Qeq_bool c 0).
  - destruct (Qlt_bool 0 e); [right; now left|right; right; now left].
  - destruct (Qlt_bool c 0 && negb (is_integral e))%bool.
    + right; right; right; now left.
    + right; right; right; now right.
Qed.

Lemma round_trip_lost (x A N : Q) :
  x == 1 \/ unit_roundoff <= Qabs (x - 1) ->
  0 < A -> A <= 1 # 100000000000000000 -> 12 <= N ->
  ~ Qabs (round53 (N * round53 (x - 1)) - A) <= (1 # 1000000) * Qabs A.
Proof.
  intros Hx HA0 HA HN Hclose.
  rewrite (Qabs_pos A) in Hclose by lra.
  destruct Hx as [E|Hgap].
  - assert (Ed : round53 (x - 1) == 0).
    { apply (rnd_zero round53 round53_rounds_to_nearest). rewrite E. reflexivity. }
    assert (Er : round53 (N * round53 (x - 1)) == 0).
    { apply (rnd_zero round53 round53_rounds_to_nearest). rewrite Ed. ring. }
    rewrite Er in Hclose.
    setoid_replace (0 - A) with (- A) in Hclose by ring.
    rewrite Qabs_opp, Qabs_pos in Hclose by lra. lra.
  - pose proof (rnd53_magnitude (x - 1)) as Hd.
    set (d := round53 (x - 1)) in *.
    pose proof (rnd53_magnitude (N * d)) as Hr.
    rewrite Qabs_Qmult, (Qabs_pos N) in Hr by lra.
    set (r := round53 (N * d)) in *.
    pose proof (abs_lower r (r - A)) as Hsep.
    setoid_replace (r - (r - A)) with A in Hsep by ring.
    rewrite (Qabs_pos A) in Hsep by lra.
    pose proof (Qabs_nonneg d) as Hd0.
    unfold unit_roundoff in *.
    assert (H1 : (1 - (1 # 9007199254740992)) * (1 # 9007199254740992) <= Qabs d).
    { eapply Qle_trans; [|exact Hd].
      rewrite !(Qmult_comm (1 - (1 # 9007199254740992))).
      apply Qmult_le_compat_r; [exact Hgap|discriminate]. }
    assert (H2 : 12 * Qabs d <= N * Qabs d)
      by (apply Qmult_le_compat_r; assumption).
    assert (H3 : (1 - (1 # 9007199254740992)) * (12 * Qabs d)
                 <= (1 - (1 # 9007199254740992)) * (N * Qabs d)).
    { rewrite !(Qmult_comm (1 - (1 # 9007199254740992))).
      apply Qmult_le_compat_r; [exact H2|discriminate]. }
    lra.
Qed.

(** C1 (as stated) fails for small rates.  At the double nearest to 1e-18,
    which lies in [-0.99, 5], [1 + apr / n] rounds to 1 for both period
    counts.  Whatever doubles [Math.pow] returns, the round trip is then
    [n x (f - 1)] rounded, for a double [f]: 0, or at least [n x 2^-53] in
    size, and never within the relative tolerance 1e-6 of [apr]. *)
Lemma apyToApr_aprToApy_tiny_rate :
  let apr := round53 (1 # 1000000000000000000) in
  (- (99 # 100) <= apr /\ apr <= 5) /\
  forall pow : Q -> Q -> Q,
    returns_doubles pow ->
    forall N : Q, N = 12 \/ N = 365 ->
    forall r : Q,
      Rounded.YieldUtils.apyToApr round53 pow
        (Rounded.YieldUtils.aprToApy round53 pow (Fin apr) (Some (Fin N)))
        (Some (Fin N)) = Fin r ->
      ~ Qabs (r - apr) <= (1 # 1000000) * Qabs apr.
Proof.
  intro apr. split; [split; vm_compute; discriminate|].
  intros pow Hpow N HN r.
  assert (Ebase : round53 (1 + round53 (apr / N)) = 1)
    by (destruct HN as [-> | ->]; vm_compute; reflexivity).
  assert (HN0 : ~ N == 0) by (destruct HN as [-> | ->]; discriminate).
  assert (HN12 : 12 <= N) by (destruct HN as [-> | ->]; discriminate).
  unfold Rounded.YieldUtils.apyToApr, Rounded.YieldUtils.aprToApy. cbn [default].
  rewrite !(div_fin round53) by exact HN0. rewrite (add_fin round53), Ebase.
  rewrite (Math_pow_positive_base pow 1 N) by (try reflexivity; exact HN0).
  rewrite (sub_fin round53), (add_fin round53).
  set (c := round53 (1 + round53 (pow 1 N - 1))).
  set (e := round53 (1 / N)).
  assert (Hlost : forall x, x == 1 \/ unit_roundoff <= Qabs (x - 1) ->
            Rounded.mul round53 (Fin N) (Rounded.sub round53 (Fin x) (Fin 1)) = Fin r ->
            ~ Qabs (r - apr) <= (1 # 1000000) * Qabs apr).
  { intros x Hx E. rewrite (sub_fin round53), (mul_fin round53) in E.
    injection E as <-.
    apply round_trip_lost; try assumption; vm_compute; [reflexivity|discriminate]. }
  destruct (Math_pow_finite_cases pow c e) as [E|[E|[E|[E|E]]]]; rewrite E.
  - apply Hlost. left. reflexivity.
  - apply Hlost. right. vm_compute. discriminate.
  - destruct HN as [-> | ->]; discriminate.
  - discriminate.
  - apply Hlost. destruct (Hpow c e) as [q ->]. apply round53_gap_at_one.
Qed.

(** ** Values up to a number of roundings *)

Lemma shrink_pos (k : nat) : 0 < shrink k.
Proof.
  induction k as [|k IH]; [reflexivity|].
  cbn [shrink]. apply Qmult_lt_0_compat; [reflexivity|exact IH].
Qed.

Lemma shrink_le_1 (k : nat) : shrink k <= 1.
Proof.
  induction k as [|k IH]; [discriminate|].
  cbn [shrink]. pose proof (shrink_pos k) as H.
  assert (unit_roundoff * shrink k >= 0).
  { apply Qmult_le_0_compat; [discriminate|lra]. }
  lra.
Qed.

Lemma shrink_add (j k : nat) : shrink (j + k) == shrink j * shrink k.
Proof.
  induction j as [|j IH]; cbn [shrink Nat.add]; [ring|]. rewrite IH. ring.
Qed.

Lemma shrink_mono (j k : nat) : (j <= k)%nat -> shrink k <= shrink j.
Proof.
  intro H. replace k with (j + (k - j))%nat by lia. rewrite shrink_add.
  pose proof (shrink_pos j). pose proof (shrink_le_1 (k - j)).
  setoid_replace (shrink j) with (shrink j * 1) at 2 by ring.
  rewrite !(Qmult_comm (shrink j)). apply Qmult_le_compat_r; lra.
Qed.

Lemma shrink_bernoulli (k : nat) :
  1 - inject_Z (Z.of_nat k) * unit_roundoff <= shrink k.
Proof.
  induction k as [|k IH].
  - cbn [shrink]. change (inject_Z (Z.of_nat 0)) with 0. lra.
  - cbn [shrink]. rewrite Nat2Z.inj_succ, <- Z.add_1_r, inject_Z_plus.
    change (inject_Z 1) with 1.
    assert (Hk : 0 <= inject_Z (Z.of_nat k))
      by (change 0 with (inject_Z 0); rewrite <- Zle_Qle; lia).
    set (n := inject_Z (Z.of_nat k)) in *. set (u := unit_roundoff) in *.
    assert (Hu : 0 <= u) by discriminate.
    assert (Hu1 : u <= 1) by discriminate.
    assert (H1 : (1 - u) * (1 - n * u) <= (1 - u) * shrink k).
    { rewrite !(Qmult_comm (1 - u)). apply Qmult_le_compat_r; lra. }
    assert (0 <= n * (u * u)).
    { apply Qmult_le_0_compat; [exact Hk|apply Qmult_le_0_compat; lra]. }
    setoid_replace ((1 - u) * (1 - n * u)) with (1 - (n + 1) * u + n * (u * u))
      in H1 by ring.
    lra.
Qed.

Lemma within_refl (x : Q) : 0 <= x -> within 0 x x.
Proof. intro H. unfold within. cbn [shrink]. split; lra. Qed.

Lemma within_nonneg (k : nat) (x X : Q) : 0 <= X -> within k x X -> 0 <= x.
Proof.
  intros HX [H _]. pose proof (shrink_pos k).
  assert (0 <= X * shrink k) by (apply Qmult_le_0_compat; lra). lra.
Qed.

Lemma within_weaken (j k : nat) (x X : Q) :
  (j <= k)%nat -> 0 <= X -> within j x X -> within k x X.
Proof.
  intros Hjk HX H. pose proof (within_nonneg j x X HX H) as Hx.
  destruct H as [Hl Hh]. pose proof (shrink_mono j k Hjk) as Hm.
  split.
  - eapply Qle_trans; [|exact Hl].
    rewrite !(Qmult_comm X). apply Qmult_le_compat_r; assumption.
  - eapply Qle_trans; [|exact Hh].
    rewrite !(Qmult_comm x). apply Qmult_le_compat_r; assumption.
Qed.

Lemma within_comp (k : nat) (x X X' : Q) : X == X' -> within k x X -> within k x X'.
Proof. intros E [Hl Hh]. split; rewrite <- E; assumption. Qed.

Lemma within_add (k : nat) (x y X Y : Q) :
  within k x X -> within k y Y -> within k (x + y) (X + Y).
Proof.
  intros [Hxl Hxh] [Hyl Hyh]. split.
  - setoid_replace ((X + Y) * shrink k) with (X * shrink k + Y * shrink k) by ring.
    lra.
  - setoid_replace ((x + y) * shrink k) with (x * shrink k + y * shrink k) by ring.
    lra.
Qed.

Lemma within_mul (j k : nat) (x y X Y : Q) :
  0 <= X -> 0 <= Y ->
  within j x X -> within k y Y -> within (j + k) (x * y) (X * Y).
Proof.
  intros HX HY Hx Hy.
  pose proof (within_nonneg j x X HX Hx) as Hx0.
  pose proof (within_nonneg k y Y HY Hy) as Hy0.
  destruct Hx as [Hxl Hxh], Hy as [Hyl Hyh].
  pose proof (shrink_pos j) as Hj. pose proof (shrink_pos k) as Hk.
  unfold within. rewrite !shrink_add. split.
  - setoid_replace (X * Y * (shrink j * shrink k))
      with ((X * shrink j) * (Y * shrink k)) by ring.
    apply Qmult_le_compat_nonneg; split; try assumption;
      apply Qmult_le_0_compat; lra.
  - setoid_replace (x * y * (shrink j * shrink k))
      with ((x * shrink j) * (y * shrink k)) by ring.
    apply Qmult_le_compat_nonneg; split; try assumption;
      apply Qmult_le_0_compat; lra.
Qed.

Lemma within_div (j k : nat) (x y X Y : Q) :
  0 <= X -> 0 < Y -> 0 < y ->
  within j x X -> within k y Y -> within (j + k) (x / y) (X / Y).
Proof.
  intros HX HY Hy0 Hx Hy.
  pose proof (within_nonneg j x X HX Hx) as Hx0.
  destruct Hx as [Hxl Hxh], Hy as [Hyl Hyh].
  pose proof (shrink_pos j) as Hj. pose proof (shrink_pos k) as Hk.
  unfold within. rewrite !shrink_add. split.
  - apply Qle_shift_div_l; [exact Hy0|].
    setoid_replace (X / Y * (shrink j * shrink k) * y)
      with ((X * shrink j) * (y * shrink k) / Y) by (field; lra).
    apply Qle_shift_div_r; [exact HY|].
    apply Qmult_le_compat_nonneg; split; try assumption;
      apply Qmult_le_0_compat; lra.
  - setoid_replace (x / y * (shrink j * shrink k))
      with ((x * shrink j) * shrink k / y) by (field; lra).
    apply Qle_shift_div_r; [exact Hy0|].
    setoid_replace (X / Y * y) with (X * y / Y) by (field; lra).
    apply Qle_shift_div_l; [exact HY|].
    setoid_replace (x * shrink j * shrink k * Y)
      with ((x * shrink j) * (Y * shrink k)) by ring.
    apply Qmult_le_compat_nonneg; split; try assumption;
      apply Qmult_le_0_compat; lra.
Qed.

Lemma within_comp_l (k : nat) (x x' X : Q) : x == x' -> within k x X -> within k x' X.
Proof. intros E [Hl Hh]. split; rewrite <- E; assumption. Qed.

Lemma within_trans (j k : nat) (x y Z : Q) :
  0 <= x -> within j x y -> within k y Z -> within (j + k) x Z.
Proof.
  intros Hx [H1 H2] [H3 H4].
  pose proof (shrink_pos j) as Hj. pose proof (shrink_pos k) as Hk.
  unfold within. rewrite shrink_add. split.
  - setoid_replace (Z * (shrink j * shrink k)) with (Z * shrink k * shrink j) by ring.
    eapply Qle_trans; [|exact H1].
    apply Qmult_le_compat_r; lra.
  - setoid_replace (x * (shrink j * shrink k)) with (x * shrink j * shrink k) by ring.
    eapply Qle_trans; [|exact H4].
    apply Qmult_le_compat_r; lra.
Qed.

Lemma within_zero (k : nat) (x X : Q) : 0 <= X -> x == 0 -> within k x X -> X == 0.
Proof.
  intros HX E [H _]. pose proof (shrink_pos k) as Hk. rewrite E in H.
  destruct (Qlt_le_dec 0 X) as [Hpos|Hle]; [|lra].
  assert (0 < X * shrink k) by (apply Qmult_lt_0_compat; assumption). lra.
Qed.

Section Band.
Variable rnd : Q -> Q.
Hypothesis rnd_ok : rounds_to_nearest rnd.

Lemma within_rnd (k : nat) (x X : Q) :
  0 <= X -> within k x X -> within (S k) (rnd x) X.
Proof.
  intros HX H. pose proof (within_nonneg k x X HX H) as Hx.
  destruct (rnd_bounds rnd rnd_ok x Hx) as [Hl Hh].
  pose proof (rnd_nonneg rnd rnd_ok x Hx) as Hr.
  destruct H as [Hxl Hxh]. pose proof (shrink_pos k) as Hk.
  cbn [shrink]. split.
  - setoid_replace (X * ((1 - unit_roundoff) * shrink k))
      with (X * shrink k * (1 - unit_roundoff)) by ring.
    eapply Qle_trans; [|exact Hl].
    apply Qmult_le_compat_r; [exact Hxl|discriminate].
  - setoid_replace (rnd x * ((1 - unit_roundoff) * shrink k))
      with (rnd x * (1 - unit_roundoff) * shrink k) by ring.
    eapply Qle_trans; [|exact Hxh].
    apply Qmult_le_compat_r; [|lra].
    eapply Qle_trans.
    + apply Qmult_le_compat_r; [exact Hh|discriminate].
    + assert (0 <= x * (unit_roundoff * unit_roundoff)).
      { apply Qmult_le_0_compat; [exact Hx|discriminate]. }
      setoid_replace (x * (1 + unit_roundoff) * (1 - unit_roundoff))
        with (x - x * (unit_roundoff * unit_roundoff)) by ring.
      lra.
Qed.

End Band.

Lemma slack_le_shrink (k : nat) : rounding_slack k <= shrink k.
Proof. apply shrink_bernoulli. Qed.

(** What [within] gives in plain terms. *)
Lemma within_slack (k : nat) (x X : Q) :
  0 <= X -> within k x X ->
  X * rounding_slack k <= x /\ x * rounding_slack k <= X.
Proof.
  intros HX H. pose proof (within_nonneg k x X HX H) as Hx.
  destruct H as [Hl Hh]. pose proof (slack_le_shrink k) as Hs.
  split.
  - eapply Qle_trans; [|exact Hl].
    rewrite !(Qmult_comm X). now apply Qmult_le_compat_r.
  - eapply Qle_trans; [|exact Hh].
    rewrite !(Qmult_comm x). now apply Qmult_le_compat_r.
Qed.

(** ** Delta-neutral analyzer: counterparty concentration *)

(** *** Finite sums of fractions *)

Lemma Qsum_map_ext {A : Type} (f g : A -> Q) (l : list A) :
  (forall a, In a l -> f a == g a) -> Qsum (map f l) == Qsum (map g l).
Proof.
  induction l as [|a l IH]; intro H; simpl.
  - reflexivity.
  - rewrite (H a) by now left. rewrite IH; [reflexivity|].
    intros b Hb. apply H. now right.
Qed.

Lemma Qsum_perm (l l' : list Q) : Permutation l l' -> Qsum l == Qsum l'.
Proof.
  induction 1 as [|x l l' _ IH|x y l|l l' l'' _ IH1 _ IH2]; simpl.
  - reflexivity.
  - now rewrite IH.
  - ring.
  - now rewrite IH1.
Qed.

Lemma Qsum_map_plus {A : Type} (f g : A -> Q) (l : list A) :
  Qsum (map (fun a => f a + g a) l) == Qsum (map f l) + Qsum (map g l).
Proof.
  induction l as [|a l IH]; simpl; [ring|]. rewrite IH. ring.
Qed.

Lemma Qsum_map_scale {A : Type} (c : Q) (f : A -> Q) (l : list A) :
  Qsum (map (fun a => f a * c) l) == Qsum (map f l) * c.
Proof.
  induction l as [|a l IH]; simpl; [ring|]. rewrite IH. ring.
Qed.

Lemma Qsum_nonneg (l : list Q) : (forall x, In x l -> 0 <= x) -> 0 <= Qsum l.
Proof.
  induction l as [|x l IH]; intro H; simpl.
  - discriminate.
  - assert (0 <= x) by (apply H; now left).
    assert (0 <= Qsum l) by (apply IH; intros y Hy; apply H; now right).
    lra.
Qed.

Lemma fold_left_Qsum {A : Type} (g : A -> Q) (l : list A) (start : Q) :
  fold_left (fun s a => s + g a) l start == start + Qsum (map g l).
Proof.
  revert start. induction l as [|a l IH]; intro start; simpl.
  - ring.
  - rewrite IH. ring.
Qed.

(** For non-negative terms the sum of the squares is at most the square of
    the sum... *)
Lemma Qsum_squares_le (l : list Q) :
  (forall x, In x l -> 0 <= x) ->
  Qsum (map (fun x => x * x) l) <= Qsum l * Qsum l.
Proof.
  induction l as [|x l IH]; intro H; simpl.
  - discriminate.
  - assert (Hx : 0 <= x) by (apply H; now left).
    assert (Hl : forall y, In y l -> 0 <= y) by (intros y Hy; apply H; now right).
    specialize (IH Hl). pose proof (Qsum_nonneg l Hl) as Hs.
    assert (Hxs : 0 <= x * Qsum l) by now apply Qmult_le_0_compat.
    setoid_replace ((x + Qsum l) * (x + Qsum l))
      with (x * x + (2 * (x * Qsum l) + Qsum l * Qsum l)) by ring.
    lra.
Qed.

(** ... and at least the square of the sum divided by the number of
    terms, since the squared distances to any [m] add up to a non-negative
    number. *)
Lemma Qsum_square_distances (m : Q) (l : list Q) :
  Qsum (map (fun x => (x - m) * (x - m)) l) ==
  Qsum (map (fun x => x * x) l) - 2 * m * Qsum l
  + inject_Z (Z.of_nat (List.length l)) * (m * m).
Proof.
  induction l as [|x l IH].
  - simpl. ring.
  - cbn [map Qsum fold_right List.length]. fold (Qsum l).
    fold (Qsum (map (fun x => (x - m) * (x - m)) l)).
    fold (Qsum (map (fun x => x * x) l)).
    rewrite IH, Nat2Z.inj_succ, <- Z.add_1_r, inject_Z_plus.
    change (inject_Z 1) with 1. ring.
Qed.

Lemma Qsum_squares_ge (l : list Q) :
  l <> [] -> Qsum l == 1 ->
  1 / inject_Z (Z.of_nat (List.length l)) <= Qsum (map (fun x => x * x) l).
Proof.
  intros Hne Hsum.
  set (n := inject_Z (Z.of_nat (List.length l))).
  assert (Hn : 0 < n).
  { apply inject_nat_pos. destruct l; [congruence|simpl; lia]. }
  assert (Hpos : 0 <= Qsum (map (fun x => (x - 1 / n) * (x - 1 / n)) l)).
  { apply Qsum_nonneg. intros y Hy. apply in_map_iff in Hy.
    destruct Hy as [x [<- _]]. generalize (x - 1 / n). intro d. nra. }
  rewrite Qsum_square_distances, Hsum in Hpos. fold n in Hpos.
  assert (E : 2 * (1 / n) * 1 - n * (1 / n * (1 / n)) == 1 / n).
  { field. intro Z0. rewrite Z0 in Hn. now apply Qlt_irrefl in Hn. }
  lra.
Qed.

(** *** Objects filled by assignment *)

Section ObjectFacts.
Context {V : Type}.
Implicit Types (o : list (string * V)) (k : string) (v : V).

Lemma obj_get_None o k : obj_get o k = None <-> ~ In k (map fst o).
Proof.
  induction o as [|[k0 v0] o IH]; simpl.
  - tauto.
  - destruct (String.eqb_spec k0 k) as [->|Hne].
    + split; [discriminate|]. intro H. exfalso. apply H. now left.
    + rewrite IH. tauto.
Qed.

Lemma obj_get_In o k v : obj_get o k = Some v -> In k (map fst o).
Proof.
  intro H. destruct (in_dec string_dec k (map fst o)) as [Hin|Hout]; [exact Hin|].
  apply obj_get_None in Hout. congruence.
Qed.

Lemma obj_get_set_same o k v : obj_get (obj_set o k v) k = Some v.
Proof.
  induction o as [|[k0 v0] o IH]; simpl.
  - now rewrite String.eqb_refl.
  - destruct (String.eqb_spec k0 k) as [->|Hne]; simpl.
    + now rewrite String.eqb_refl.
    + apply String.eqb_neq in Hne. now rewrite Hne.
Qed.

Lemma obj_get_set_other o k k' v :
  k <> k' -> obj_get (obj_set o k v) k' = obj_get o k'.
Proof.
  intro Hne. induction o as [|[k0 v0] o IH]; simpl.
  - apply String.eqb_neq in Hne. now rewrite Hne.
  - destruct (String.eqb_spec k0 k) as [->|Hne0]; simpl.
    + apply String.eqb_neq in Hne. now rewrite Hne.
    + now rewrite IH.
Qed.

Lemma obj_set_keys_present o k v :
  In k (map fst o) -> map fst (obj_set o k v) = map fst o.
Proof.
  induction o as [|[k0 v0] o IH]; simpl; intro H.
  - contradiction.
  - destruct (String.eqb_spec k0 k) as [->|Hne]; simpl.
    + reflexivity.
    + f_equal. apply IH. destruct H; [contradiction|assumption].
Qed.

Lemma obj_set_keys_absent o k v :
  ~ In k (map fst o) -> map fst (obj_set o k v) = (map fst o ++ [k])%list.
Proof.
  induction o as [|[k0 v0] o IH]; simpl; intro H.
  - reflexivity.
  - destruct (String.eqb_spec k0 k) as [->|Hne]; simpl.
    + exfalso. apply H. now left.
    + f_equal. apply IH. tauto.
Qed.

End ObjectFacts.

(** *** What the distribution holds *)

Lemma per_key_app (w : Q -> Q) (k : string) (l l' : list (string * Q)) :
  per_key w k (l ++ l') == per_key w k l + per_key w k l'.
Proof.
  unfold per_key. induction l as [|p l IH]; simpl.
  - ring.
  - rewrite IH. ring.
Qed.

Lemma per_key_absent (w : Q -> Q) (k : string) (l : list (string * Q)) :
  ~ In k (map fst l) -> per_key w k l == 0.
Proof.
  unfold per_key. induction l as [|p l IH]; simpl; intro H.
  - reflexivity.
  - destruct (String.eqb_spec (fst p) k) as [E|_]; [tauto|].
    rewrite IH by tauto. ring.
Qed.

Lemma keep_nonzero_eq (q : Q) : keep_nonzero (Some q) == q.
Proof.
  unfold keep_nonzero. destruct (Qeq_bool q 0) eqn:E; simpl.
  - apply Qeq_bool_iff in E. now symmetry.
  - reflexivity.
Qed.

Lemma Qsum_zeros {A : Type} (l : list A) : Qsum (map (fun _ => 0) l) == 0.
Proof.
  induction l as [|a l IH]; [reflexivity|].
  cbn [map Qsum fold_right]. fold (Qsum (map (fun _ : A => 0) l)).
  rewrite IH. reflexivity.
Qed.

Lemma indicator_sum (k0 : string) (c : Q) (ks : list string) :
  NoDup ks -> In k0 ks ->
  Qsum (map (fun k => if String.eqb k0 k then c else 0) ks) == c.
Proof.
  induction 1 as [|k ks Hout Hnodup IH]; simpl; intro Hin.
  - contradiction.
  - destruct (String.eqb_spec k0 k) as [<-|Hne].
    + rewrite (Qsum_map_ext _ (fun _ => 0)).
      * rewrite Qsum_zeros. ring.
      * intros k Hk. destruct (String.eqb_spec k0 k) as [<-|_];
          [contradiction|reflexivity].
    + rewrite IH; [ring|]. destruct Hin; [congruence|assumption].
Qed.

Lemma per_key_total (w : Q -> Q) (ks : list string) (l : list (string * Q)) :
  NoDup ks -> (forall k, In k (map fst l) -> In k ks) ->
  Qsum (map (fun k => per_key w k l) ks) == Qsum (map (fun p => w (snd p)) l).
Proof.
  intros Hnodup. induction l as [|p l IH]; intro Hcover.
  - unfold per_key. cbn [map Qsum fold_right]. apply Qsum_zeros.
  - unfold per_key in *. cbn [map Qsum fold_right].
    fold (Qsum (map (fun p => w (snd p)) l)).
    rewrite (Qsum_map_plus
               (fun k => if String.eqb (fst p) k then w (snd p) else 0)
               (fun k => Qsum (map (fun p0 => if String.eqb (fst p0) k
                                              then w (snd p0) else 0) l)) ks).
    rewrite indicator_sum; [|assumption|apply Hcover; now left].
    rewrite IH; [reflexivity|]. intros k Hk. apply Hcover. now right.
Qed.

(** *** The concentration index *)

Lemma total_exposure_sum (l : list (string * Q)) :
  total_exposure l == Qsum (map (fun p => Qabs (snd p)) l).
Proof. unfold total_exposure. rewrite fold_left_Qsum. ring. Qed.

Lemma per_key_percent (total : Q) (k : string) (l : list (string * Q)) :
  0 < total ->
  per_key (percent_of total) k l == per_key Qabs k l / total * 100.
Proof.
  intro Hpos.
  assert (Hne : ~ total == 0)
    by (intro E; rewrite E in Hpos; now apply Qlt_irrefl in Hpos).
  unfold per_key. induction l as [|p l IH].
  - simpl. field. exact Hne.
  - cbn [map Qsum fold_right].
    fold (Qsum (map (fun p0 => if String.eqb (fst p0) k
                               then percent_of total (snd p0) else 0) l)).
    fold (Qsum (map (fun p0 => if String.eqb (fst p0) k
                               then Qabs (snd p0) else 0) l)).
    rewrite IH. unfold percent_of.
    destruct (String.eqb (fst p) k); field; exact Hne.
Qed.

Lemma exposure_on_nonneg (k : string) (l : list (string * Q)) :
  0 <= exposure_on k l.
Proof.
  apply Qsum_nonneg. intros x Hx. apply in_map_iff in Hx.
  destruct Hx as [p [<- _]].
  destruct (String.eqb (fst p) k); [apply Qabs_nonneg|discriminate].
Qed.

Lemma shares_sum_to_one (l : list (string * Q)) :
  0 < total_exposure l -> Qsum (map (fun k => share k l) (exchanges l)) == 1.
Proof.
  intro Hpos. unfold share, Qdiv.
  rewrite (Qsum_map_scale (/ total_exposure l) (fun k => exposure_on k l)).
  unfold exposure_on. rewrite per_key_total.
  - rewrite <- total_exposure_sum. field.
    intro E. rewrite E in Hpos. now apply Qlt_irrefl in Hpos.
  - apply NoDup_nodup.
  - intros k Hk. now apply nodup_In.
Qed.

Lemma per_key_nonneg (w : Q -> Q) (k : string) (l : list (string * Q)) :
  (forall v, 0 <= w v) -> 0 <= per_key w k l.
Proof.
  intro Hw. apply Qsum_nonneg. intros x Hx. apply in_map_iff in Hx.
  destruct Hx as [p [<- _]].
  destruct (String.eqb (fst p) k); [apply Hw|discriminate].
Qed.

Lemma percent_of_nonneg (T v : Q) : 0 < T -> 0 <= percent_of T v.
Proof.
  intro HT. unfold percent_of.
  apply Qmult_le_0_compat; [|discriminate].
  apply Qle_shift_div_l; [exact HT|]. rewrite Qmult_0_l. apply Qabs_nonneg.
Qed.

Lemma share_nonneg (k : string) (l : list (string * Q)) :
  0 < total_exposure l -> 0 <= share k l.
Proof.
  intro Hpos. unfold share. apply Qle_shift_div_l; [assumption|].
  rewrite Qmult_0_l. apply exposure_on_nonneg.
Qed.

Lemma squared_shares_range (l : list (string * Q)) :
  0 < total_exposure l ->
  1 / inject_Z (Z.of_nat (List.length (exchanges l))) <= squared_shares l /\
  squared_shares l <= 1.
Proof.
  intro Hpos. unfold squared_shares.
  rewrite <- (map_map (fun k => share k l) (fun x => x * x)).
  rewrite <- (length_map (fun k => share k l) (exchanges l)).
  split.
  - apply Qsum_squares_ge; [|now apply shares_sum_to_one].
    intro E. apply (f_equal Qsum) in E.
    pose proof (shares_sum_to_one l Hpos) as H1.
    rewrite E in H1. discriminate H1.
  - eapply Qle_trans; [apply Qsum_squares_le|].
    + intros x Hx. apply in_map_iff in Hx. destruct Hx as [k [<- _]].
      now apply share_nonneg.
    + rewrite shares_sum_to_one by assumption. discriminate.
Qed.

Lemma NoDup_keys_length (d l : list (string * Q)) :
  NoDup (map fst d) ->
  (forall k, In k (map fst d) -> In k (map fst l)) ->
  (List.length d <= List.length l)%nat.
Proof.
  intros Hnodup Hincl.
  rewrite <- (length_map fst d), <- (length_map fst l).
  now apply NoDup_incl_length.
Qed.

(** *** The computation on finite exposures *)

Section Risk.
Variable rnd : Q -> Q.
Variable pow : Q -> Q -> Q.

Lemma obj_get_entries (d : list (string * Q)) (k : string) :
  obj_get (map entry_of_fraction d) k
  = option_map (fun q => Rounded.DeltaUtils.Num (Fin q)) (obj_get d k).
Proof.
  induction d as [|[k0 q0] d IH]; simpl; [reflexivity|].
  now destruct (String.eqb k0 k).
Qed.

Lemma obj_set_entries (d : list (string * Q)) (k : string) (q : Q) :
  obj_set (map entry_of_fraction d) k (Rounded.DeltaUtils.Num (Fin q))
  = map entry_of_fraction (obj_set d k q).
Proof.
  induction d as [|[k0 q0] d IH]; simpl; [reflexivity|].
  destruct (String.eqb k0 k); simpl; [reflexivity|]. now rewrite IH.
Qed.

Lemma ordinary_not_proto (k : string) :
  inherited k = false -> String.eqb k "__proto__" = false.
Proof.
  intro H. destruct (String.eqb_spec k "__proto__") as [->|]; [|reflexivity].
  discriminate H.
Qed.

Lemma distribution_rounded (total : Q) (l d : list (string * Q)) :
  0 < total -> ordinary_names l ->
  fold_left
    (fun (distribution : Rounded.DeltaUtils.Distribution) pos =>
       Rounded.DeltaUtils.assign_key distribution (DeltaUtils.exchange pos)
         (Rounded.DeltaUtils.add_percent rnd distribution (DeltaUtils.exchange pos)
            (if (Fin total >? Fin 0)%num
             then Rounded.mul rnd
                    (Rounded.div rnd (Math_abs (DeltaUtils.value pos)) (Fin total))
                    (Fin 100)
             else Fin 0)))
    (positions_of l) (map entry_of_fraction d)
  = map entry_of_fraction (fold_left (assign_rounded rnd total) l d).
Proof.
  intros Hpos Hnames. revert d. induction l as [|p l IH]; intro d.
  - reflexivity.
  - cbn [positions_of map fold_left DeltaUtils.exchange DeltaUtils.value].
    fold (positions_of l). rewrite <- IH.
    2:{ intros p' Hp'. apply Hnames. now right. }
    f_equal.
    assert (Hp : inherited (fst p) = false)
      by (apply Hnames; now left).
    unfold Rounded.DeltaUtils.assign_key. rewrite (ordinary_not_proto _ Hp).
    unfold assign_rounded. rewrite <- obj_set_entries. f_equal.
    unfold Rounded.DeltaUtils.add_percent. rewrite obj_get_entries, Hp.
    assert (Hgt : (Fin total >? Fin 0)%num = true) by now apply Qlt_bool_iff.
    rewrite Hgt. cbn [Math_abs].
    rewrite (div_fin rnd) by lra. rewrite (mul_fin rnd).
    fold (percent_rounded rnd total (snd p)).
    destruct (obj_get d (fst p)) as [q|]; cbn [option_map keep_nonzero].
    + unfold or_else, truthy.
      destruct (Qeq_bool q 0); cbn [negb]; now rewrite (add_fin rnd).
    + now rewrite (add_fin rnd).
Qed.

Lemma Math_pow_square (x : Q) :
  Rounded.Math_pow pow (Fin x) (Fin 2) = Fin (square_rounded pow x).
Proof.
  unfold Rounded.Math_pow, square_rounded.
  change (Qeq_bool 2 0) with false. change (Qlt_bool 0 2) with true.
  change (is_integral 2) with true. cbv iota.
  destruct (Qeq_bool x 0); [reflexivity|].
  now rewrite andb_false_r.
Qed.

Lemma concentration_rounded (d : list (string * Q)) (start : Q) :
  fold_left
    (fun sum p =>
       Rounded.add rnd sum
         (Rounded.Math_pow pow
            (Rounded.div rnd (Rounded.DeltaUtils.entry_number p) (Fin 100)) (Fin 2)))
    (map snd (map entry_of_fraction d)) (Fin start)
  = Fin (fold_left
           (fun sum q => rnd (sum + square_rounded pow (rnd (q / 100))))
           (map snd d) start).
Proof.
  revert start. induction d as [|[k q] d IH]; intro start.
  - reflexivity.
  - cbn [map fold_left entry_of_fraction snd fst Rounded.DeltaUtils.entry_number].
    rewrite <- IH. f_equal.
    rewrite (div_fin rnd) by discriminate.
    rewrite Math_pow_square. now rewrite (add_fin rnd).
Qed.

Lemma total_rounded (l : list (string * Q)) (start : Q) :
  fold_left (fun sum p => Rounded.add rnd sum (Math_abs (DeltaUtils.value p)))
    (positions_of l) (Fin start)
  = Fin (fold_left (fun sum p => rnd (sum + Qabs (snd p))) l start).
Proof.
  revert start. induction l as [|p l IH]; intro start; simpl.
  - reflexivity.
  - rewrite <- IH. reflexivity.
Qed.

End Risk.

(** *** The roundings of the distribution and of the index *)

Section RiskBands.
Variable rnd : Q -> Q.
Hypothesis rnd_ok : rounds_to_nearest rnd.
Variable pow : Q -> Q -> Q.
Hypothesis pow_ok : squares_accurate pow.

Lemma total_within (l : list (string * Q)) (j : nat) (start total : Q) :
  0 <= total -> within j start total ->
  within (j + List.length l)
    (fold_left (fun sum p => rnd (sum + Qabs (snd p))) l start)
    (total + Qsum (map (fun p => Qabs (snd p)) l)).
Proof.
  revert j start total. induction l as [|p l IH]; intros j start total HS H.
  - cbn [fold_left map Qsum fold_right List.length].
    rewrite Nat.add_0_r. apply (within_comp j start total); [|exact H].
    unfold Qsum. simpl. ring.
  - cbn [fold_left map List.length].
    replace (j + S (List.length l))%nat with (S j + List.length l)%nat by lia.
    pose proof (Qabs_nonneg (snd p)) as Hv.
    apply (within_comp _ _ ((total + Qabs (snd p))
                            + Qsum (map (fun p => Qabs (snd p)) l))).
    { unfold Qsum. simpl. ring. }
    apply IH; [lra|].
    apply (within_rnd rnd rnd_ok); [lra|].
    apply within_add; [exact H|].
    apply (within_weaken 0 j); [lia|exact Hv|now apply within_refl].
Qed.

Lemma percent_within (m : nat) (t T v : Q) :
  0 < T -> 0 < t -> within m t T ->
  within (m + 2) (percent_rounded rnd t v) (percent_of T v).
Proof.
  intros HT Ht H. unfold percent_rounded, percent_of.
  pose proof (Qabs_nonneg v) as Hv.
  assert (Hq : 0 <= Qabs v / T).
  { apply Qle_shift_div_l; [exact HT|]. now rewrite Qmult_0_l. }
  replace (m + 2)%nat with (S (S (0 + m) + 0)) by lia.
  apply (within_rnd rnd rnd_ok).
  { apply Qmult_le_0_compat; [exact Hq|discriminate]. }
  apply within_mul; [exact Hq|discriminate| |apply within_refl; discriminate].
  apply (within_rnd rnd rnd_ok); [exact Hq|].
  apply within_div; try assumption. now apply within_refl.
Qed.

Lemma square_within (k : nat) (x X : Q) :
  0 <= X -> within k x X ->
  within (3 + (k + k)) (square_rounded pow x) (X * X).
Proof.
  intros HX H. pose proof (within_nonneg k x X HX H) as Hx.
  unfold square_rounded. destruct (Qeq_bool x 0) eqn:E.
  - apply Qeq_bool_iff in E.
    pose proof (within_zero k x X HX E H) as EX.
    apply (within_comp _ _ 0); [rewrite EX; ring|].
    split; rewrite Qmult_0_l; apply Qle_refl.
  - apply Qeq_bool_false_iff in E.
    assert (Hx0 : 0 < x) by (destruct (Qlt_le_dec 0 x); [assumption|exfalso; apply E; lra]).
    assert (Hxx : 0 <= x * x) by (apply Qmult_le_0_compat; lra).
    apply (within_trans 3 (k + k) _ (x * x)).
    + pose proof (pow_ok x Hx0) as Hp. apply Qabs_Qle_condition in Hp.
      unfold ulp_one in Hp.
      assert (unit_roundoff * (x * x) <= (1 # 4) * (x * x))
        by (apply Qmult_le_compat_r; [discriminate|exact Hxx]).
      lra.
    + pose proof (pow_ok x Hx0) as Hp. apply Qabs_Qle_condition in Hp.
      unfold ulp_one in Hp. destruct Hp as [Hpl Hph].
      set (u := unit_roundoff) in *.
      assert (Hu0 : 0 <= u) by discriminate.
      assert (Hu1 : u <= 1 # 4) by discriminate.
      set (s := x * x) in *.
      unfold within. cbn [shrink]. fold u.
      assert (Hsu : 0 <= s * u) by (apply Qmult_le_0_compat; lra).
      assert (Hsuu : 0 <= s * u * u) by (apply Qmult_le_0_compat; lra).
      assert (Hsuuu : 0 <= s * u * u * u) by (apply Qmult_le_0_compat; lra).
      assert (Hsu4 : s * u * u * u <= s * u * u * (1 # 4)).
      { rewrite !(Qmult_comm (s * u * u)). apply Qmult_le_compat_r; lra. }
      assert (Hsu2 : s * u <= s * (1 # 4)).
      { rewrite !(Qmult_comm s). apply Qmult_le_compat_r; lra. }
      assert (Hsu3 : s * u * u <= s * u * (1 # 4)).
      { rewrite !(Qmult_comm (s * u)). apply Qmult_le_compat_r; lra. }
      split.
      * setoid_replace (s * ((1 - u) * ((1 - u) * ((1 - u) * 1))))
          with (s - 3 * (s * u) + 3 * (s * u * u) - s * u * u * u) by ring.
        lra.
      * assert (Hp0 : 0 <= pow x 2) by lra.
        assert (Hc : 0 <= (1 - u) * ((1 - u) * ((1 - u) * 1))).
        { repeat apply Qmult_le_0_compat; lra. }
        eapply Qle_trans.
        { apply Qmult_le_compat_r; [|exact Hc].
          assert (Hph' : pow x 2 <= s + 2 * u * s) by lra. exact Hph'. }
        setoid_replace ((s + 2 * u * s) * ((1 - u) * ((1 - u) * ((1 - u) * 1))))
          with (s - s * u - 3 * (s * u * u) + 5 * (s * u * u * u)
                - 2 * (s * u * u * u) * u) by ring.
        assert (0 <= s * u * u * u * u) by (apply Qmult_le_0_compat; lra).
        lra.
    + apply within_mul; assumption.
Qed.

End RiskBands.

Section RiskTallies.
Variable rnd : Q -> Q.
Hypothesis rnd_ok : rounds_to_nearest rnd.
Variable pow : Q -> Q -> Q.
Hypothesis pow_ok : squares_accurate pow.

Lemma tallies_within_assign (m : nat) (t T : Q) (d seen : list (string * Q))
  (p : string * Q) :
  0 < T -> 0 < t -> within m t T ->
  tallies_within (m + 2) T d seen ->
  tallies_within (m + 2) T (assign_rounded rnd t d p) (seen ++ [p]).
Proof.
  intros HT Ht Htot [Hnodup [Hkeys Hvals]]. unfold assign_rounded.
  set (v := rnd (keep_nonzero (obj_get d (fst p)) + percent_rounded rnd t (snd p))).
  assert (Hlast : forall k,
            per_key (percent_of T) k [p] ==
            if String.eqb (fst p) k then percent_of T (snd p) else 0).
  { intro k. unfold per_key. simpl. ring. }
  assert (Hnn : forall k l, 0 <= per_key (percent_of T) k l).
  { intros k l. apply per_key_nonneg. intro x. now apply percent_of_nonneg. }
  assert (Hlen : (m + 2 + List.length (seen ++ [p]) = S (m + 2 + List.length seen))%nat).
  { rewrite length_app. simpl. lia. }
  assert (Hpct : within (m + 2 + List.length seen)
                   (percent_rounded rnd t (snd p)) (percent_of T (snd p))).
  { apply (within_weaken (m + 2)); [lia|now apply percent_of_nonneg|].
    now apply percent_within. }
  assert (Hv : within (S (m + 2 + List.length seen)) v
                 (per_key (percent_of T) (fst p) seen + percent_of T (snd p))).
  { subst v. apply (within_rnd rnd rnd_ok).
    { pose proof (Hnn (fst p) seen). pose proof (percent_of_nonneg T (snd p) HT). lra. }
    apply within_add; [|exact Hpct].
    destruct (obj_get d (fst p)) as [q0|] eqn:E.
    - apply (within_comp_l _ q0); [symmetry; apply keep_nonzero_eq|].
      now apply Hvals.
    - cbn [keep_nonzero].
      apply (within_comp _ _ 0).
      + symmetry. apply per_key_absent. apply obj_get_None in E.
        intro H. apply E. now apply Hkeys.
      + apply (within_weaken 0); [lia|discriminate|apply within_refl; discriminate]. }
  assert (Hother : forall k q, fst p <> k -> obj_get d k = Some q ->
            within (m + 2 + List.length (seen ++ [p])) q
              (per_key (percent_of T) k (seen ++ [p]))).
  { intros k q Hne Hq. rewrite Hlen.
    apply (within_comp _ _ (per_key (percent_of T) k seen)).
    - rewrite per_key_app, Hlast.
      apply String.eqb_neq in Hne. rewrite Hne. ring.
    - apply (within_weaken (m + 2 + List.length seen)); [lia|apply Hnn|].
      now apply Hvals. }
  assert (Hsame : within (m + 2 + List.length (seen ++ [p])) v
                    (per_key (percent_of T) (fst p) (seen ++ [p]))).
  { rewrite Hlen.
    apply (within_comp _ _ (per_key (percent_of T) (fst p) seen + percent_of T (snd p)));
      [|exact Hv].
    rewrite per_key_app, Hlast, String.eqb_refl. reflexivity. }
  assert (Hvalues : forall k q,
            obj_get (obj_set d (fst p) v) k = Some q ->
            within (m + 2 + List.length (seen ++ [p])) q
              (per_key (percent_of T) k (seen ++ [p]))).
  { intros k q H. destruct (String.eqb_spec (fst p) k) as [<-|Hne].
    - rewrite obj_get_set_same in H. injection H as <-. exact Hsame.
    - rewrite obj_get_set_other in H by assumption. now apply (Hother k q Hne). }
  destruct (in_dec string_dec (fst p) (map fst d)) as [Hin|Hout].
  - split; [|split; [|exact Hvalues]].
    + now rewrite obj_set_keys_present.
    + intro k.
      rewrite obj_set_keys_present, map_app, in_app_iff, Hkeys by assumption.
      simpl. split; [tauto|].
      intros [H|[<-|[]]]; [assumption|]. now apply Hkeys.
  - split; [|split; [|exact Hvalues]].
    + rewrite obj_set_keys_absent by assumption.
      apply NoDup_app; [assumption|repeat constructor; intros []|].
      intros k Hk [<-|[]]. contradiction.
    + intro k.
      rewrite obj_set_keys_absent, !map_app, !in_app_iff, Hkeys by assumption.
      simpl. tauto.
Qed.

Lemma tallies_within_fold (m : nat) (t T : Q) (rest d seen : list (string * Q)) :
  0 < T -> 0 < t -> within m t T ->
  tallies_within (m + 2) T d seen ->
  tallies_within (m + 2) T (fold_left (assign_rounded rnd t) rest d) (seen ++ rest).
Proof.
  intros HT Ht Htot. revert d seen.
  induction rest as [|p rest IH]; intros d seen H; simpl.
  - now rewrite app_nil_r.
  - replace (seen ++ p :: rest)%list with ((seen ++ [p]) ++ rest)%list
      by now rewrite <- app_assoc.
    apply IH. now apply tallies_within_assign.
Qed.

(** The sum of the rounded squares of the entries. *)
Lemma squares_within (J : nat) (F : string -> Q) (d : list (string * Q)) :
  (forall k, 0 <= F k) ->
  NoDup (map fst d) ->
  (forall k q, obj_get d k = Some q -> within J q (F k)) ->
  forall (i : nat) (start S0 : Q),
    0 <= S0 ->
    within (3 + (S (J + 0) + S (J + 0)) + i) start S0 ->
    within (3 + (S (J + 0) + S (J + 0)) + i + List.length d)
      (fold_left (fun sum q => rnd (sum + square_rounded pow (rnd (q / 100))))
         (map snd d) start)
      (S0 + Qsum (map (fun k => (F k / 100) * (F k / 100)) (map fst d))).
Proof.
  intros HF. induction d as [|[k0 q0] d IH]; intros Hnodup Hvals i start S0 HS Hstart.
  - cbn [map fold_left List.length]. rewrite Nat.add_0_r.
    apply (within_comp _ _ S0); [unfold Qsum; simpl; ring|exact Hstart].
  - cbn [map fold_left List.length fst snd].
    inversion Hnodup as [|? ? Hout Hnodup']; subst.
    set (W := (3 + (S (J + 0) + S (J + 0)))%nat) in *.
    replace (W + i + S (List.length d))%nat with (W + S i + List.length d)%nat by lia.
    assert (Hq0 : within J q0 (F k0)).
    { apply Hvals. simpl. now rewrite String.eqb_refl. }
    assert (Hshare : 0 <= F k0 / 100).
    { apply Qle_shift_div_l; [reflexivity|]. rewrite Qmult_0_l. apply HF. }
    assert (Hterm : within W (square_rounded pow (rnd (q0 / 100)))
                      ((F k0 / 100) * (F k0 / 100))).
    { subst W. apply (square_within pow pow_ok); [exact Hshare|].
      apply (within_rnd rnd rnd_ok); [exact Hshare|].
      apply within_div; [apply HF|reflexivity|reflexivity|exact Hq0|].
      apply within_refl. discriminate. }
    assert (Hsq : 0 <= (F k0 / 100) * (F k0 / 100))
      by (apply Qmult_le_0_compat; exact Hshare).
    apply (within_comp _ _
             ((S0 + (F k0 / 100) * (F k0 / 100))
              + Qsum (map (fun k => (F k / 100) * (F k / 100)) (map fst d)))).
    { unfold Qsum. simpl. ring. }
    apply IH; [exact Hnodup'| |lra|].
    + intros k q Hq. apply Hvals. simpl.
      destruct (String.eqb_spec k0 k) as [<-|Hne]; [|exact Hq].
      exfalso. apply Hout. now apply obj_get_In in Hq.
    + replace (W + S i)%nat with (S (W + i)) by lia.
      apply (within_rnd rnd rnd_ok); [lra|].
      apply within_add; [exact Hstart|].
      apply (within_weaken W); [lia|exact Hsq|exact Hterm].
Qed.

End RiskTallies.




(** * Further properties of the utility modules *)

(** ** Cooldown windows *)

(** X1.  [validateCooldownAmount] accepts a request exactly when it is
    positive and at most the balance not already locked; it always reports
    that ceiling as [maxAmount], and it carries an error message exactly
    when it rejects. *)
Theorem validateCooldownAmount_accepts :
  forall requestedAmount availableBalance existingCooldownAmount : Z,
    let v := CooldownUtils.validateCooldownAmount requestedAmount
               availableBalance existingCooldownAmount in
    (CooldownUtils.isValid v = true <->
     (0 < requestedAmount <= availableBalance - existingCooldownAmount)%Z) /\
    CooldownUtils.maxAmount v = (availableBalance - existingCooldownAmount)%Z /\
    (CooldownUtils.error v = None <-> CooldownUtils.isValid v = true).
Proof.
  intros requestedAmount availableBalance existingCooldownAmount v. subst v.
  unfold CooldownUtils.validateCooldownAmount.
  destruct (Z.leb_spec requestedAmount 0) as [Hle|Hgt]; cbn.
  - repeat split; try discriminate; intros; lia.
  - destruct (Z.gtb_spec requestedAmount
                (availableBalance - existingCooldownAmount)) as [Hover|Hfit]; cbn.
    + repeat split; try discriminate; intros; lia.
    + repeat split; try reflexivity; intros; lia.
Qed.

(** X2.  A [Date] holds at most 8.64e15 milliseconds either side of the
    epoch; beyond that it is the Invalid Date.  When the end date of a
    cooldown started at [t] is a valid date, the optimal start for that
    date is [new Date(t x 1000)]; when [t] plus the duration exceeds
    8.64e12 seconds in size, the end date and the optimal start for it are
    invalid.  For a valid target date whose optimal start is valid, that
    start plus the duration is the target rounded down to a whole
    second. *)
Theorem cooldown_dates_round_trip :
  forall (startTimestamp : Z) (duration : option Z),
    let d := default CooldownUtils.DEFAULT_COOLDOWN_DURATION duration in
    (forall ends : Z,
       CooldownUtils.calculateCooldownEndDate startTimestamp duration = Some ends ->
       CooldownUtils.calculateOptimalCooldownStart (Some ends) duration
       = new_Date (startTimestamp * 1000)) /\
    ((8640000000000 < Z.abs (startTimestamp + d))%Z ->
     CooldownUtils.calculateCooldownEndDate startTimestamp duration = None /\
     CooldownUtils.calculateOptimalCooldownStart
       (CooldownUtils.calculateCooldownEndDate startTimestamp duration) duration = None) /\
    (forall target start : Z,
       (Z.abs target <= 8640000000000000)%Z ->
       CooldownUtils.calculateOptimalCooldownStart (Some target) duration = Some start ->
       exists ends : Z,
         CooldownUtils.calculateCooldownEndDate (start / 1000) duration = Some ends /\
         (ends <= target < ends + 1000)%Z).
Proof.
  intros startTimestamp duration d.
  unfold CooldownUtils.calculateOptimalCooldownStart, CooldownUtils.calculateCooldownEndDate,
    new_Date.
  fold d. split; [|split].
  - intros ends H.
    destruct (Z.leb_spec (Z.abs ((startTimestamp + d) * 1000))
                8640000000000000) as [_|_]; [|discriminate].
    injection H as <-.
    rewrite Z.div_mul by discriminate.
    replace (startTimestamp + d - d)%Z with startTimestamp by lia.
    reflexivity.
  - intro Hbig.
    destruct (Z.leb_spec (Z.abs ((startTimestamp + d) * 1000))
                8640000000000000) as [Hle|_]; [lia|].
    split; reflexivity.
  - intros target start Hvalid H.
    destruct (Z.leb_spec (Z.abs ((target / 1000 - d) * 1000))
                8640000000000000) as [_|_]; [|discriminate].
    injection H as <-.
    rewrite Z.div_mul by discriminate.
    replace (target / 1000 - d + d)%Z with (target / 1000)%Z by lia.
    pose proof (Z.div_mod target 1000 ltac:(discriminate)).
    pose proof (Z.mod_pos_bound target 1000 ltac:(reflexivity)).
    destruct (Z.leb_spec (Z.abs (target / 1000 * 1000))
                8640000000000000) as [_|Hout]; [|lia].
    eexists. split; [reflexivity|]. lia.
Qed.

Lemma cooldown_dates_round_trip_witness :
  (CooldownUtils.calculateCooldownEndDate 10000000000000 None = None /\
   CooldownUtils.calculateOptimalCooldownStart
     (CooldownUtils.calculateCooldownEndDate 10000000000000 None) None = None) /\
  CooldownUtils.calculateOptimalCooldownStart (Some 1700604800000%Z) None
  = new_Date (1700000000 * 1000) /\
  exists ends : Z,
    CooldownUtils.calculateCooldownEndDate (1699395200000 / 1000) None = Some ends /\
    (ends <= 1700000000123 < ends + 1000)%Z.
Proof.
  split; [|split].
  - apply (proj1 (proj2 (cooldown_dates_round_trip 10000000000000 None))).
    reflexivity.
  - apply (proj1 (cooldown_dates_round_trip 1700000000 None)). reflexivity.
  - apply (proj2 (proj2 (cooldown_dates_round_trip 0 None))
             1700000000123%Z 1699395200000%Z).
    + discriminate.
    + reflexivity.
Defined.

(** X3.  In the status of a cooldown, [canWithdraw] is [isActive] together
    with [isCooldownComplete]; [remainingSeconds] is never negative and is 0
    exactly from the end of the window on; and whenever the cooldown can be
    withdrawn, nothing remains and the remaining time reads "Ready". *)
Theorem calculateCooldownStatus_withdrawable :
  forall (Date_now cooldownStart cooldownEnd cooldownAmount : Z)
         (currentTimestamp : option Z),
    let now := CooldownUtils.current_time Date_now currentTimestamp in
    let status :=
      CooldownUtils.calculateCooldownStatus Date_now cooldownStart cooldownEnd
        cooldownAmount currentTimestamp in
    CooldownUtils.canWithdraw status =
      (CooldownUtils.isActive status &&
       CooldownUtils.isCooldownComplete Date_now cooldownEnd currentTimestamp)%bool /\
    (0 <= CooldownUtils.remainingSeconds status)%Z /\
    (CooldownUtils.remainingSeconds status = 0%Z <-> (cooldownEnd <= now)%Z) /\
    (CooldownUtils.canWithdraw status = true ->
     CooldownUtils.remainingSeconds status = 0%Z /\
     CooldownUtils.remainingFormatted status = "Ready"%string).
Proof.
  intros Date_now cooldownStart cooldownEnd cooldownAmount currentTimestamp
         now status.
  subst status.
  unfold CooldownUtils.calculateCooldownStatus, CooldownUtils.isCooldownComplete.
  cbn [CooldownUtils.canWithdraw CooldownUtils.isActive
       CooldownUtils.remainingSeconds CooldownUtils.remainingFormatted].
  fold now.
  split; [reflexivity|]. split; [lia|]. split; [lia|].
  intro H. apply andb_true_iff in H. destruct H as [_ H].
  apply Z.geb_le in H.
  assert (E : Z.max 0 (cooldownEnd - now) = 0%Z) by lia.
  rewrite E. split; reflexivity.
Qed.

Lemma calculateCooldownStatus_withdrawable_witness :
  CooldownUtils.remainingSeconds
    (CooldownUtils.calculateCooldownStatus 0 1000 2000 5 (Some 2500%Z)) = 0%Z /\
  CooldownUtils.remainingFormatted
    (CooldownUtils.calculateCooldownStatus 0 1000 2000 5 (Some 2500%Z))
  = "Ready"%string.
Proof.
  apply (calculateCooldownStatus_withdrawable 0 1000 2000 5 (Some 2500%Z)).
  reflexivity.
Defined.

Lemma Math_round_hundredths (x : Q) :
  (Math_round (Fin x * Fin 100) / Fin 100)%num = Fin (round2 x).
Proof. reflexivity. Qed.

Lemma elapsed_share_nonneg (elapsed total : Z) :
  (0 <= elapsed)%Z -> (0 < total)%Z ->
  0 <= inject_Z elapsed / inject_Z total * 100.
Proof.
  intros He Ht.
  apply Qmult_le_0_compat; [|discriminate].
  apply Qle_shift_div_l.
  - change 0 with (inject_Z 0). now rewrite <- Zlt_Qlt.
  - rewrite Qmult_0_l. change 0 with (inject_Z 0). now rewrite <- Zle_Qle.
Qed.

Lemma round2_whole (z : Z) : round2 (inject_Z z) == inject_Z z.
Proof.
  unfold round2.
  assert (E : Qfloor (inject_Z z * 100 + (1 # 2)) = (z * 100)%Z).
  { apply Z.le_antisymm.
    - apply Z.lt_succ_r. rewrite Zlt_Qlt.
      eapply Qle_lt_trans; [apply Qfloor_le|].
      unfold Z.succ. rewrite inject_Z_plus, inject_Z_mult.
      change (inject_Z 100) with 100. change (inject_Z 1) with 1. lra.
    - rewrite <- (Qfloor_Z (z * 100)). apply Qfloor_resp_le.
      rewrite inject_Z_mult. change (inject_Z 100) with 100. lra. }
  rewrite E, inject_Z_mult. change (inject_Z 100) with 100. field.
Qed.

Lemma round2_mono (x y : Q) : x <= y -> round2 x <= round2 y.
Proof.
  intro H. unfold round2.
  apply Qmult_le_compat_r; [|discriminate].
  rewrite <- Zle_Qle. apply Qfloor_resp_le. lra.
Qed.

(** X4.  Once [now] has reached the start of a cooldown, the [progress] of
    its status lies between 0 and 100, and it is exactly 100 from the end
    of a non-empty window on. *)
Theorem calculateCooldownStatus_progress_range :
  forall (Date_now cooldownStart cooldownEnd cooldownAmount : Z)
         (currentTimestamp : option Z),
    let now := CooldownUtils.current_time Date_now currentTimestamp in
    let status :=
      CooldownUtils.calculateCooldownStatus Date_now cooldownStart cooldownEnd
        cooldownAmount currentTimestamp in
    (cooldownStart <= now)%Z ->
    exists p,
      CooldownUtils.progress status = Fin p /\
      0 <= p <= 100 /\
      ((cooldownStart < cooldownEnd <= now)%Z -> p == 100).
Proof.
  intros Date_now cooldownStart cooldownEnd cooldownAmount currentTimestamp
         now status Hnow.
  subst status. unfold CooldownUtils.calculateCooldownStatus.
  cbn [CooldownUtils.progress]. fold now.
  destruct (Z.gtb_spec (cooldownEnd - cooldownStart) 0) as [Hpos|Hle].
  - unfold of_Z.
    rewrite ndiv_fin by (intro E; unfold Qeq in E; simpl in E; lia).
    cbn [nmul].
    pose proof (elapsed_share_nonneg (now - cooldownStart)
                  (cooldownEnd - cooldownStart) ltac:(lia) ltac:(lia)) as Hshare.
    set (share := inject_Z (now - cooldownStart)
                  / inject_Z (cooldownEnd - cooldownStart) * 100) in *.
    unfold Math_min, nleb.
    destruct (Qle_bool 100 share) eqn:E.
    + rewrite Math_round_hundredths. eexists. split; [reflexivity|].
      change 100 with (inject_Z 100). rewrite round2_whole.
      repeat split; discriminate.
    + apply Qle_bool_false_iff in E.
      rewrite Math_round_hundredths. eexists. split; [reflexivity|].
      split; [split|].
      * change 0 with (inject_Z 0) at 1. rewrite <- (round2_whole 0).
        now apply round2_mono.
      * change 100 with (inject_Z 100). rewrite <- (round2_whole 100).
        apply round2_mono. now apply Qlt_le_weak.
      * intros [Hlt Hend]. exfalso.
        assert (Hfull : 100 <= share).
        { subst share.
          assert (Hd : 0 < inject_Z (cooldownEnd - cooldownStart)).
          { change 0 with (inject_Z 0). rewrite <- Zlt_Qlt. lia. }
          assert (Hratio : 1 <= inject_Z (now - cooldownStart)
                                / inject_Z (cooldownEnd - cooldownStart)).
          { apply Qle_shift_div_l; [exact Hd|].
            rewrite Qmult_1_l, <- Zle_Qle. lia. }
          lra. }
        lra.
  - exists (round2 0). split; [reflexivity|].
    repeat split; try discriminate. intros [Hlt _]. lia.
Qed.

Lemma calculateCooldownStatus_progress_range_witness :
  exists p,
    CooldownUtils.progress
      (CooldownUtils.calculateCooldownStatus 0 1000 2000 5 (Some 2500%Z)) = Fin p /\
    0 <= p <= 100 /\
    ((1000 < 2000 <= 2500)%Z -> p == 100).
Proof.
  apply (calculateCooldownStatus_progress_range 0 1000 2000 5 (Some 2500%Z)).
  discriminate.
Defined.

(** X5.  From one day on, [formatDuration] does not show the seconds: the
    text of a duration of at least 86400 seconds is the text of that
    duration cut down to a whole minute. *)
Theorem formatDuration_drops_seconds :
  forall seconds : Z,
    (86400 <= seconds)%Z ->
    CooldownUtils.formatDuration seconds =
    CooldownUtils.formatDuration (seconds - Z.rem seconds 60).
Proof.
  intros seconds H.
  assert (Hrem : forall m, (0 < m)%Z -> Z.rem seconds m = (seconds mod m)%Z)
    by (intros m Hm; apply Z.rem_mod_nonneg; lia).
  rewrite (Hrem 60%Z) by reflexivity.
  set (cut := (seconds - seconds mod 60)%Z).
  assert (Hcut : (86400 <= cut)%Z) by (subst cut; Z.div_mod_to_equations; lia).
  assert (Hrem' : forall m, (0 < m)%Z -> Z.rem cut m = (cut mod m)%Z)
    by (intros m Hm; apply Z.rem_mod_nonneg; lia).
  unfold CooldownUtils.formatDuration.
  rewrite !Hrem, !Hrem' by reflexivity.
  assert (Ed : (cut / 86400 = seconds / 86400)%Z)
    by (subst cut; Z.div_mod_to_equations; lia).
  assert (Eh : (cut mod 86400 / 3600 = seconds mod 86400 / 3600)%Z)
    by (subst cut; Z.div_mod_to_equations; lia).
  assert (Em : (cut mod 3600 / 60 = seconds mod 3600 / 60)%Z)
    by (subst cut; Z.div_mod_to_equations; lia).
  assert (Hdays : (seconds / 86400 =? 0)%Z = false).
  { apply Z.eqb_neq. Z.div_mod_to_equations. lia. }
  rewrite Ed, Eh, Em, Hdays, !andb_false_r.
  destruct (Z.leb_spec seconds 0); [lia|].
  destruct (Z.leb_spec cut 0); [lia|].
  reflexivity.
Qed.

Lemma formatDuration_drops_seconds_witness :
  CooldownUtils.formatDuration 90061 =
  CooldownUtils.formatDuration (90061 - Z.rem 90061 60).
Proof. apply formatDuration_drops_seconds. discriminate. Defined.

(** ** Seasons *)

(** X6.  [getSeasonTimeRemaining] reports "Season Ended" with all fields 0
    exactly when the end date is not after the clock.  Otherwise the fields
    are a breakdown of the time left: hours below 24, minutes below 60, and
    days, hours and minutes together are the time left cut down to a whole
    minute. *)
Theorem getSeasonTimeRemaining_breakdown :
  forall Date_now endDate : Z,
    let r := PointsUtils.getSeasonTimeRemaining Date_now endDate in
    ((endDate <= Date_now)%Z ->
     r = {| PointsUtils.days := 0; PointsUtils.hours := 0;
            PointsUtils.minutes := 0;
            PointsUtils.formatted := "Season Ended" |}) /\
    ((Date_now < endDate)%Z ->
     (0 <= PointsUtils.days r)%Z /\
     (0 <= PointsUtils.hours r < 24)%Z /\
     (0 <= PointsUtils.minutes r < 60)%Z /\
     (let whole :=
        (PointsUtils.days r * 86400000 + PointsUtils.hours r * 3600000
         + PointsUtils.minutes r * 60000)%Z in
      whole <= endDate - Date_now < whole + 60000)%Z).
Proof.
  intros Date_now endDate r. subst r.
  unfold PointsUtils.getSeasonTimeRemaining.
  split; intro H.
  - destruct (Z.leb_spec (endDate - Date_now) 0); [reflexivity|lia].
  - destruct (Z.leb_spec (endDate - Date_now) 0) as [Hle|Hpos]; [lia|].
    cbn [PointsUtils.days PointsUtils.hours PointsUtils.minutes].
    set (diff := (endDate - Date_now)%Z) in *.
    change (1000 * 60 * 60 * 24)%Z with 86400000%Z.
    change (1000 * 60 * 60)%Z with 3600000%Z.
    change (1000 * 60)%Z with 60000%Z.
    rewrite !Z.rem_mod_nonneg by lia.
    cbv zeta. Z.div_mod_to_equations. lia.
Qed.

Lemma getSeasonTimeRemaining_breakdown_witness :
  PointsUtils.getSeasonTimeRemaining 2000 1000 =
    {| PointsUtils.days := 0; PointsUtils.hours := 0; PointsUtils.minutes := 0;
       PointsUtils.formatted := "Season Ended" |} /\
  (let r := PointsUtils.getSeasonTimeRemaining 1000 100000000 in
   (0 <= PointsUtils.days r)%Z /\
   (0 <= PointsUtils.hours r < 24)%Z /\
   (0 <= PointsUtils.minutes r < 60)%Z /\
   (let whole :=
      (PointsUtils.days r * 86400000 + PointsUtils.hours r * 3600000
       + PointsUtils.minutes r * 60000)%Z in
    whole <= 100000000 - 1000 < whole + 60000)%Z).
Proof.
  split.
  - apply (proj1 (getSeasonTimeRemaining_breakdown 2000 1000)). discriminate.
  - apply (proj2 (getSeasonTimeRemaining_breakdown 1000 100000000)).
    reflexivity.
Defined.

(** ** Tiers *)

(** On a finite balance the tier search is a chain of comparisons. *)
Lemma getMultiplierTier_fin (s : Q) :
  PointsUtils.getMultiplierTier (Fin s) =
  if Qle_bool 1000000 s then
    {| PointsUtils.tier := "diamond"; PointsUtils.multiplier := Fin 5.0;
       PointsUtils.nextTier := None; PointsUtils.satsToNextTier := None |}
  else if Qle_bool 500000 s then
    {| PointsUtils.tier := "platinum"; PointsUtils.multiplier := Fin 3.0;
       PointsUtils.nextTier := Some "diamond"%string;
       PointsUtils.satsToNextTier := Some (Fin (1000000 + - s)) |}
  else if Qle_bool 100000 s then
    {| PointsUtils.tier := "gold"; PointsUtils.multiplier := Fin 2.0;
       PointsUtils.nextTier := Some "platinum"%string;
       PointsUtils.satsToNextTier := Some (Fin (500000 + - s)) |}
  else if Qle_bool 25000 s then
    {| PointsUtils.tier := "silver"; PointsUtils.multiplier := Fin 1.5;
       PointsUtils.nextTier := Some "gold"%string;
       PointsUtils.satsToNextTier := Some (Fin (100000 + - s)) |}
  else if Qle_bool 5000 s then
    {| PointsUtils.tier := "bronze"; PointsUtils.multiplier := Fin 1.25;
       PointsUtils.nextTier := Some "silver"%string;
       PointsUtils.satsToNextTier := Some (Fin (25000 + - s)) |}
  else if Qle_bool 0 s then
    {| PointsUtils.tier := "base"; PointsUtils.multiplier := Fin 1.0;
       PointsUtils.nextTier := Some "bronze"%string;
       PointsUtils.satsToNextTier := Some (Fin (5000 + - s)) |}
  else
    {| PointsUtils.tier := "base"; PointsUtils.multiplier := Fin 1;
       PointsUtils.nextTier := None; PointsUtils.satsToNextTier := None |}.
Proof. reflexivity. Qed.

(** Splits on every comparison of a threshold with [s] and turns the
    outcomes into inequalities. *)
Ltac tier_cases s :=
  repeat
    match goal with
    | |- context [Qle_bool ?q s] =>
        let E := fresh "E" in
        destruct (Qle_bool q s) eqn:E;
        [apply Qle_bool_iff in E | apply Qle_bool_false_iff in E]
    end.

(** X7.  The multiplier never falls as the balance grows, and it stays
    between 1 and 5. *)
Theorem getMultiplierTier_monotone :
  forall s1 s2 : Q,
    s1 <= s2 ->
    exists m1 m2,
      PointsUtils.multiplier (PointsUtils.getMultiplierTier (Fin s1)) = Fin m1 /\
      PointsUtils.multiplier (PointsUtils.getMultiplierTier (Fin s2)) = Fin m2 /\
      1 <= m1 /\ m1 <= m2 /\ m2 <= 5.
Proof.
  intros s1 s2 H. rewrite !getMultiplierTier_fin.
  tier_cases s1; tier_cases s2;
    cbn [PointsUtils.multiplier];
    try (exfalso; lra);
    do 2 eexists; (split; [reflexivity|]); (split; [reflexivity|]);
    repeat split; discriminate.
Qed.

Lemma getMultiplierTier_monotone_witness :
  exists m1 m2,
    PointsUtils.multiplier (PointsUtils.getMultiplierTier (Fin 4000)) = Fin m1 /\
    PointsUtils.multiplier (PointsUtils.getMultiplierTier (Fin 600000)) = Fin m2 /\
    1 <= m1 /\ m1 <= m2 /\ m2 <= 5.
Proof. apply getMultiplierTier_monotone. discriminate. Defined.

Lemma getMultiplierTier_tier_comp (s s' : Q) :
  s == s' ->
  PointsUtils.tier (PointsUtils.getMultiplierTier (Fin s)) =
  PointsUtils.tier (PointsUtils.getMultiplierTier (Fin s')).
Proof.
  intro H. rewrite !getMultiplierTier_fin.
  tier_cases s; tier_cases s'; try reflexivity; exfalso; lra.
Qed.

(** X8.  Whenever [getMultiplierTier] reports a distance to the next tier
    for a finite non-negative balance, that distance is positive, and
    earning exactly that much puts the balance in the reported next
    tier. *)
Theorem getMultiplierTier_next_tier_reached :
  forall (s : Q) (gap : number),
    0 <= s ->
    PointsUtils.satsToNextTier (PointsUtils.getMultiplierTier (Fin s))
      = Some gap ->
    exists k,
      gap = Fin k /\ 0 < k /\
      PointsUtils.nextTier (PointsUtils.getMultiplierTier (Fin s)) =
      Some (PointsUtils.tier (PointsUtils.getMultiplierTier (Fin s + gap)%num)).
Proof.
  intros s gap Hs. rewrite getMultiplierTier_fin.
  tier_cases s; cbn [PointsUtils.satsToNextTier PointsUtils.nextTier];
    intro Hgap; try discriminate Hgap; try (exfalso; lra);
    injection Hgap as <-; eexists; (split; [reflexivity|]);
    (split; [lra|]); cbn [nadd];
    match goal with
    | |- context [s + (?t + - s)] =>
        rewrite (getMultiplierTier_tier_comp (s + (t + - s)) t) by ring
    end;
    reflexivity.
Qed.

Lemma getMultiplierTier_next_tier_reached_witness :
  exists k,
    Fin (5000 + - 4000) = Fin k /\ 0 < k /\
    PointsUtils.nextTier (PointsUtils.getMultiplierTier (Fin 4000)) =
    Some (PointsUtils.tier
            (PointsUtils.getMultiplierTier (Fin 4000 + Fin (5000 + - 4000))%num)).
Proof.
  apply (getMultiplierTier_next_tier_reached 4000 (Fin (5000 + - 4000))).
  - discriminate.
  - reflexivity.
Defined.

(** X9.  The base tier comes in two shapes.  A balance that is not [>= 0]
    (negative, or NaN) falls through the table: base, multiplier 1, and no
    next tier.  A finite balance from 0 up to, but not including, 5000 is
    base with bronze as next tier, 5000 minus the balance away. *)
Theorem getMultiplierTier_base_shapes :
  (forall totalSats : number,
     (totalSats >=? Fin 0)%num = false ->
     PointsUtils.getMultiplierTier totalSats =
     {| PointsUtils.tier := "base"; PointsUtils.multiplier := Fin 1;
        PointsUtils.nextTier := None; PointsUtils.satsToNextTier := None |}) /\
  (forall s : Q,
     0 <= s -> s < 5000 ->
     PointsUtils.getMultiplierTier (Fin s) =
     {| PointsUtils.tier := "base"; PointsUtils.multiplier := Fin 1.0;
        PointsUtils.nextTier := Some "bronze"%string;
        PointsUtils.satsToNextTier := Some (Fin (5000 - s)) |}).
Proof.
  split.
  - intros [ | | |s] H; try reflexivity; try discriminate H.
    rewrite getMultiplierTier_fin.
    unfold ngeb in H. cbn [nleb] in H. apply Qle_bool_false_iff in H.
    tier_cases s; try (exfalso; lra). reflexivity.
  - intros s H0 H1. rewrite getMultiplierTier_fin.
    tier_cases s; try (exfalso; lra). reflexivity.
Qed.

Lemma getMultiplierTier_base_shapes_witness :
  PointsUtils.getMultiplierTier (Fin (-3)) =
    {| PointsUtils.tier := "base"; PointsUtils.multiplier := Fin 1;
       PointsUtils.nextTier := None; PointsUtils.satsToNextTier := None |} /\
  PointsUtils.getMultiplierTier (Fin 4000) =
    {| PointsUtils.tier := "base"; PointsUtils.multiplier := Fin 1.0;
       PointsUtils.nextTier := Some "bronze"%string;
       PointsUtils.satsToNextTier := Some (Fin (5000 - 4000)) |}.
Proof.
  split.
  - apply (proj1 getMultiplierTier_base_shapes). reflexivity.
  - apply (proj2 getMultiplierTier_base_shapes); [discriminate|reflexivity].
Defined.

(** ** Daily earnings *)

Lemma neqb_fin_zero (q : Q) : neqb (Fin q) (Fin 0) = Qeq_bool q 0.
Proof. reflexivity. Qed.

(** X12.  For one day of holding, [calculateDailyEarnings] and
    [calculateHoldingSats] agree when the multiplier is omitted or is not
    zero.  A multiplier of 0 is where they part: [calculateDailyEarnings]
    reads it as 1 ([multiplier || 1]) and [calculateHoldingSats], whose
    default applies only to an omitted argument, earns nothing. *)
Theorem calculateDailyEarnings_zero_multiplier :
  forall usdeBalance : Q,
    let daily (m : option number) :=
      PointsUtils.calculateDailyEarnings
        [{| PointsUtils.a_type := PointsUtils.HOLD_USDE;
            PointsUtils.a_amount := Fin usdeBalance;
            PointsUtils.a_multiplier := m |}] in
    let holding (m : option number) :=
      PointsUtils.calculateHoldingSats (Fin usdeBalance) (Fin 1) m in
    daily None =n= holding None /\
    (forall m : Q, ~ m == 0 ->
       daily (Some (Fin m)) =n= holding (Some (Fin m))) /\
    daily (Some (Fin 0)) =n= daily None /\
    daily None =n= Fin (usdeBalance / 1000 * 10) /\
    holding (Some (Fin 0)) =n= Fin 0.
Proof.
  intros usdeBalance daily holding. subst daily holding.
  unfold PointsUtils.calculateDailyEarnings, PointsUtils.calculateHoldingSats.
  cbn [fold_left PointsUtils.a_type PointsUtils.a_amount PointsUtils.a_multiplier
       PointsUtils.BASE_EARNING_RATES default].
  rewrite !(ndiv_fin usdeBalance 1000) by discriminate.
  change (or_else (Fin 10) (Fin 0)) with (Fin 10).
  change (or_else (Fin 0) (Fin 1)) with (Fin 1).
  cbn [nadd nmul num_eq].
  repeat split; try ring.
  intros m Hm. unfold or_else, truthy.
  apply Qeq_bool_false_iff in Hm. rewrite Hm. cbn [negb nmul nadd num_eq]. ring.
Qed.

Lemma calculateDailyEarnings_zero_multiplier_witness :
  PointsUtils.calculateDailyEarnings
    [{| PointsUtils.a_type := PointsUtils.HOLD_USDE;
        PointsUtils.a_amount := Fin 10000;
        PointsUtils.a_multiplier := Some (Fin 2) |}]
  =n= PointsUtils.calculateHoldingSats (Fin 10000) (Fin 1) (Some (Fin 2)).
Proof.
  apply (calculateDailyEarnings_zero_multiplier 10000). discriminate.
Defined.

(** ** Delta and hedging *)

Lemma Qabs_scaled_lt (s x c : Q) :
  0 < s -> (Qabs (s * x) < s * c <-> Qabs x < c).
Proof.
  intro Hs. rewrite Qabs_Qmult, (Qabs_pos s) by now apply Qlt_le_weak.
  now apply Qmult_lt_l.
Qed.

Lemma Qlt_bool_false_iff (a b : Q) : Qlt_bool a b = false <-> b <= a.
Proof.
  unfold Qlt_bool. rewrite negb_false_iff. apply Qle_bool_iff.
Qed.

(** X15.  With a positive spot value [calculateRebalanceAmount] answers
    [none] exactly when the delta is within 0.001 of the target, and then
    it leaves the perpetual value as it is.  With a spot value of zero or
    below it never answers [none], not even for a book that is already on
    target. *)
Theorem calculateRebalanceAmount_band :
  forall spot perp target : Q,
    let r := DeltaUtils.calculateRebalanceAmount (Fin spot) (Fin perp)
               (Some (Fin target)) in
    (0 < spot ->
     (DeltaUtils.action r = DeltaUtils.none <->
      Qabs ((spot + perp) / spot - target) < 0.001)) /\
    (DeltaUtils.action r = DeltaUtils.none ->
     DeltaUtils.amount r = Fin 0 /\ DeltaUtils.newPerpValue r = Fin perp) /\
    (spot <= 0 -> DeltaUtils.action r <> DeltaUtils.none).
Proof.
  intros spot perp target r. subst r.
  unfold DeltaUtils.calculateRebalanceAmount.
  cbn [default nsub nadd nneg nmul Math_abs nltb].
  set (reb := spot * (target + - (1)) + - perp).
  split; [|split].
  - intro Hs.
    assert (Hreb : reb == spot * - ((spot + perp) / spot - target)).
    { subst reb. field. intro E. rewrite E in Hs. now apply Qlt_irrefl in Hs. }
    assert (Hiff : Qabs reb < spot * 0.001 <->
                   Qabs ((spot + perp) / spot - target) < 0.001).
    { rewrite Hreb, Qabs_scaled_lt, Qabs_opp by assumption. reflexivity. }
    destruct (Qlt_bool (Qabs reb) (spot * 0.001)) eqn:E.
    + apply Qlt_bool_iff in E. cbn [DeltaUtils.action].
      split; [intros _; now apply Hiff|reflexivity].
    + apply Qlt_bool_false_iff in E. cbn [DeltaUtils.action].
      split.
      * destruct (Qlt_bool reb 0); discriminate.
      * intro H. apply Hiff in H. exfalso. apply (Qlt_not_le _ _ H E).
  - destruct (Qlt_bool (Qabs reb) (spot * 0.001)).
    + intros _. split; reflexivity.
    + cbn [DeltaUtils.action]. destruct (Qlt_bool reb 0); discriminate.
  - intro Hs.
    destruct (Qlt_bool (Qabs reb) (spot * 0.001)) eqn:E.
    + apply Qlt_bool_iff in E. exfalso.
      pose proof (Qabs_nonneg reb) as Hn. lra.
    + cbn [DeltaUtils.action]. destruct (Qlt_bool reb 0); discriminate.
Qed.

Lemma calculateRebalanceAmount_band_witness :
  (DeltaUtils.action
     (DeltaUtils.calculateRebalanceAmount (Fin 1000) (Fin (-1000)) (Some (Fin 0)))
   = DeltaUtils.none <->
   Qabs ((1000 + -1000) / 1000 - 0) < 0.001) /\
  DeltaUtils.action
    (DeltaUtils.calculateRebalanceAmount (Fin 0) (Fin 0) (Some (Fin 0)))
  <> DeltaUtils.none.
Proof.
  split.
  - apply (proj1 (calculateRebalanceAmount_band 1000 (-1000) 0)). reflexivity.
  - apply (proj2 (proj2 (calculateRebalanceAmount_band 0 0 0))). discriminate.
Defined.

(** ** Allocation across exchanges *)

Lemma Math_min_fin (a b : Q) :
  exists m, Math_min (Fin a) (Fin b) = Fin m /\ m <= a /\ m <= b /\
            (m == a \/ m == b).
Proof.
  unfold Math_min. cbn [nleb].
  destruct (Qle_bool a b) eqn:E.
  - apply Qle_bool_iff in E. exists a.
    split; [reflexivity|]. split; [lra|]. split; [lra|]. left. reflexivity.
  - apply Qle_bool_false_iff in E. exists b.
    split; [reflexivity|]. split; [lra|]. split; [lra|]. right. reflexivity.
Qed.

Lemma total_liquidity_fin (exs : list (string * Q * Q * Q)) (start : Q) :
  fold_left (fun sum e => (sum + DeltaUtils.liquidity e)%num)
    (map exchange_of exs) (Fin start)
  = Fin (fold_left (fun sum e => sum + liquidity_of e) exs start).
Proof.
  revert start. induction exs as [|e exs IH]; intro start.
  - reflexivity.
  - cbn [map fold_left]. apply IH.
Qed.

Lemma allocate_within (totalSize totalLiquidity : Q)
  (exs : list (string * Q * Q * Q)) :
  0 <= totalSize -> 0 < totalLiquidity ->
  (forall e, In e exs -> 0 <= liquidity_of e /\ 0 <= cap_of e) ->
  forall remaining : Q,
    0 <= remaining ->
    exists allocs,
      map DeltaUtils.allocation
        (DeltaUtils.allocate (Fin totalSize) (Fin totalLiquidity)
           (map exchange_of exs) (Fin remaining)) = map Fin allocs /\
      Forall2 (fun a e => 0 <= a /\ a <= cap_of e /\
                          a <= liquidity_of e / totalLiquidity * totalSize)
        allocs exs /\
      Qsum allocs <= remaining.
Proof.
  intros HT HL. induction exs as [|e exs IH]; intros Hin remaining Hrem.
  - exists []. split; [reflexivity|]. split; [constructor|exact Hrem].
  - cbn [map DeltaUtils.allocate DeltaUtils.allocation exchange_of
         DeltaUtils.liquidity DeltaUtils.maxPosition].
    fold (liquidity_of e). fold (cap_of e).
    destruct (Hin e (or_introl eq_refl)) as [Hl Hc].
    rewrite ndiv_fin
      by (intro E; rewrite E in HL; now apply Qlt_irrefl in HL).
    cbn [nmul].
    set (optimal := liquidity_of e / totalLiquidity * totalSize).
    assert (Hopt : 0 <= optimal).
    { subst optimal. apply Qmult_le_0_compat; [|exact HT].
      apply Qle_shift_div_l; [exact HL|]. now rewrite Qmult_0_l. }
    destruct (Math_min_fin optimal (cap_of e)) as [m1 [E1 [H1a [H1b H1c]]]].
    rewrite E1.
    destruct (Math_min_fin m1 remaining) as [m [E2 [H2a [H2b H2c]]]].
    rewrite E2. cbn [nsub nadd nneg].
    assert (Hm : 0 <= m) by (destruct H1c, H2c; lra).
    destruct (IH (fun x Hx => Hin x (or_intror Hx)) (remaining + - m) ltac:(lra))
      as [allocs [Emap [Hall Hsum]]].
    exists (m :: allocs). cbn [map Qsum fold_right]. fold (Qsum allocs).
    split; [now rewrite Emap|]. split.
    + constructor; [|exact Hall].
      split; [lra|]. split; [lra|]. fold optimal. lra.
    + lra.
Qed.

Lemma allocate_exchanges (totalSize totalLiquidity : number)
  (exchanges : list DeltaUtils.ExchangeInfo) (remaining : number) :
  map DeltaUtils.allocation_exchange
    (DeltaUtils.allocate totalSize totalLiquidity exchanges remaining)
  = map DeltaUtils.id exchanges.
Proof.
  revert remaining. induction exchanges as [|e exchanges IH]; intro remaining.
  - reflexivity.
  - cbn [map DeltaUtils.allocate DeltaUtils.allocation_exchange]. f_equal.
    apply IH.
Qed.



Lemma allocate_without_liquidity (totalSize : number) (totalLiquidity : Q)
  (exs : list (string * Q * Q * Q)) :
  totalLiquidity == 0 ->
  (forall e, In e exs -> liquidity_of e == 0) ->
  forall remaining : number,
    Forall (fun a => DeltaUtils.allocation a = NaN /\
                     DeltaUtils.allocation_percent a = NaN)
      (DeltaUtils.allocate totalSize (Fin totalLiquidity) (map exchange_of exs)
         remaining).
Proof.
  intros HL. induction exs as [|e exs IH]; intros Hin remaining.
  - constructor.
  - cbn [map DeltaUtils.allocate exchange_of DeltaUtils.liquidity
         DeltaUtils.maxPosition].
    fold (liquidity_of e).
    assert (E : (Fin (liquidity_of e) / Fin totalLiquidity)%num = NaN).
    { unfold ndiv. apply Qeq_bool_iff in HL as ->.
      rewrite Qcompare_zero_eq by (apply Hin; now left). reflexivity. }
    rewrite E. constructor.
    + split; reflexivity.
    + apply IH. intros x Hx. apply Hin. now right.
Qed.

(** X18.  When no exchange has any liquidity, the liquidity shares are
    0/0: [calculateOptimalAllocation] then returns NaN as the allocation
    and the percentage of every exchange, whatever the size and the
    caps. *)
Theorem calculateOptimalAllocation_without_liquidity :
  forall (totalSize : number) (exs : list (string * Q * Q * Q)),
    (forall e, In e exs -> liquidity_of e == 0) ->
    Forall (fun a => DeltaUtils.allocation a = NaN /\
                     DeltaUtils.allocation_percent a = NaN)
      (DeltaUtils.calculateOptimalAllocation totalSize (map exchange_of exs)).
Proof.
  intros totalSize exs Hin.
  unfold DeltaUtils.calculateOptimalAllocation.
  rewrite total_liquidity_fin.
  apply allocate_without_liquidity; [|exact Hin].
  rewrite fold_left_Qsum, Qplus_0_l.
  rewrite (Qsum_map_ext _ (fun _ => 0)) by exact Hin.
  apply Qsum_zeros.
Qed.

Lemma calculateOptimalAllocation_without_liquidity_witness :
  Forall (fun a => DeltaUtils.allocation a = NaN /\
                   DeltaUtils.allocation_percent a = NaN)
    (DeltaUtils.calculateOptimalAllocation (Fin 30000)
       (map exchange_of [("binance"%string, 0, 0.01, 10000);
                         ("bybit"%string, 0, 0.01, 50000)])).
Proof.
  apply calculateOptimalAllocation_without_liquidity.
  intros e [<-|[<-|[]]]; reflexivity.
Defined.

(** ** Rebalancing advice *)

(** X19.  When no time since the last rebalance is given, or the time
    given is 0, [needsRebalance] advises a rebalance exactly when
    [isDeltaNeutral] rejects the delta at the same threshold; and a delta
    that [isDeltaNeutral] rejects is advised to be rebalanced whatever the
    time. *)
Theorem needsRebalance_isDeltaNeutral :
  forall (toFixed : number -> nat -> string) (delta threshold : Q)
         (maxInterval : option number),
    let advice (time : option number) :=
      DeltaUtils.shouldRebalance
        (DeltaUtils.needsRebalance toFixed (Fin delta) (Some (Fin threshold))
           time maxInterval) in
    let neutral :=
      DeltaUtils.isDeltaNeutral (Fin delta) (Some (Fin threshold)) in
    advice None = negb neutral /\
    advice (Some (Fin 0)) = negb neutral /\
    (forall time, neutral = false -> advice time = true).
Proof.
  intros toFixed delta threshold maxInterval advice neutral.
  subst advice neutral.
  unfold DeltaUtils.needsRebalance, DeltaUtils.isDeltaNeutral.
  cbn [default Math_abs ngtb nltb nleb]. unfold Qlt_bool.
  destruct (Qle_bool (Qabs delta) threshold); cbn [negb].
  - repeat split. intros time H. discriminate H.
  - repeat split.
Qed.

Lemma needsRebalance_isDeltaNeutral_witness :
  DeltaUtils.shouldRebalance
    (DeltaUtils.needsRebalance (fun _ _ => EmptyString) (Fin 0.05)
       (Some (Fin 0.02)) (Some (Fin 10)) None) = true.
Proof.
  apply (needsRebalance_isDeltaNeutral (fun _ _ => EmptyString) 0.05 0.02 None).
  reflexivity.
Defined.

(** ** Funding and slippage *)

(** X20.  Funding is a transfer between the two sides: what a short of
    some size receives, a long of the same size pays.  For a positive
    size the short receives exactly when the funding rate is positive. *)
Theorem calculateFundingPayment_transfer :
  forall positionSize fundingRate : Q,
    exists received,
      DeltaUtils.calculateFundingPayment (Fin positionSize) (Fin fundingRate)
        true = Fin received /\
      DeltaUtils.calculateFundingPayment (Fin positionSize) (Fin fundingRate)
        false =n= Fin (- received) /\
      (0 < positionSize -> (0 < received <-> 0 < fundingRate)).
Proof.
  intros positionSize fundingRate.
  unfold DeltaUtils.calculateFundingPayment. cbn [nmul nneg].
  eexists. split; [reflexivity|]. split; [cbn [num_eq]; ring|].
  intro Hs. split; intro H.
  - destruct (Qlt_le_dec 0 fundingRate) as [Hr|Hr]; [exact Hr|].
    exfalso. assert (positionSize * fundingRate <= positionSize * 0).
    { rewrite !(Qmult_comm positionSize). apply Qmult_le_compat_r;
        [exact Hr|now apply Qlt_le_weak]. }
    lra.
  - setoid_replace 0 with (positionSize * 0) by ring.
    now apply Qmult_lt_l.
Qed.

Lemma calculateFundingPayment_transfer_witness :
  exists received,
    DeltaUtils.calculateFundingPayment (Fin 10000) (Fin 0.0001) true
      = Fin received /\
    DeltaUtils.calculateFundingPayment (Fin 10000) (Fin 0.0001) false
      =n= Fin (- received) /\
    (0 < received <-> 0 < 0.0001).
Proof.
  destruct (calculateFundingPayment_transfer 10000 0.0001)
    as [received [Hshort [Hlong Hsign]]].
  exists received. split; [exact Hshort|]. split; [exact Hlong|].
  apply Hsign. reflexivity.
Defined.

(** X21.  Without liquidity [estimateSlippage] is 1 for every size, also
    for size 0.  With positive liquidity it grows with the size, and it is
    not capped at 1: an order ten times the liquidity is estimated at
    1.001 with the default base. *)
Theorem estimateSlippage_shape :
  (forall (size : number) (baseSlippage : option number),
     DeltaUtils.estimateSlippage size (Fin 0) baseSlippage = Fin 1) /\
  (forall liquidity baseSlippage size1 size2 : Q,
     0 < liquidity -> size1 <= size2 ->
     exists s1 s2,
       DeltaUtils.estimateSlippage (Fin size1) (Fin liquidity)
         (Some (Fin baseSlippage)) = Fin s1 /\
       DeltaUtils.estimateSlippage (Fin size2) (Fin liquidity)
         (Some (Fin baseSlippage)) = Fin s2 /\
       s1 <= s2) /\
  (forall liquidity : Q,
     0 < liquidity ->
     DeltaUtils.estimateSlippage (Fin (10 * liquidity)) (Fin liquidity) None
     =n= Fin 1.001).
Proof.
  split; [reflexivity|]. split.
  - intros liquidity baseSlippage size1 size2 Hl Hs.
    assert (Hne : ~ liquidity == 0)
      by (intro E; rewrite E in Hl; now apply Qlt_irrefl in Hl).
    unfold DeltaUtils.estimateSlippage. rewrite neqb_fin_zero.
    apply Qeq_bool_false_iff in Hne as E. rewrite E. cbn [default].
    rewrite !ndiv_fin by assumption. cbn [nmul nadd].
    do 2 eexists. split; [reflexivity|]. split; [reflexivity|].
    assert (H : size1 / liquidity <= size2 / liquidity).
    { unfold Qdiv. apply Qmult_le_compat_r; [exact Hs|].
      apply Qlt_le_weak. now apply Qinv_lt_0_compat. }
    change 0.1 with (1 # 10). lra.
  - intros liquidity Hl.
    assert (Hne : ~ liquidity == 0)
      by (intro E; rewrite E in Hl; now apply Qlt_irrefl in Hl).
    unfold DeltaUtils.estimateSlippage. rewrite neqb_fin_zero.
    apply Qeq_bool_false_iff in Hne as E. rewrite E. cbn [default].
    rewrite ndiv_fin by assumption. cbn [nmul nadd num_eq].
    field. exact Hne.
Qed.

Lemma estimateSlippage_shape_witness :
  (exists s1 s2,
     DeltaUtils.estimateSlippage (Fin 1000) (Fin 10000000)
       (Some (Fin 0.001)) = Fin s1 /\
     DeltaUtils.estimateSlippage (Fin 100000) (Fin 10000000)
       (Some (Fin 0.001)) = Fin s2 /\
     s1 <= s2) /\
  DeltaUtils.estimateSlippage (Fin (10 * 5000)) (Fin 5000) None =n= Fin 1.001.
Proof.
  split.
  - apply (proj1 (proj2 estimateSlippage_shape) 10000000 0.001 1000 100000);
      [reflexivity|discriminate].
  - apply (proj2 (proj2 estimateSlippage_shape) 5000). reflexivity.
Defined.

(** ** Compounding *)

Lemma is_integral_whole (z : Z) : is_integral (inject_Z z) = true.
Proof. unfold is_integral. rewrite Qfloor_Z. apply Qeq_bool_iff. reflexivity. Qed.

Lemma Math_pow_whole (real_pow : Q -> Q -> Q) (b : Q) (n : positive) :
  exists v,
    Math_pow real_pow (Fin b) (Fin (inject_Z (Z.pos n))) = Fin v /\
    v == Qpower_positive b n.
Proof.
  unfold Math_pow. rewrite is_integral_whole, Qfloor_Z.
  change (Qeq_bool (inject_Z (Z.pos n)) 0) with false.
  change (Qlt_bool 0 (inject_Z (Z.pos n))) with true.
  cbv iota.
  destruct (Qeq_bool b 0) eqn:E.
  - apply Qeq_bool_iff in E. exists 0. split; [reflexivity|].
    rewrite E, Qpower_positive_0. reflexivity.
  - eexists. split; reflexivity.
Qed.

Lemma aprToApy_whole (real_pow : Q -> Q -> Q) (apr : Q) (n : positive) :
  exists apy,
    YieldUtils.aprToApy real_pow (Fin apr) (Some (Fin (inject_Z (Z.pos n))))
      = Fin apy /\
    apy == Qpower_positive (1 + apr / inject_Z (Z.pos n)) n - 1.
Proof.
  unfold YieldUtils.aprToApy. cbn [default].
  rewrite ndiv_fin by discriminate. cbn [nadd].
  destruct (Math_pow_whole real_pow (1 + apr / inject_Z (Z.pos n)) n)
    as [v [E Hv]].
  rewrite E. cbn [nsub nadd nneg].
  eexists. split; [reflexivity|]. rewrite Hv. ring.
Qed.

Lemma aprToApy_default_fin (real_pow : Q -> Q -> Q) (apr : Q) :
  exists apy,
    YieldUtils.aprToApy real_pow (Fin apr) None = Fin apy /\
    apy == Qpower_positive (1 + apr / 365) 365 - 1.
Proof. exact (aprToApy_whole real_pow apr 365). Qed.

Lemma calculateRateBasedApy_fin (real_pow : Q -> Q -> Q) (s e d : Q) :
  ~ s == 0 -> ~ d == 0 ->
  exists apy,
    YieldUtils.calculateRateBasedApy real_pow (Fin s) (Fin e) (Fin d) = Fin apy /\
    apy == Qpower_positive (1 + (e - s) / s / d) 365 - 1.
Proof.
  intros Hs Hd. unfold YieldUtils.calculateRateBasedApy.
  rewrite !neqb_fin_zero.
  apply Qeq_bool_false_iff in Hs as Es. apply Qeq_bool_false_iff in Hd as Ed.
  rewrite Es, Ed. cbn [orb nsub nadd nneg].
  rewrite !ndiv_fin by assumption. cbn [nmul].
  destruct (aprToApy_default_fin real_pow ((e + - s) / s / d * 365))
    as [apy [E Hv]].
  exists apy. split; [exact E|]. rewrite Hv.
  assert (Hb : 1 + (e + - s) / s / d * 365 / 365 == 1 + (e - s) / s / d)
    by (field; split; assumption).
  rewrite Hb. reflexivity.
Qed.

(** X29.  [calculateRateBasedApy] returns 0 when the start rate or the
    period is 0, whatever the other arguments.  For a positive start rate
    and a positive period, an end rate that is not below the start rate
    gives a yield that is at least the simple annualised return
    [365 (end - start) / start / days], is 0 exactly for an unchanged rate,
    and does not decrease when the end rate increases. *)
Theorem calculateRateBasedApy_growth :
  forall (real_pow : Q -> Q -> Q),
    (forall x y : number,
        YieldUtils.calculateRateBasedApy real_pow (Fin 0) x y = Fin 0 /\
        YieldUtils.calculateRateBasedApy real_pow x y (Fin 0) = Fin 0) /\
    (forall startRate endRate endRate' periodDays : Q,
        0 < startRate -> 0 < periodDays ->
        startRate <= endRate -> endRate <= endRate' ->
        exists apy apy',
          YieldUtils.calculateRateBasedApy real_pow (Fin startRate)
            (Fin endRate) (Fin periodDays) = Fin apy /\
          YieldUtils.calculateRateBasedApy real_pow (Fin startRate)
            (Fin endRate') (Fin periodDays) = Fin apy' /\
          365 * ((endRate - startRate) / startRate / periodDays) <= apy /\
          apy <= apy' /\
          (apy == 0 <-> endRate == startRate)).
Proof.
  intro real_pow. split.
  - intros x y. unfold YieldUtils.calculateRateBasedApy. split.
    + reflexivity.
    + destruct x; cbn [neqb orb]; try reflexivity.
      now rewrite orb_true_r.
  - intros s e e' d Hs Hd Hse Hee'.
    destruct (calculateRateBasedApy_fin real_pow s e d) as [apy [E Hv]];
      [lra|lra|].
    destruct (calculateRateBasedApy_fin real_pow s e' d) as [apy' [E' Hv']];
      [lra|lra|].
    exists apy, apy'. split; [exact E|]. split; [exact E'|].
    set (x := (e - s) / s / d) in *. set (x' := (e' - s) / s / d) in *.
    assert (Hinv : 0 < / (s * d)).
    { apply Qinv_lt_0_compat. nra. }
    assert (Ex : x == (e - s) * / (s * d)) by (subst x; field; lra).
    assert (Ex' : x' == (e' - s) * / (s * d)) by (subst x'; field; lra).
    assert (Hx0 : 0 <= x) by (rewrite Ex; apply Qmult_le_0_compat; lra).
    assert (Hxx' : x <= x').
    { rewrite Ex, Ex'. apply Qmult_le_compat_r; lra. }
    pose proof (Qpower_positive_bernoulli x 365 ltac:(lra)) as Hb.
    change (inject_Z 365) with 365 in Hb.
    pose proof (Qpower_positive_mono (1 + x) (1 + x') 365
                  ltac:(lra) ltac:(lra)) as Hm.
    split; [lra|]. split; [lra|]. split.
    + intro Hz.
      assert (Hx : x <= 0) by lra.
      assert (Hxz : x == 0) by lra.
      rewrite Ex in Hxz.
      destruct (Qlt_le_dec s e) as [Hlt|Hge]; [|lra].
      exfalso.
      assert (0 < (e - s) * / (s * d)) by (apply Qmult_lt_0_compat; lra).
      lra.
    + intro Heq.
      assert (Hxz : x == 0) by (rewrite Ex, Heq; ring).
      rewrite Hv.
      assert (B : 1 + x == 1) by (rewrite Hxz; reflexivity).
      rewrite B, Qpower_positive_1. ring.
Qed.

Lemma calculateRateBasedApy_growth_witness :
  exists apy apy',
    YieldUtils.calculateRateBasedApy (fun b _ => b) (Fin 1) (Fin 1.01) (Fin 30)
      = Fin apy /\
    YieldUtils.calculateRateBasedApy (fun b _ => b) (Fin 1) (Fin 1.02) (Fin 30)
      = Fin apy' /\
    365 * ((1.01 - 1) / 1 / 30) <= apy /\
    apy <= apy' /\
    (apy == 0 <-> 1.01 == 1).
Proof.
  apply (proj2 (calculateRateBasedApy_growth (fun b _ => b)) 1 1.01 1.02 30);
    solve [reflexivity | discriminate].
Defined.

Lemma nmul_one_r (x : number) : (x * Fin 1)%num =n= x.
Proof. destruct x; cbn; try exact I. ring. Qed.

Lemma Math_pow_zero_exponent (real_pow : Q -> Q -> Q) (base days : number) :
  neqb days (Fin 0) = true -> Math_pow real_pow base days = Fin 1.
Proof.
  destruct days as [| | |q]; cbn [neqb]; try discriminate.
  intro E. unfold Math_pow. now rewrite E.
Qed.

(** X30.  [projectFutureValue] applies the periods in order, each one as
    [calculateEarnings] with compounding does: appending a period gives the
    final amount of [calculateEarnings] on the value projected so far.
    Periods of 0 days leave the value unchanged, whatever their yield (NaN
    included). *)
Theorem projectFutureValue_periods :
  forall (real_pow : Q -> Q -> Q),
    (forall (principal : number) (projectedYields : list YieldUtils.Period),
        Forall (fun period => neqb (YieldUtils.period_days period) (Fin 0) = true)
          projectedYields ->
        YieldUtils.projectFutureValue real_pow principal projectedYields
          =n= principal) /\
    (forall (principal apy days : number)
            (projectedYields : list YieldUtils.Period),
        exists r,
          YieldUtils.calculateEarnings real_pow
            (YieldUtils.projectFutureValue real_pow principal projectedYields)
            apy days None = Normal r /\
          YieldUtils.projectFutureValue real_pow principal
            (projectedYields ++
             [{| YieldUtils.period_days := days;
                 YieldUtils.period_apy := apy |}])
          = YieldUtils.finalAmount r).
Proof.
  intro real_pow. split.
  - intros principal ys Hall. revert principal.
    induction Hall as [|p ys Hp _ IH]; intro principal.
    + reflexivity.
    + unfold YieldUtils.projectFutureValue in *. cbn [fold_left].
      rewrite (Math_pow_zero_exponent real_pow _ _ Hp).
      etransitivity; [apply IH|apply nmul_one_r].
  - intros principal apy days ys.
    eexists. split; [reflexivity|].
    unfold YieldUtils.projectFutureValue. rewrite fold_left_app.
    reflexivity.
Qed.

Lemma projectFutureValue_periods_witness :
  YieldUtils.projectFutureValue (fun b _ => b) (Fin 1000)
    [{| YieldUtils.period_days := Fin 0; YieldUtils.period_apy := Fin 0.10 |};
     {| YieldUtils.period_days := Fin 0; YieldUtils.period_apy := NaN |}]
  =n= Fin 1000.
Proof.
  apply (proj1 (projectFutureValue_periods (fun b _ => b))).
  repeat constructor.
Defined.

(** ** Results up to rounding

    Shares, ratios and weighted sums computed in binary64 miss their exact
    values by the roundings of the computation; the statements below say
    by how much at most. *)

Lemma weighted_sum_between (lo hi : Q) (l : list (Q * Q)) :
  (forall s, In s l -> lo <= fst s <= hi /\ 0 <= snd s) ->
  lo * Qsum (map snd l) <= Qsum (map (fun s => fst s * snd s) l) /\
  Qsum (map (fun s => fst s * snd s) l) <= hi * Qsum (map snd l).
Proof.
  induction l as [|s l IH]; intro H.
  - simpl. split; lra.
  - cbn [map Qsum fold_right].
    fold (Qsum (map snd l)). fold (Qsum (map (fun s => fst s * snd s) l)).
    destruct (H s (or_introl eq_refl)) as [[Hlo Hhi] Hw].
    destruct (IH (fun x Hx => H x (or_intror Hx))) as [IH1 IH2].
    assert (Ha : lo * snd s <= fst s * snd s)
      by (apply Qmult_le_compat_r; assumption).
    assert (Hb : fst s * snd s <= hi * snd s)
      by (apply Qmult_le_compat_r; assumption).
    split; lra.
Qed.

Lemma within_Qsum (k : nat) (xs Xs : list Q) :
  Forall2 (within k) xs Xs -> within k (Qsum xs) (Qsum Xs).
Proof.
  induction 1 as [|x X xs Xs H _ IH].
  - unfold Qsum. simpl. split; rewrite Qmult_0_l; apply Qle_refl.
  - cbn [Qsum fold_right]. fold (Qsum xs) (Qsum Xs). now apply within_add.
Qed.

Lemma within_zeros (k : nat) : within k 0 0.
Proof. split; rewrite Qmult_0_l; apply Qle_refl. Qed.

Lemma multiplier_at_most_five (s : Q) :
  exists m,
    PointsUtils.multiplier (PointsUtils.getMultiplierTier (Fin s)) = Fin m /\
    1 <= m <= 5.
Proof.
  rewrite getMultiplierTier_fin.
  tier_cases s; eexists; (split; [reflexivity|]); split; discriminate.
Qed.

Lemma iterations_whole (n : nat) :
  (Z.of_nat n <= 2 ^ 53)%Z -> iterations (of_nat n) = Some n.
Proof.
  intro H. unfold iterations, of_nat, of_Z.
  assert (E : Qlt_bool (inject_Z (2 ^ 53)) (inject_Z (Z.of_nat n)) = false).
  { apply Qlt_bool_false_iff. rewrite <- Zle_Qle. exact H. }
  rewrite E. now rewrite Qceiling_Z, Nat2Z.id.
Qed.

Section RoundedResults.
Variable rnd : Q -> Q.
Hypothesis rnd_ok : rounds_to_nearest rnd.


Lemma Number_of_bigint_finite (b : Z) :
  (Z.abs b < 2 ^ 1024 - 2 ^ 970)%Z ->
  Rounded.Number_of_bigint rnd b = Fin (rnd (inject_Z b)).
Proof.
  intro H. unfold Rounded.Number_of_bigint.
  destruct (Z.leb_spec (2 ^ 1024 - 2 ^ 970) (Z.abs b)) as [Hbig|_];
    [lia|reflexivity].
Qed.


Lemma blended_rounded (l : list (Q * Q)) (start : Q) :
  fold_left
    (fun total source =>
       Rounded.add rnd total
         (Rounded.mul rnd (YieldUtils.source_apy source)
            (YieldUtils.source_weight source)))
    (map source_of l) (Fin start)
  = Fin (fold_left (fun total s => rnd (total + rnd (fst s * snd s))) l start).
Proof.
  revert start. induction l as [|s l IH]; intro start.
  - reflexivity.
  - cbn [map fold_left]. rewrite <- IH. reflexivity.
Qed.

Lemma blended_within (l : list (Q * Q)) :
  (forall s, In s l -> 0 <= fst s /\ 0 <= snd s) ->
  forall (i : nat) (start S0 : Q),
    0 <= S0 -> within (1 + i) start S0 ->
    within (1 + i + List.length l)
      (fold_left (fun total s => rnd (total + rnd (fst s * snd s))) l start)
      (S0 + Qsum (map (fun s => fst s * snd s) l)).
Proof.
  induction l as [|s l IH]; intros Hin i start S0 HS Hstart.
  - cbn [fold_left map List.length]. rewrite Nat.add_0_r.
    apply (within_comp _ _ S0); [unfold Qsum; simpl; ring|exact Hstart].
  - cbn [fold_left map List.length].
    destruct (Hin s (or_introl eq_refl)) as [Hy Hw].
    assert (Hterm : 0 <= fst s * snd s) by now apply Qmult_le_0_compat.
    replace (1 + i + S (List.length l))%nat with (1 + S i + List.length l)%nat by lia.
    apply (within_comp _ _ ((S0 + fst s * snd s)
                            + Qsum (map (fun s => fst s * snd s) l))).
    { unfold Qsum. simpl. ring. }
    apply IH; [intros x Hx; apply Hin; now right|lra|].
    replace (1 + S i)%nat with (S (1 + i)) by lia.
    apply (within_rnd rnd rnd_ok); [lra|].
    apply within_add; [exact Hstart|].
    apply (within_weaken 1); [lia|exact Hterm|].
    apply (within_rnd rnd rnd_ok); [exact Hterm|]. now apply within_refl.
Qed.


Lemma within_rnd_exact (x : Q) : 0 <= x -> within 1 (rnd x) x.
Proof.
  intro H. apply (within_rnd rnd rnd_ok); [exact H|]. now apply within_refl.
Qed.



Lemma within_rnd_opp (x : Q) : x <= 0 -> within 1 (- rnd x) (- x).
Proof.
  intro Hx. pose proof (rnd_ok x) as H.
  rewrite (Qabs_neg x) in H by exact Hx.
  apply Qabs_Qle_condition in H.
  destruct unit_roundoff_range as [Hu0 Hu1].
  unfold within. cbn [shrink]. split.
  - setoid_replace (- x * ((1 - unit_roundoff) * 1))
      with (- x - unit_roundoff * - x) by ring. lra.
  - assert (Hup : - rnd x * (1 - unit_roundoff)
                  <= (- x + unit_roundoff * - x) * (1 - unit_roundoff))
      by (apply Qmult_le_compat_r; lra).
    assert (Hsq : 0 <= unit_roundoff * unit_roundoff * - x).
    { apply Qmult_le_0_compat; [|lra]. apply Qmult_le_0_compat; lra. }
    setoid_replace ((- x + unit_roundoff * - x) * (1 - unit_roundoff))
      with (- x - unit_roundoff * unit_roundoff * - x) in Hup by ring.
    setoid_replace (- rnd x * ((1 - unit_roundoff) * 1))
      with (- rnd x * (1 - unit_roundoff)) by ring.
    lra.
Qed.

(** The chain of five roundings behind [pnlPercent], for a gain [d] that
    is known within one rounding. *)
Lemma percent_chain (d gain entry size : Q) :
  0 <= gain -> 0 < entry -> 0 < size -> within 1 d gain ->
  within 2 (rnd (d * size)) (gain * size) /\
  0 < rnd (entry * size) /\
  within 5 (rnd (rnd (rnd (d * size) / rnd (entry * size)) * 100))
    (gain / entry * 100).
Proof.
  intros Hg He Hs Hd.
  destruct unit_roundoff_range as [Hu0 Hu1].
  assert (Hgs : 0 <= gain * size) by (apply Qmult_le_0_compat; lra).
  assert (Hes : 0 < entry * size) by now apply Qmult_lt_0_compat.
  assert (W2 : within 2 (rnd (d * size)) (gain * size)).
  { change 2%nat with (S (1 + 0)).
    apply (within_rnd rnd rnd_ok); [exact Hgs|].
    apply within_mul; [exact Hg|lra|exact Hd|apply within_refl; lra]. }
  assert (Wd : within 1 (rnd (entry * size)) (entry * size))
    by (apply within_rnd_exact; lra).
  assert (Hden : 0 < rnd (entry * size)).
  { destruct Wd as [Hl _]. cbn [shrink] in Hl.
    assert (0 < entry * size * ((1 - unit_roundoff) * 1)).
    { apply Qmult_lt_0_compat; [exact Hes|]. lra. }
    lra. }
  split; [exact W2|]. split; [exact Hden|].
  assert (Hq : 0 <= gain * size / (entry * size)).
  { apply Qle_shift_div_l; [exact Hes|]. now rewrite Qmult_0_l. }
  assert (Eq : gain * size / (entry * size) * 100 == gain / entry * 100)
    by (field; split; lra).
  apply (within_comp _ _ _ _ Eq).
  change 5%nat with (S (S (2 + 1) + 0)).
  apply (within_rnd rnd rnd_ok); [apply Qmult_le_0_compat; lra|].
  apply within_mul; [exact Hq|lra| |apply within_refl; lra].
  apply (within_rnd rnd rnd_ok); [exact Hq|].
  now apply within_div.
Qed.


(** A sum accumulated with one rounding for each addition. *)
Lemma rounded_sum_within {A : Type} (f F : A -> Q) (k : nat) (l : list A) :
  (forall a, In a l -> 0 <= F a /\ within k (f a) (F a)) ->
  forall (i : nat) (start S0 : Q),
    0 <= S0 -> within (k + i) start S0 ->
    within (k + i + List.length l)
      (fold_left (fun acc a => rnd (acc + f a)) l start)
      (S0 + Qsum (map F l)).
Proof.
  induction l as [|a l IH]; intros Hin i start S0 HS Hstart.
  - cbn [fold_left map List.length]. rewrite Nat.add_0_r.
    apply (within_comp _ _ S0); [unfold Qsum; simpl; ring|exact Hstart].
  - cbn [fold_left map List.length].
    destruct (Hin a (or_introl eq_refl)) as [HF Hf].
    replace (k + i + S (List.length l))%nat
      with (k + S i + List.length l)%nat by lia.
    apply (within_comp _ _ ((S0 + F a) + Qsum (map F l))).
    { unfold Qsum. simpl. ring. }
    apply IH; [intros x Hx; apply Hin; now right|lra|].
    replace (k + S i)%nat with (S (k + i)) by lia.
    apply (within_rnd rnd rnd_ok); [lra|].
    apply within_add; [exact Hstart|].
    apply (within_weaken k); [lia|exact HF|exact Hf].
Qed.

Lemma Qsum_map_nonneg {A : Type} (F : A -> Q) (l : list A) :
  (forall a, In a l -> 0 <= F a) -> 0 <= Qsum (map F l).
Proof.
  intro H. apply Qsum_nonneg. intros x Hx. apply in_map_iff in Hx.
  destruct Hx as [a [<- Ha]]. now apply H.
Qed.

Lemma Qsum_map_pos {A : Type} (F : A -> Q) (l : list A) :
  l <> [] -> (forall a, In a l -> 0 < F a) -> 0 < Qsum (map F l).
Proof.
  destruct l as [|a l]; [congruence|]. intros _ H.
  cbn [map Qsum fold_right]. fold (Qsum (map F l)).
  assert (0 < F a) by (apply H; now left).
  assert (0 <= Qsum (map F l)).
  { apply Qsum_map_nonneg. intros x Hx. apply Qlt_le_weak, H. now right. }
  lra.
Qed.

Lemma within_pos (k : nat) (x X : Q) : 0 < X -> within k x X -> 0 < x.
Proof.
  intros HX [Hl _]. pose proof (shrink_pos k).
  assert (0 < X * shrink k) by now apply Qmult_lt_0_compat. lra.
Qed.

Lemma aggregate_sums (ps : list (DeltaUtils.Side * Q * Q * Q)) :
  forall (acc : DeltaUtils.Totals) (we sz : Q),
    DeltaUtils.sum_weightedEntry acc = Fin we ->
    DeltaUtils.sum_size acc = Fin sz ->
    DeltaUtils.sum_weightedEntry
      (fold_left (Rounded.DeltaUtils.aggregate_step rnd) (map open_position_of ps) acc)
    = Fin (fold_left (fun acc p => rnd (acc + rnd (entry_of p * size_of p)))
             ps we) /\
    DeltaUtils.sum_size
      (fold_left (Rounded.DeltaUtils.aggregate_step rnd) (map open_position_of ps) acc)
    = Fin (fold_left (fun acc p => rnd (acc + size_of p)) ps sz).
Proof.
  induction ps as [|p ps IH]; intros acc we sz Hwe Hsz.
  - split; assumption.
  - cbn [map fold_left]. apply IH.
    + cbn [Rounded.DeltaUtils.aggregate_step DeltaUtils.sum_weightedEntry
           open_position_of DeltaUtils.pos_entryPrice DeltaUtils.pos_size].
      rewrite Hwe. reflexivity.
    + cbn [Rounded.DeltaUtils.aggregate_step DeltaUtils.sum_size
           open_position_of DeltaUtils.pos_size].
      rewrite Hsz. reflexivity.
Qed.


Lemma gaps_nonneg (times : list Q) :
  forall previous, ascending previous times = true ->
    forall d, In d (gaps previous times) -> 0 <= d.
Proof.
  induction times as [|t times IH]; intros previous H d Hd.
  - destruct Hd.
  - cbn [ascending] in H. apply andb_true_iff in H. destruct H as [H1 H2].
    apply Qle_bool_iff in H1. cbn [gaps] in Hd. destruct Hd as [<-|Hd].
    + lra.
    + now apply (IH t).
Qed.

Lemma gaps_sum (times : list Q) :
  forall previous, Qsum (gaps previous times) == last times previous - previous.
Proof.
  induction times as [|t times IH]; intro previous.
  - unfold Qsum. simpl. ring.
  - cbn [gaps Qsum fold_right]. fold (Qsum (gaps t times)). rewrite IH.
    assert (E : last (t :: times) previous = last times t).
    { clear IH. revert t previous.
      induction times as [|u times IHt]; intros t previous;
        [reflexivity|].
      change (last (t :: u :: times) previous) with (last (u :: times) previous).
      rewrite (IHt u previous). symmetry. apply (IHt u t). }
    rewrite E. ring.
Qed.

Lemma gaps_length (times : list Q) :
  forall previous, List.length (gaps previous times) = List.length times.
Proof.
  induction times as [|t times IH]; intro previous; [reflexivity|].
  cbn [gaps List.length]. now rewrite IH.
Qed.

Lemma tway_loop_constant (y : Q) (times : list Q) :
  forall previous weighted time : Q,
    Rounded.YieldUtils.tway_loop rnd (point_of (previous, y))
      (map (fun t => point_of (t, y)) times) (Fin weighted) (Fin time)
    = (Fin (fold_left
              (fun acc d => rnd (acc + rnd (rnd (rnd (y + y) / 2) * rnd d)))
              (gaps previous times) weighted),
       Fin (fold_left (fun acc d => rnd (acc + rnd d))
              (gaps previous times) time)).
Proof.
  induction times as [|t times IH]; intros previous weighted time.
  - reflexivity.
  - cbn [map Rounded.YieldUtils.tway_loop gaps fold_left].
    cbn [point_of YieldUtils.timestamp YieldUtils.yield fst snd].
    rewrite (sub_fin rnd), (add_fin rnd).
    rewrite (div_fin rnd) by discriminate.
    rewrite (mul_fin rnd), !(add_fin rnd).
    apply IH.
Qed.


Lemma compound_rounded_upper (rate : Q) (n : nat) :
  0 <= rate ->
  forall sats : Q,
    0 <= sats ->
    exists total,
      Rounded.PointsUtils.compound rnd (Fin rate) n (Fin sats) = Fin total /\
      0 <= total /\
      total * shrink (2 * n) <= sats + 5 * rate * inject_Z (Z.of_nat n).
Proof.
  intro Hrate. induction n as [|n IH]; intros sats Hsats.
  - exists sats. split; [reflexivity|]. split; [exact Hsats|].
    change (inject_Z (Z.of_nat 0)) with 0. change (2 * 0)%nat with 0%nat.
    cbn [shrink]. lra.
  - cbn [Rounded.PointsUtils.compound].
    destruct (multiplier_at_most_five sats) as [m [Em [Hm1 Hm5]]].
    rewrite Em. rewrite (mul_fin rnd), (add_fin rnd).
    assert (Hrm : 0 <= rate * m) by (apply Qmult_le_0_compat; lra).
    assert (W : within 2 (rnd (sats + rnd (rate * m))) (sats + rate * m)).
    { change 2%nat with (S 1).
      apply (within_rnd rnd rnd_ok); [lra|].
      apply within_add.
      - apply (within_weaken 0); [lia|exact Hsats|now apply within_refl].
      - apply (within_rnd rnd rnd_ok); [exact Hrm|]. now apply within_refl. }
    assert (Hx : 0 <= rnd (sats + rnd (rate * m))).
    { apply (within_nonneg 2 _ (sats + rate * m)); [lra|exact W]. }
    destruct (IH _ Hx) as [total [Et [Ht0 Hle]]].
    exists total. split; [exact Et|]. split; [exact Ht0|].
    replace (2 * S n)%nat with (2 + 2 * n)%nat by lia.
    rewrite shrink_add.
    rewrite Nat2Z.inj_succ, <- Z.add_1_r, inject_Z_plus.
    change (inject_Z 1) with 1.
    set (k := inject_Z (Z.of_nat n)) in *.
    assert (Hk : 0 <= k).
    { subst k. change 0 with (inject_Z 0). rewrite <- Zle_Qle. lia. }
    destruct W as [_ Wh].
    pose proof (shrink_pos 2) as Hs0. pose proof (shrink_le_1 2) as Hs1.
    assert (Hrk : 0 <= 5 * rate * k).
    { apply Qmult_le_0_compat; [|exact Hk]. lra. }
    assert (H1 : total * shrink (2 * n) * shrink 2
                 <= (rnd (sats + rnd (rate * m)) + 5 * rate * k) * shrink 2)
      by (apply Qmult_le_compat_r; lra).
    assert (H2 : 5 * rate * k * shrink 2 <= 5 * rate * k * 1).
    { rewrite !(Qmult_comm (5 * rate * k)). apply Qmult_le_compat_r; lra. }
    assert (H3 : rate * m <= rate * 5).
    { rewrite !(Qmult_comm rate). apply Qmult_le_compat_r; lra. }
    setoid_replace (total * (shrink 2 * shrink (2 * n)))
      with (total * shrink (2 * n) * shrink 2) by ring.
    setoid_replace ((rnd (sats + rnd (rate * m)) + 5 * rate * k) * shrink 2)
      with (rnd (sats + rnd (rate * m)) * shrink 2 + 5 * rate * k * shrink 2)
      in H1 by ring.
    lra.
Qed.


End RoundedResults.









